(** * VestraForge: connection validator, flow analyzer and lowering pass

    A shallow embedding of the graph-to-source core of the editor:
    - [ConnectionValidator] and [ProgramFlowAnalyzer] from
      [private/src/utils/solanaUtils.ts];
    - [generateAnchorCode] and its helpers from the code-generation module
      [utils/codeGeneration] (kept in [src/data/use-auth.tsx]);
    - the data model from [private/src/types/editor.ts].

    Modelling conventions.
    - JavaScript strings are [string]s; only concatenation, equality and the
      three [String.prototype] built-ins taken as section variables in
      [Section Lowering] are ever applied to them.
    - An object declared [Record<string, string[]>] is a plain JavaScript
      object ([JsObject.t]): its own properties, and the array that an
      assignment to ['__proto__'] installed as its prototype, if any.
      Reading a key also finds the properties inherited from the prototype
      chain ([JsObject.get]); the property names of [Object.prototype] and
      [Array.prototype] are those of ECMAScript 2023.
    - A [Set<string>] is a [gset string]; arrays are lists.
    - A call that raises a [TypeError] returns [Throw].  The recursive
      closures [visit] are defined by recursion on a depth budget; a run that
      exhausts it returns [OutOfFuel].  The budget the callers pass is never
      exhausted ([analyzeFlow_budget], [generateAnchorCode_budget]) and a
      run that stays within its budget does not depend on it
      ([topo_visit_budget_mono] and its siblings). *)

From Stdlib Require Import String Ascii List.
From stdpp Require Import gmap strings list pretty.
Import ListNotations.
#[local] Set Warnings "-clear-no-such-hyp".
Local Open Scope string_scope.
Local Open Scope list_scope.

(** ** Data model ([types/editor.ts]) *)

(** Only the fields the core reads are kept; the geometry, colour, icon and
    description fields of [CanvasNode] are never inspected by it. *)

Module Port.
Record t : Type := mk { id : string; name : string; type : string }.
End Port.

Module CanvasNode.
Record t : Type := mk {
  id : string;
  type : string;
  name : string;
  inputs : list Port.t;
  outputs : list Port.t
}.
End CanvasNode.

Module Connection.
Record t : Type := mk {
  id : string;
  sourceNodeId : string;
  targetNodeId : string;
  sourcePortId : string;
  targetPortId : string
}.
End Connection.

Record ValidationResult : Type := {
  isValid : bool;
  error : option string
}.

(** ** Outcomes of a call *)

Inductive outcome (A : Type) : Type :=
| Ok (a : A)
| Throw
| OutOfFuel.
Arguments Ok {A} a.
Arguments Throw {A}.
Arguments OutOfFuel {A}.

Definition bind {A B : Type} (m : outcome A) (k : A -> outcome B) : outcome B :=
  match m with
  | Ok a => k a
  | Throw => Throw
  | OutOfFuel => OutOfFuel
  end.

Notation "'do' x <- m ; k" := (bind m (fun x => k))
  (at level 10, x name, m at level 100, k at level 200).

(** [Array.prototype.forEach] with a callback that updates a state and may
    raise. *)
Fixpoint forEach {A S : Type} (f : A -> S -> outcome S) (l : list A) (s : S)
  : outcome S :=
  match l with
  | [] => Ok s
  | a :: l' => do s' <- f a s; forEach f l' s'
  end.

(** [Array.prototype.map] with a callback that may raise. *)
Fixpoint mapM {A B : Type} (f : A -> outcome B) (l : list A) : outcome (list B) :=
  match l with
  | [] => Ok []
  | a :: l' => do b <- f a; do bs <- mapM f l'; Ok (b :: bs)
  end.

(** [Array.prototype.includes] on strings. *)
Definition includes (x : string) (l : list string) : bool :=
  existsb (String.eqb x) l.

(** ** Plain objects used as maps *)

(** The two objects of the core that are indexed by arbitrary strings,
    [compatibilityMap] and [dependencies], hold arrays of strings and are
    created by an object literal; their prototype is [Object.prototype]
    until an assignment to the key ['__proto__'] replaces it. *)

Module JsObject.

(** The property names of [Object.prototype]. *)
Definition objectPrototypeKeys : list string :=
  ["constructor"; "__defineGetter__"; "__defineSetter__"; "hasOwnProperty";
   "__lookupGetter__"; "__lookupSetter__"; "isPrototypeOf";
   "propertyIsEnumerable"; "toString"; "valueOf"; "__proto__";
   "toLocaleString"].

(** The property names of [Array.prototype]. *)
Definition arrayPrototypeKeys : list string :=
  ["length"; "constructor"; "at"; "concat"; "copyWithin"; "fill"; "find";
   "findIndex"; "findLast"; "findLastIndex"; "lastIndexOf"; "pop"; "push";
   "reverse"; "shift"; "unshift"; "slice"; "sort"; "splice"; "includes";
   "indexOf"; "join"; "keys"; "entries"; "values"; "forEach"; "filter";
   "flat"; "flatMap"; "map"; "every"; "some"; "reduce"; "reduceRight";
   "toReversed"; "toSorted"; "toSpliced"; "with"; "toLocaleString";
   "toString"].

(** What reading a property yields, as far as the core can tell: an array
    of strings; some other value that is truthy (a function, an object that
    is not an array, a non-zero number, a non-empty string), which has
    neither [push] nor [forEach]; or a falsy value ([undefined], [0] or the
    empty string).  Numbers and strings are only ever found through a
    prototype that is an array. *)
Inductive value : Type :=
| Array (l : list string)
| Truthy
| Falsy.

Definition truthy (b : bool) : value := if b then Truthy else Falsy.

Record t : Type := mk {
  own : gmap string (list string);
  proto : option (list string)
}.

(** The object literal without properties. *)
Definition empty : t := mk ∅ None.

(** The number written by a key that is an array index: decimal digits
    without a leading zero. *)
Definition digit (c : ascii) : option N :=
  let n := N_of_ascii c in
  if ((48 <=? n) && (n <=? 57))%N then Some (n - 48)%N else None.

Fixpoint digits (acc : N) (k : string) : option N :=
  match k with
  | EmptyString => Some acc
  | String c k' =>
    match digit c with
    | Some d => digits (10 * acc + d)%N k'
    | None => None
    end
  end.

Definition arrayIndex (k : string) : option N :=
  match k with
  | EmptyString => None
  | String c EmptyString => digit c
  | String c _ => if (c =? "0")%char then None else digits 0 k
  end.

(** The element of the array [a] that the key [k] names, if any. *)
Definition elementAt (a : list string) (k : string) : option string :=
  match arrayIndex k with
  | Some i => if (i <? N.of_nat (length a))%N then a !! N.to_nat i else None
  | None => None
  end.

(** A property found on [Object.prototype]: a function, or for
    ['__proto__'] the prototype object itself. *)
Definition objectProperty (k : string) : value :=
  truthy (includes k objectPrototypeKeys).

(** A property found on the array [a] or further up its prototype chain:
    its length, one of its elements, a method of [Array.prototype], or a
    property of [Object.prototype]. *)
Definition arrayProperty (a : list string) (k : string) : value :=
  if k =? "length" then truthy (negb (Nat.eqb (length a) 0))
  else
    match elementAt a k with
    | Some e => truthy (negb (e =? EmptyString))
    | None =>
      if includes k arrayPrototypeKeys then Truthy else objectProperty k
    end.

(** [o[k]]. *)
Definition get (o : t) (k : string) : value :=
  match own o !! k with
  | Some l => Array l
  | None =>
    match proto o with
    | None => objectProperty k
    | Some a => if k =? "__proto__" then Array a else arrayProperty a k
    end
  end.

(** [o[k] = v]: an own property is created or overwritten, except that the
    inherited setter of ['__proto__'] makes [v] the prototype instead. *)
Definition set (o : t) (k : string) (v : list string) : t :=
  if (k =? "__proto__") && bool_decide (own o !! k = None)
  then mk (own o) (Some v)
  else mk (<[k := v]> (own o)) (proto o).

(** [o[k].push(x)], where [o[k]] is an array: the array is extended in
    place, be it the value of an own property or the prototype. *)
Definition push (o : t) (k : string) (x : string) : t :=
  match own o !! k with
  | Some l => mk (<[k := l ++ [x]]> (own o)) (proto o)
  | None =>
    match proto o with
    | Some a => if k =? "__proto__" then mk (own o) (Some (a ++ [x])) else o
    | None => o
    end
  end.

(** The key names a built-in property: a property name of
    [Object.prototype] or [Array.prototype], or an array index.  Any other
    key is found on no prototype chain of the core. *)
Definition builtinKey (k : string) : bool :=
  includes k objectPrototypeKeys || includes k arrayPrototypeKeys
  || bool_decide (is_Some (arrayIndex k)).

End JsObject.

(** [o !! k] is the array that reading [o[k]] yields, when it yields one;
    [dom o] is the set of these keys. *)
#[global] Instance jsobject_lookup : Lookup string (list string) JsObject.t :=
  fun k o => match JsObject.get o k with
             | JsObject.Array l => Some l
             | _ => None
             end.

#[global] Instance jsobject_dom : Dom JsObject.t (gset string) :=
  fun o => dom (JsObject.own o) ∪
           match JsObject.proto o with
           | Some _ => {["__proto__"]}
           | None => ∅
           end.
(** ** ConnectionValidator *)

(** The object literal of [areTypesCompatible]; its prototype is
    [Object.prototype]. *)
Definition compatibilityMap : JsObject.t :=
  JsObject.mk
    (<["number" := ["string"; "boolean"]]>
     (<["string" := ["number"]]>
     (<["data" := ["any"]]>
     (<["control" := ["event"]]>
     (<["event" := ["control"]]> ∅)))))
    None.

(** [compatibilityMap[sourceType]?.includes(targetType) || false]: an
    inherited property is a function or an object, not nullish, and has no
    [includes], so the call raises. *)
Definition areTypesCompatible (sourceType targetType : string) : outcome bool :=
  if (sourceType =? "any") || (targetType =? "any") then Ok true
  else if sourceType =? targetType then Ok true
  else match JsObject.get compatibilityMap sourceType with
       | JsObject.Array l => Ok (includes targetType l)
       | JsObject.Truthy => Throw
       | JsObject.Falsy => Ok false
       end.

Definition sameEndpoints (sourceNode : CanvasNode.t) (sourcePort : Port.t)
    (targetNode : CanvasNode.t) (targetPort : Port.t) (conn : Connection.t) : bool :=
  (Connection.sourceNodeId conn =? CanvasNode.id sourceNode) &&
  (Connection.targetNodeId conn =? CanvasNode.id targetNode) &&
  (Connection.sourcePortId conn =? Port.id sourcePort) &&
  (Connection.targetPortId conn =? Port.id targetPort).

Definition sameTarget (targetNode : CanvasNode.t) (targetPort : Port.t)
    (conn : Connection.t) : bool :=
  (Connection.targetNodeId conn =? CanvasNode.id targetNode) &&
  (Connection.targetPortId conn =? Port.id targetPort).

Definition validateConnection (sourceNode : CanvasNode.t) (sourcePort : Port.t)
    (targetNode : CanvasNode.t) (targetPort : Port.t)
    (existingConnections : list Connection.t) : outcome ValidationResult :=
  if CanvasNode.id sourceNode =? CanvasNode.id targetNode then
    Ok {| isValid := false; error := Some "Cannot connect node to itself" |}
  else
    do compatible <- areTypesCompatible (Port.type sourcePort) (Port.type targetPort);
    if negb compatible then
      Ok {| isValid := false;
            error := Some ("Incompatible types: " +:+ Port.type sourcePort +:+ " -> "
                           +:+ Port.type targetPort) |}
    else
      match List.find (sameEndpoints sourceNode sourcePort targetNode targetPort)
                 existingConnections with
      | Some _ => Ok {| isValid := false; error := Some "Connection already exists" |}
      | None =>
        match List.find (sameTarget targetNode targetPort) existingConnections with
        | Some _ =>
          Ok {| isValid := false;
                error := Some "Port already has an input connection" |}
        | None => Ok {| isValid := true; error := None |}
        end
      end.
(** ** ProgramFlowAnalyzer *)

Module FlowAnalysis.
Record t : Type := mk {
  executionOrder : list string;
  dependencies : JsObject.t;
  cycles : list (list string);
  isolatedNodes : list string
}.
End FlowAnalysis.

(** The first loop of [analyzeFlow]: [dependencies[node.id] = []] on the
    object [{}]. *)
Definition initDependencies (nodes : list CanvasNode.t) : JsObject.t :=
  foldl (fun deps node => JsObject.set deps (CanvasNode.id node) [])
        JsObject.empty nodes.

(** The body of the second loop:
    [if (dependencies[target]) dependencies[target].push(source)].  A truthy
    value that is not an array has no [push]. *)
Definition addDependency (connection : Connection.t) (dependencies : JsObject.t)
  : outcome JsObject.t :=
  match JsObject.get dependencies (Connection.targetNodeId connection) with
  | JsObject.Array _ =>
    Ok (JsObject.push dependencies (Connection.targetNodeId connection)
                      (Connection.sourceNodeId connection))
  | JsObject.Truthy => Throw
  | JsObject.Falsy => Ok dependencies
  end.

Definition buildDependencies (nodes : list CanvasNode.t) (connections : list Connection.t)
  : outcome JsObject.t :=
  forEach addDependency connections (initDependencies nodes).

(** *** topologicalSort *)

Module Topo.
Record state : Type := mk {
  visited : gset string;
  visiting : gset string;
  result : list string
}.

Definition init : state := mk ∅ ∅ [].

(** [dependencies[nodeId].forEach(...)] raises unless the value read is an
    array. *)
Fixpoint visit (fuel : nat) (dependencies : JsObject.t)
    (nodeId : string) (st : state) : outcome state :=
  match fuel with
  | O => OutOfFuel
  | S fuel' =>
    if bool_decide (nodeId ∈ visiting st) then Ok st
    else if bool_decide (nodeId ∈ visited st) then Ok st
    else
      let st1 := mk (visited st) ({[nodeId]} ∪ visiting st) (result st) in
      match JsObject.get dependencies nodeId with
      | JsObject.Array deps =>
        do st2 <- forEach (visit fuel' dependencies) deps st1;
        Ok (mk ({[nodeId]} ∪ visited st2) (visiting st2 ∖ {[nodeId]})
               (result st2 ++ [nodeId]))
      | _ => Throw
      end
  end.
End Topo.

Definition topologicalSort (nodeIds : list string)
    (dependencies : JsObject.t) : outcome (list string) :=
  do st <- forEach (Topo.visit (S (length nodeIds)) dependencies) nodeIds Topo.init;
  Ok (Topo.result st).

(** *** detectCycles *)

(** [Array.prototype.indexOf], [-1] when absent. *)
Fixpoint indexOf (x : string) (l : list string) : Z :=
  match l with
  | [] => (-1)%Z
  | y :: l' =>
    if y =? x then 0%Z
    else let i := indexOf x l' in if (i <? 0)%Z then (-1)%Z else (i + 1)%Z
  end.

(** [Array.prototype.slice(start)]: a negative [start] counts from the end. *)
Definition slice (start : Z) (l : list string) : list string :=
  if (start <? 0)%Z then drop (Z.to_nat (Z.max (Z.of_nat (length l) + start) 0)) l
  else drop (Z.to_nat start) l.

Module Cyc.
Record state : Type := mk {
  cycles : list (list string);
  visited : gset string;
  visiting : gset string
}.

Definition init : state := mk [] ∅ ∅.

Fixpoint visit (fuel : nat) (dependencies : JsObject.t)
    (nodeId : string) (path : list string) (st : state) : outcome state :=
  match fuel with
  | O => OutOfFuel
  | S fuel' =>
    if bool_decide (nodeId ∈ visiting st) then
      Ok (mk (cycles st ++ [slice (indexOf nodeId path) path]) (visited st) (visiting st))
    else if bool_decide (nodeId ∈ visited st) then Ok st
    else
      let st1 := mk (cycles st) (visited st) ({[nodeId]} ∪ visiting st) in
      let path1 := path ++ [nodeId] in
      match JsObject.get dependencies nodeId with
      | JsObject.Array deps =>
        do st2 <- forEach (fun dep => visit fuel' dependencies dep path1) deps st1;
        Ok (mk (cycles st2) ({[nodeId]} ∪ visited st2) (visiting st2 ∖ {[nodeId]}))
      | _ => Throw
      end
  end.
End Cyc.

Definition detectCycles (nodeIds : list string)
    (dependencies : JsObject.t) : outcome (list (list string)) :=
  do st <- forEach (fun nodeId => Cyc.visit (S (length nodeIds)) dependencies nodeId [])
                   nodeIds Cyc.init;
  Ok (Cyc.cycles st).

(** *** findIsolatedNodes *)

Definition connectedNodes (connections : list Connection.t) : gset string :=
  foldl (fun s connection =>
           {[Connection.targetNodeId connection]} ∪
           ({[Connection.sourceNodeId connection]} ∪ s)) ∅ connections.

Definition findIsolatedNodes (nodes : list CanvasNode.t)
    (connections : list Connection.t) : list string :=
  map CanvasNode.id
      (base.filter (fun node => CanvasNode.id node ∉ connectedNodes connections) nodes).

(** *** analyzeFlow *)

(** The [nodeMap] built at the start of the source function is never read. *)

Definition analyzeFlow (nodes : list CanvasNode.t) (connections : list Connection.t)
  : outcome FlowAnalysis.t :=
  do dependencies <- buildDependencies nodes connections;
  do executionOrder <- topologicalSort (map CanvasNode.id nodes) dependencies;
  do cycles <- detectCycles (map CanvasNode.id nodes) dependencies;
  let isolatedNodes := findIsolatedNodes nodes connections in
  Ok (FlowAnalysis.mk executionOrder dependencies cycles isolatedNodes).

(** ** Lowering pass ([generateAnchorCode]) *)

Module DataFlowConnection.
Record t : Type := mk {
  from : string;
  to : string;
  dataType : string;
  required : bool
}.
End DataFlowConnection.

Module ProgramFlow.
Record t : Type := mk {
  entryPoints : list string;
  executionOrder : list string;
  dataFlow : list DataFlowConnection.t
}.
End ProgramFlow.

Module GeneratedCode.
Record t : Type := mk {
  lib : string;
  instructions : list string;
  tests : string;
  cargoToml : string;
  anchorToml : string;
  programFlow : ProgramFlow.t
}.
End GeneratedCode.

(** The double-quote character, spliced into the templates below. *)
Definition dq : string := String "034"%char EmptyString.

(** [nodes.find(n => n.id === nodeId)] *)
Definition findNode (nodes : list CanvasNode.t) (nodeId : string) : option CanvasNode.t :=
  List.find (fun n => CanvasNode.id n =? nodeId) nodes.

Definition isAccount (node : CanvasNode.t) : bool :=
  CanvasNode.type node =? "account".

(** [connections.filter(conn => conn.targetNodeId === nodeId)] *)
Definition incomingOf (connections : list Connection.t) (nodeId : string)
  : list Connection.t :=
  List.filter (fun conn => Connection.targetNodeId conn =? nodeId) connections.

(** [connections.filter(conn => conn.targetNodeId === id || conn.sourceNodeId === id).length] *)
Definition touching (connections : list Connection.t) (nodeId : string) : nat :=
  length (List.filter (fun conn => (Connection.targetNodeId conn =? nodeId)
                                   || (Connection.sourceNodeId conn =? nodeId))
                      connections).

(** *** analyzeProgramFlow *)

Module Flow.
Record state : Type := mk {
  visited : gset string;
  visiting : gset string;
  executionOrder : list string
}.

Definition init : state := mk ∅ ∅ [].

Fixpoint visit (fuel : nat) (nodes : list CanvasNode.t)
    (connections : list Connection.t) (nodeId : string) (st : state)
  : outcome state :=
  match fuel with
  | O => OutOfFuel
  | S fuel' =>
    if bool_decide (nodeId ∈ visiting st) then Ok st
    else if bool_decide (nodeId ∈ visited st) then Ok st
    else
      let st1 := mk (visited st) ({[nodeId]} ∪ visiting st) (executionOrder st) in
      do st2 <-
        match findNode nodes nodeId with
        | Some node =>
          if negb (isAccount node) then
            do st' <- forEach
                       (fun conn => visit fuel' nodes connections
                                          (Connection.sourceNodeId conn))
                       (incomingOf connections nodeId) st1;
            Ok (mk (visited st') (visiting st')
                   (executionOrder st' ++ [CanvasNode.name node]))
          else Ok st1
        | None => Ok st1
        end;
      Ok (mk ({[nodeId]} ∪ visited st2) (visiting st2 ∖ {[nodeId]})
             (executionOrder st2))
  end.
End Flow.

(** The names of the behavioral nodes that no connection enters. *)
Definition entryPointsOf (nodes : list CanvasNode.t) (connections : list Connection.t)
  : list string :=
  map CanvasNode.name
      (List.filter
         (fun node =>
            negb (existsb (fun conn => Connection.targetNodeId conn =? CanvasNode.id node)
                          connections)
            && negb (isAccount node))
         nodes).

(** One record per connection whose nodes and ports all resolve. *)
Definition dataFlowOf (nodes : list CanvasNode.t) (connections : list Connection.t)
  : list DataFlowConnection.t :=
  flat_map
    (fun conn =>
       match findNode nodes (Connection.sourceNodeId conn),
             findNode nodes (Connection.targetNodeId conn) with
       | Some sourceNode, Some targetNode =>
         match List.find (fun p => Port.id p =? Connection.sourcePortId conn)
                         (CanvasNode.outputs sourceNode),
               List.find (fun p => Port.id p =? Connection.targetPortId conn)
                         (CanvasNode.inputs targetNode) with
         | Some sourcePort, Some _ =>
           [DataFlowConnection.mk (CanvasNode.name sourceNode)
                                  (CanvasNode.name targetNode)
                                  (Port.type sourcePort) true]
         | _, _ => []
         end
       | _, _ => []
       end)
    connections.

Definition analyzeProgramFlow (nodes : list CanvasNode.t)
    (connections : list Connection.t) : outcome ProgramFlow.t :=
  let entryPoints := entryPointsOf nodes connections in
  do st <- forEach (fun node => Flow.visit (S (length nodes)) nodes connections
                                           (CanvasNode.id node))
                   nodes Flow.init;
  let dataFlow := dataFlowOf nodes connections in
  Ok (ProgramFlow.mk entryPoints (Flow.executionOrder st) dataFlow).

(** *** Text templates *)

(** [generateIntegrationTests] *)
Definition generateIntegrationTests (instructionNodes : list CanvasNode.t)
    (connections : list Connection.t) : string :=
  if Nat.eqb (length connections) 0 then EmptyString
  else
    let quotedNames :=
      String.concat ", " (map (fun n => dq +:+ (CanvasNode.name n) +:+ dq) instructionNodes) in
    "
  describe(" +:+ dq +:+ "Integration Tests" +:+ dq +:+ ", () => {
    it(" +:+ dq +:+ "should execute connected instructions in sequence" +:+ dq +:+ ", async () => {
      console.log(" +:+ dq +:+ "🔗 Testing instruction connections" +:+ dq +:+ ");
      
      // Execute instructions based on their connections
      const executionOrder = [" +:+ quotedNames +:+ "];
      
      for (const instructionName of executionOrder) {
        console.log(`Executing: ${instructionName}`);
        // Add specific execution logic here
      }
      
      console.log(" +:+ dq +:+ "✅ All connected instructions executed successfully" +:+ dq +:+ ");
    });
  });".

Definition generateFlowValidation (instructionNodes : list CanvasNode.t)
    (connections : list Connection.t) : string :=
  "
    pub fn validate_program_flow(instruction_sequence: &[String]) -> Result<()> {
        // Validate execution order based on connections
        for (i, instruction) in instruction_sequence.iter().enumerate() {
            msg!(" +:+ dq +:+ "Validating instruction {}: {}" +:+ dq +:+ ", i, instruction);
        }
        Ok(())
    }".

Definition generateCargoToml (programName : string) : string :=
  "[package]
name = " +:+ dq +:+ programName +:+ dq +:+ "
version = " +:+ dq +:+ "0.1.0" +:+ dq +:+ "
description = " +:+ dq +:+ "Created with AnchorFlow" +:+ dq +:+ "
edition = " +:+ dq +:+ "2021" +:+ dq +:+ "

[lib]
crate-type = [" +:+ dq +:+ "cdylib" +:+ dq +:+ ", " +:+ dq +:+ "lib" +:+ dq +:+ "]
name = " +:+ dq +:+ programName +:+ dq +:+ "

[features]
no-entrypoint = []
no-idl = []
no-log-ix-name = []
cpi = [" +:+ dq +:+ "no-entrypoint" +:+ dq +:+ "]
default = []

[dependencies]
anchor-lang = " +:+ dq +:+ "0.29.0" +:+ dq +:+ "
".

Definition generateAnchorToml (programName : string) : string :=
  "[features]
seeds = false
skip-lint = false

[programs.localnet]
" +:+ programName +:+ " = " +:+ dq +:+ "Fg6PaFpoGXkYsidMpWTK6W2BeZ7FEfcYkg476zPFsLnS" +:+ dq +:+ "

[registry]
url = " +:+ dq +:+ "https://api.apr.dev" +:+ dq +:+ "

[provider]
cluster = " +:+ dq +:+ "Localnet" +:+ dq +:+ "
wallet = " +:+ dq +:+ "~/.config/solana/id.json" +:+ dq +:+ "

[scripts]
test = " +:+ dq +:+ "yarn run ts-mocha -p ./tsconfig.json -t 1000000 tests/**/*.ts" +:+ dq +:+ "
".

(** [s.charAt(0)] and [s.slice(1)]; the pass applies them to the program
    name only. *)
Definition charAt0 (s : string) : string :=
  match s with
  | EmptyString => EmptyString
  | String c _ => String c EmptyString
  end.

Definition slice1 (s : string) : string :=
  match s with
  | EmptyString => EmptyString
  | String _ s' => s'
  end.

Section Lowering.
(** The [String.prototype] built-ins the pass calls on node names:
    [toLowerCase()], [toUpperCase()] and [replace(/\s+/g, r)]. *)
Variable toLowerCase : string -> string.
Variable toUpperCase : string -> string.
Variable replaceWhitespace : string -> string -> string.

(** [node.name.toLowerCase().replace(/\s+/g, '_')] *)
Definition functionNameOf (node : CanvasNode.t) : string :=
  replaceWhitespace "_" (toLowerCase (CanvasNode.name node)).

(** [node.name.replace(/\s+/g, '')] *)
Definition structNameOf (node : CanvasNode.t) : string :=
  replaceWhitespace EmptyString (CanvasNode.name node).

Definition generateLibRs (programName : string)
    (instructionNodes accountNodes : list CanvasNode.t)
    (connections : list Connection.t) : string :=
  let instructionImports :=
    String.concat "
" (map (fun node => "pub mod " +:+ (functionNameOf node) +:+ ";") instructionNodes) in
  let instructionHandlers :=
    String.concat "
" (map (fun node =>
            let functionName := functionNameOf node in
            "    pub use " +:+ functionName +:+ "::*;") instructionNodes) in
  let accountStructs :=
    String.concat "
" (map (fun node =>
            let structName := structNameOf node in
            let connectedInstructions := touching connections (CanvasNode.id node) in
            "
#[account]
pub struct " +:+ structName +:+ " {
    pub authority: Pubkey,
    pub data: u64,
    pub bump: u8,
    pub connected_instructions: u8, // " +:+ (pretty connectedInstructions) +:+ " connections
}

impl " +:+ structName +:+ " {
    pub const LEN: usize = 8 + 32 + 8 + 1 + 1;
}") accountNodes) in
  let flowValidation := generateFlowValidation instructionNodes connections in
  "use anchor_lang::prelude::*;

declare_id!(" +:+ dq +:+ "Fg6PaFpoGXkYsidMpWTK6W2BeZ7FEfcYkg476zPFsLnS" +:+ dq +:+ ");

" +:+ instructionImports +:+ "

#[program]
pub mod " +:+ programName +:+ " {
    use super::*;
" +:+ instructionHandlers +:+ "
    
    " +:+ flowValidation +:+ "
}

" +:+ accountStructs +:+ "

#[derive(Accounts)]
pub struct Initialize {}

#[error_code]
pub enum ErrorCode {
    #[msg(" +:+ dq +:+ "Invalid program flow" +:+ dq +:+ ")]
    InvalidProgramFlow,
    #[msg(" +:+ dq +:+ "Missing required connection" +:+ dq +:+ ")]
    MissingConnection,
    #[msg(" +:+ dq +:+ "Unauthorized access" +:+ dq +:+ ")]
    Unauthorized,
}
".

Definition generateInstructionLogic (node : CanvasNode.t)
    (incomingConnections outgoingConnections : list Connection.t)
    (allNodes : list CanvasNode.t) : string :=
  let nodeType := toLowerCase (CanvasNode.type node) in
  if nodeType =? "token" then
    "
    // Token operation logic
    require!(ctx.accounts.authority.key() != Pubkey::default(), ErrorCode::Unauthorized);
    msg!(" +:+ dq +:+ "Processing token operation" +:+ dq +:+ ");"
  else if nodeType =? "nft" then
    "
    // NFT operation logic
    require!(ctx.accounts.authority.key() != Pubkey::default(), ErrorCode::Unauthorized);
    msg!(" +:+ dq +:+ "Processing NFT operation" +:+ dq +:+ ");"
  else if nodeType =? "defi" then
    "
    // DeFi operation logic
    require!(ctx.accounts.authority.key() != Pubkey::default(), ErrorCode::Unauthorized);
    msg!(" +:+ dq +:+ "Processing DeFi operation" +:+ dq +:+ ");"
  else
    "
    // Custom instruction logic
    require!(ctx.accounts.authority.key() != Pubkey::default(), ErrorCode::Unauthorized);
    msg!(" +:+ dq +:+ "Processing custom operation" +:+ dq +:+ ");".

(** [.filter(n => n?.type === 'account')] on the looked-up sources. *)
Definition keepAccounts (l : list (option CanvasNode.t)) : list (option CanvasNode.t) :=
  List.filter (fun n => match n with
                        | Some n' => isAccount n'
                        | None => false
                        end) l.

(** [.filter(n => n?.type !== 'account')]: an unresolved source passes. *)
Definition keepNonAccounts (l : list (option CanvasNode.t)) : list (option CanvasNode.t) :=
  List.filter (fun n => match n with
                        | Some n' => negb (isAccount n')
                        | None => true
                        end) l.

(** [n!.name]: reading a property of [undefined] raises. *)
Definition nameOf (n : option CanvasNode.t) : outcome string :=
  match n with
  | Some n' => Ok (CanvasNode.name n')
  | None => Throw
  end.

Definition structNameOfOpt (n : option CanvasNode.t) : outcome string :=
  match n with
  | Some n' => Ok (structNameOf n')
  | None => Throw
  end.

Definition generateInstruction (node : CanvasNode.t)
    (connections : list Connection.t) (allNodes : list CanvasNode.t)
  : outcome string :=
  let functionName := functionNameOf node in
  let structName := structNameOf node in
  let incomingConnections := incomingOf connections (CanvasNode.id node) in
  let outgoingConnections :=
    List.filter (fun conn => Connection.sourceNodeId conn =? CanvasNode.id node)
                connections in
  let sources :=
    map (fun conn => findNode allNodes (Connection.sourceNodeId conn))
        incomingConnections in
  do connectedAccounts <- mapM structNameOfOpt (keepAccounts sources);
  do connectedInstructions <- mapM nameOf (keepNonAccounts sources);
  let accountFields :=
    if Nat.ltb 0 (length connectedAccounts) then
      String.concat EmptyString
        (map (fun accountName => "
    #[account(mut, constraint = " +:+ (toLowerCase accountName) +:+ ".authority == authority.key())]
    pub " +:+ (toLowerCase accountName) +:+ ": Account<'info, " +:+ accountName +:+ ">,") connectedAccounts)
      +:+ "
    #[account(mut)]
    pub authority: Signer<'info>,
    pub system_program: Program<'info, System>,"
    else "
    #[account(mut)]
    pub authority: Signer<'info>,
    pub system_program: Program<'info, System>," in
  let instructionLogic :=
    generateInstructionLogic node incomingConnections outgoingConnections allNodes in
  let connectedMessage :=
    if Nat.ltb 0 (length connectedInstructions) then
      "msg!(" +:+ dq +:+ "Connected to instructions: " +:+ (String.concat ", " connectedInstructions) +:+ dq +:+ ");"
    else "msg!(" +:+ dq +:+ "Entry point instruction" +:+ dq +:+ ");" in
  let accountUpdates :=
    String.concat EmptyString
      (map (fun accountName => "
    ctx.accounts." +:+ (toLowerCase accountName) +:+ ".data += 1;
    msg!(" +:+ dq +:+ "Updated " +:+ accountName +:+ " data" +:+ dq +:+ ");") connectedAccounts) in
  Ok ("use anchor_lang::prelude::*;
use crate::ErrorCode;

pub fn " +:+ functionName +:+ "(ctx: Context<" +:+ structName +:+ ">) -> Result<()> {
    msg!(" +:+ dq +:+ "Executing " +:+ (CanvasNode.name node) +:+ dq +:+ ");
    
    // Validate incoming connections
    " +:+ connectedMessage +:+ "
    
    " +:+ instructionLogic +:+ "
    
    // Update connected accounts
    " +:+ accountUpdates +:+ "
    
    Ok(())
}

#[derive(Accounts)]
pub struct " +:+ structName +:+ "<'info> {" +:+ accountFields +:+ "
}
").

Definition generateTests (programName : string)
    (instructionNodes : list CanvasNode.t) (connections : list Connection.t)
  : string :=
  let testCases :=
    String.concat "
" (map (fun node =>
            let functionName := functionNameOf node in
            let connectedNodes := touching connections (CanvasNode.id node) in
            "
  it(" +:+ dq +:+ (CanvasNode.name node) +:+ " (" +:+ (pretty connectedNodes) +:+ " connections)" +:+ dq +:+ ", async () => {
    // Test " +:+ (CanvasNode.name node) +:+ " instruction with connection validation
    try {
      const tx = await program.methods." +:+ functionName +:+ "()
        .accounts({
          authority: provider.wallet.publicKey,
          systemProgram: anchor.web3.SystemProgram.programId,
        })
        .rpc();
      
      console.log(" +:+ dq +:+ "✅ " +:+ (CanvasNode.name node) +:+ " transaction signature:" +:+ dq +:+ ", tx);
      
      // Validate program flow
      const flowValidation = await program.methods.validateProgramFlow([" +:+ dq +:+ (CanvasNode.name node) +:+ dq +:+ "])
        .accounts({
          authority: provider.wallet.publicKey,
        })
        .rpc();
      
      console.log(" +:+ dq +:+ "✅ Flow validation signature:" +:+ dq +:+ ", flowValidation);
    } catch (error) {
      console.error(" +:+ dq +:+ "❌ " +:+ (CanvasNode.name node) +:+ " test failed:" +:+ dq +:+ ", error);
      throw error;
    }
  });") instructionNodes) in
  let integrationTests := generateIntegrationTests instructionNodes connections in
  let capitalized := toUpperCase (charAt0 programName) +:+ slice1 programName in
  "import * as anchor from " +:+ dq +:+ "@coral-xyz/anchor" +:+ dq +:+ ";
import { Program } from " +:+ dq +:+ "@coral-xyz/anchor" +:+ dq +:+ ";
import { " +:+ capitalized +:+ " } from " +:+ dq +:+ "../target/types/" +:+ programName +:+ dq +:+ ";
import { expect } from " +:+ dq +:+ "chai" +:+ dq +:+ ";

describe(" +:+ dq +:+ programName +:+ dq +:+ ", () => {
  anchor.setProvider(anchor.AnchorProvider.env());
  const program = anchor.workspace." +:+ capitalized +:+ " as Program<" +:+ capitalized +:+ ">;

  before(async () => {
    console.log(" +:+ dq +:+ "🚀 Starting " +:+ programName +:+ " tests" +:+ dq +:+ ");
    console.log(" +:+ dq +:+ "Program ID:" +:+ dq +:+ ", program.programId.toString());
  });

" +:+ testCases +:+ "

  " +:+ integrationTests +:+ "
});
".

Definition generateAnchorCode (nodes : list CanvasNode.t)
    (connections : list Connection.t) : outcome GeneratedCode.t :=
  let programName := "my_program" in
  let instructionNodes := List.filter (fun node => negb (isAccount node)) nodes in
  let accountNodes := List.filter isAccount nodes in
  do programFlow <- analyzeProgramFlow nodes connections;
  let lib := generateLibRs programName instructionNodes accountNodes connections in
  do instructions <-
    mapM (fun node => generateInstruction node connections nodes) instructionNodes;
  let tests := generateTests programName instructionNodes connections in
  let cargoToml := generateCargoToml programName in
  let anchorToml := generateAnchorToml programName in
  Ok (GeneratedCode.mk lib instructions tests cargoToml anchorToml programFlow).
End Lowering.

(** ** Users of the generated artifact *)

(** [String.prototype.includes]: [search] occurs somewhere in [s]. *)
Fixpoint stringIncludes (s search : string) : bool :=
  String.prefix search s ||
  match s with
  | EmptyString => false
  | String _ s' => stringIncludes s' search
  end.

Module StructureReport.
Record t : Type := mk {
  isValid : bool;
  errors : list string;
  warnings : list string
}.
End StructureReport.

(** [SolanaTestRunner.validateProgramStructure]: the structural checks the
    deployer runs on the program text before compiling it. *)
Definition validateProgramStructure (programCode : string) : StructureReport.t :=
  let errors :=
    (if negb (stringIncludes programCode "use anchor_lang::prelude::*;")
     then ["Missing Anchor framework import"] else [])
    ++ (if negb (stringIncludes programCode "declare_id!")
        then ["Missing program ID declaration"] else [])
    ++ (if negb (stringIncludes programCode "#[program]")
        then ["Missing program module"] else []) in
  let warnings :=
    (if stringIncludes programCode "TODO"
     then ["Code contains TODO comments"] else [])
    ++ (if negb (stringIncludes programCode "msg!")
        then ["No logging statements found"] else []) in
  StructureReport.mk (Nat.eqb (length errors) 0) errors warnings.

(** [name.replace(/\//g, '_')] *)
Fixpoint replaceSlashes (s : string) : string :=
  match s with
  | EmptyString => EmptyString
  | String c s' =>
    String (if Ascii.eqb c "/"%char then "_"%char else c) (replaceSlashes s')
  end.

(** The [files] array of [CodePreview.handleDownloadProject]: name and
    content of every file of the project. *)
Definition projectFiles (code : GeneratedCode.t) : list (string * string) :=
  [("src/lib.rs", GeneratedCode.lib code);
   ("tests/test.ts", GeneratedCode.tests code);
   ("Cargo.toml", GeneratedCode.cargoToml code);
   ("Anchor.toml", GeneratedCode.anchorToml code)]
  ++ imap (fun index instruction =>
             ("src/instructions/instruction_" +:+ pretty (index + 1) +:+ ".rs",
              instruction))
          (GeneratedCode.instructions code).

(** The names under which the files are downloaded: [a.download]. *)
Definition downloadNames (code : GeneratedCode.t) : list string :=
  map (fun file => replaceSlashes (fst file)) (projectFiles code).

Section Callers.
Variable toLowerCase : string -> string.
Variable replaceWhitespace : string -> string -> string.

(** [Canvas.getInstructionNames]: the instruction names handed to the test
    panel. *)
Definition getInstructionNames (nodes : list CanvasNode.t) : list string :=
  map (fun node => replaceWhitespace "_" (toLowerCase (CanvasNode.name node)))
      (List.filter (fun node => negb (isAccount node)) nodes).

End Callers.

(* ================================================================= *)
(** * Notions used to state the properties *)

(** The directed conversion table of the specification, written as a decision
    on the pair of types. *)
Definition conversion_spec (sourceType targetType : string) : bool :=
  ((sourceType =? "number") && ((targetType =? "string") || (targetType =? "boolean")))
  || ((sourceType =? "string") && (targetType =? "number"))
  || ((sourceType =? "data") && (targetType =? "any"))
  || ((sourceType =? "control") && (targetType =? "event"))
  || ((sourceType =? "event") && (targetType =? "control")).

(** Wildcard, equality, or a table entry. *)
Definition compatible_spec (sourceType targetType : string) : bool :=
  (sourceType =? "any") || (targetType =? "any") || (sourceType =? targetType)
  || conversion_spec sourceType targetType.

(** The type check returns [true]. *)
Definition compatible (sourceType targetType : string) : bool :=
  match areTypesCompatible sourceType targetType with
  | Ok b => b
  | _ => false
  end.

(** The four rejection rules of the validator, as one decision. *)
Definition passesRules (sourceNode : CanvasNode.t) (sourcePort : Port.t)
    (targetNode : CanvasNode.t) (targetPort : Port.t)
    (existingConnections : list Connection.t) : bool :=
  negb (CanvasNode.id sourceNode =? CanvasNode.id targetNode)
  && compatible (Port.type sourcePort) (Port.type targetPort)
  && negb (existsb (sameEndpoints sourceNode sourcePort targetNode targetPort)
                   existingConnections)
  && negb (existsb (sameTarget targetNode targetPort) existingConnections).

(** A port is owned by a node as one of its outputs, resp. inputs. *)
Definition ownsOutput (node : CanvasNode.t) (port : Port.t) : Prop :=
  In port (CanvasNode.outputs node).

Definition ownsInput (node : CanvasNode.t) (port : Port.t) : Prop :=
  In port (CanvasNode.inputs node).

(** [s -> t] is a connection of the graph. *)
Definition edge (connections : list Connection.t) (s t : string) : Prop :=
  exists c, In c connections /\
            Connection.sourceNodeId c = s /\ Connection.targetNodeId c = t.

(** No node reaches itself along one or more connections. *)
Definition acyclic (connections : list Connection.t) : Prop :=
  forall x, ~ tc (edge connections) x x.

(** Every connection starts, resp. ends, at a node of the snapshot. *)
Definition sourcesResolve (nodes : list CanvasNode.t)
    (connections : list Connection.t) : Prop :=
  forall c, In c connections ->
            In (Connection.sourceNodeId c) (map CanvasNode.id nodes).

Definition targetsResolve (nodes : list CanvasNode.t)
    (connections : list Connection.t) : Prop :=
  forall c, In c connections ->
            In (Connection.targetNodeId c) (map CanvasNode.id nodes).

(** Every connection that ends at a node of the snapshot also starts at
    one. *)
Definition danglingFree (nodes : list CanvasNode.t)
    (connections : list Connection.t) : Prop :=
  forall c, In c connections ->
            In (Connection.targetNodeId c) (map CanvasNode.id nodes) ->
            In (Connection.sourceNodeId c) (map CanvasNode.id nodes).

(** Every connection ends at a node of the snapshot or at an id that names
    no built-in property. *)
Definition targetsPlain (nodes : list CanvasNode.t)
    (connections : list Connection.t) : Prop :=
  forall c, In c connections ->
            In (Connection.targetNodeId c) (map CanvasNode.id nodes) \/
            JsObject.builtinKey (Connection.targetNodeId c) = false.

(** [s] occurs in [l] strictly before an occurrence of [t]. *)
Definition appearsBefore (s t : string) (l : list string) : Prop :=
  exists l1 l2 l3, l = l1 ++ s :: l2 ++ t :: l3.

(** An execution order of node ids, restricted to the behavioral
    (non-account) nodes and mapped to their names. *)
Definition behavioralNames (nodes : list CanvasNode.t) (order : list string)
  : list string :=
  flat_map (fun nodeId =>
              match findNode nodes nodeId with
              | Some node => if isAccount node then [] else [CanvasNode.name node]
              | None => []
              end) order.

(** No connection ends at an account node. *)
Definition noAccountTarget (nodes : list CanvasNode.t)
    (connections : list Connection.t) : Prop :=
  forall c node, In c connections ->
                 findNode nodes (Connection.targetNodeId c) = Some node ->
                 isAccount node = false.

(** ** Outcome predicates *)

(** [post Q T F m]: [m] satisfies [Q] when it returns, [T] when it raises and
    [F] when it exhausts its budget. *)
Definition post {A : Type} (Q : A -> Prop) (T F : Prop) (m : outcome A) : Prop :=
  match m with
  | Ok a => Q a
  | Throw => T
  | OutOfFuel => F
  end.

(** Every listed dependency reads as an array. *)
Definition closed (deps : JsObject.t) : Prop :=
  forall k ds d, deps !! k = Some ds -> In d ds -> is_Some (deps !! d).

(** Well-formed states of [topologicalSort]. *)
Record topo_wf (deps : JsObject.t) (st : Topo.state) : Prop := {
  wf_visiting : Topo.visiting st ⊆ dom deps;
  wf_visited : forall x, x ∈ Topo.visited st <-> In x (Topo.result st);
  wf_nodup : NoDup (Topo.result st);
  wf_disjoint : Topo.visited st ## Topo.visiting st;
  wf_result_dom : forall x, In x (Topo.result st) -> x ∈ dom deps
}.

(** Every element of [l] comes after all its dependencies. *)
Definition ordered (deps : JsObject.t) (l : list string) : Prop :=
  forall l1 v l2 ds d,
    l = l1 ++ v :: l2 -> deps !! v = Some ds -> In d ds -> In d l1.

(** What a call [visit(nodeId)] of [topologicalSort] establishes. *)
Definition topo_visited (deps : JsObject.t) (nodeId : string)
    (st st' : Topo.state) : Prop :=
  topo_wf deps st' /\
  Topo.visiting st' = Topo.visiting st /\
  (nodeId ∈ Topo.visiting st \/ In nodeId (Topo.result st')) /\
  exists l, Topo.result st' = Topo.result st ++ l.

(** The states of the two ordering traversals agree: same marks, and the
    lowering pass has pushed the names of the behavioral nodes settled by
    the analyzer. *)
Definition flow_rel (nodes : list CanvasNode.t) (sa : Topo.state) (sg : Flow.state)
  : Prop :=
  Flow.visited sg = Topo.visited sa /\
  Flow.visiting sg = Topo.visiting sa /\
  Flow.executionOrder sg = behavioralNames nodes (Topo.result sa).

(** Every dependency of a settled node is settled or being visited. *)
Definition deps_settled (deps : JsObject.t) (st : Topo.state) : Prop :=
  forall v ds d,
    v ∈ Topo.visited st -> deps !! v = Some ds -> In d ds ->
    d ∈ Topo.visited st \/ d ∈ Topo.visiting st.

(** ** Sample snapshots *)

Module Sample.

(** A node without ports whose name is its id. *)
Definition node (nodeId type : string) : CanvasNode.t :=
  CanvasNode.mk nodeId type nodeId [] [].

(** A connection between two nodes, on ports [out] and [in]. *)
Definition conn (source target : string) : Connection.t :=
  Connection.mk (source +:+ "-" +:+ target) source target "out" "in".

(** [Y -> A -> X], listed as [X; A; Y]; [A] is an account node. *)
Definition chainNodes : list CanvasNode.t :=
  [node "X" "token"; node "A" "account"; node "Y" "token"].

Definition chainConnections : list Connection.t :=
  [conn "Y" "A"; conn "A" "X"].

Definition chainRank (nodeId : string) : nat :=
  if nodeId =? "Y" then 0 else if nodeId =? "A" then 1 else 2.

(** An account feeding a first instruction that feeds a second one. *)
Definition vaultNodes : list CanvasNode.t :=
  [node "Withdraw" "defi"; node "Vault" "account"; node "Deposit" "token"].

Definition vaultConnections : list Connection.t :=
  [conn "Vault" "Deposit"; conn "Deposit" "Withdraw"].

Definition vaultRank (nodeId : string) : nat :=
  if nodeId =? "Vault" then 0 else if nodeId =? "Deposit" then 1 else 2.

(** [Y -> X], listed as [X; Y]. *)
Definition pairNodes : list CanvasNode.t := [node "X" "token"; node "Y" "token"].

Definition pairConnections : list Connection.t := [conn "Y" "X"].

(** A connection into [B] from a node [A] that is not in the snapshot. *)
Definition danglingNodes : list CanvasNode.t := [node "B" "token"].

Definition danglingConnections : list Connection.t := [conn "A" "B"].

(** The built-ins on ASCII text, to run the lowering pass on the samples. *)
Definition lowerChar (c : ascii) : ascii :=
  let n := nat_of_ascii c in
  if Nat.leb 65 n && Nat.leb n 90 then ascii_of_nat (n + 32) else c.

Definition upperChar (c : ascii) : ascii :=
  let n := nat_of_ascii c in
  if Nat.leb 97 n && Nat.leb n 122 then ascii_of_nat (n - 32) else c.

Fixpoint mapChars (f : ascii -> ascii) (s : string) : string :=
  match s with
  | EmptyString => EmptyString
  | String c s' => String (f c) (mapChars f s')
  end.

Definition toLowerCase : string -> string := mapChars lowerChar.
Definition toUpperCase : string -> string := mapChars upperChar.

Definition isSpace (c : ascii) : bool :=
  let n := nat_of_ascii c in
  Nat.eqb n 32 || (Nat.leb 9 n && Nat.leb n 13).

Fixpoint replaceRuns (inRun : bool) (r s : string) : string :=
  match s with
  | EmptyString => EmptyString
  | String c s' =>
    if isSpace c then
      if inRun then replaceRuns true r s' else r +:+ replaceRuns true r s'
    else String c (replaceRuns false r s')
  end.

Definition replaceWhitespace : string -> string -> string := replaceRuns false.

Definition generate : list CanvasNode.t -> list Connection.t -> outcome GeneratedCode.t :=
  generateAnchorCode toLowerCase toUpperCase replaceWhitespace.

End Sample.

(** ** Notions used to state further properties *)

(** The connection [c] is the edge proposed to the validator. *)
Definition describes (sourceNode : CanvasNode.t) (sourcePort : Port.t)
    (targetNode : CanvasNode.t) (targetPort : Port.t) (c : Connection.t) : Prop :=
  Connection.sourceNodeId c = CanvasNode.id sourceNode /\
  Connection.sourcePortId c = Port.id sourcePort /\
  Connection.targetNodeId c = CanvasNode.id targetNode /\
  Connection.targetPortId c = Port.id targetPort.

(** The input port a connection ends at. *)
Definition targetEnd (c : Connection.t) : string * string :=
  (Connection.targetNodeId c, Connection.targetPortId c).

(** No input port is the target of two connections. *)
Definition fanInAtMostOne (connections : list Connection.t) : Prop :=
  NoDup (map targetEnd connections).

(** No connection joins a node to itself. *)
Definition noSelfLoop (connections : list Connection.t) : Prop :=
  forall c, In c connections ->
            Connection.sourceNodeId c <> Connection.targetNodeId c.

(** Some connection starts or ends at [nodeId]. *)
Definition touched (connections : list Connection.t) (nodeId : string) : Prop :=
  exists c, In c connections /\
            (Connection.sourceNodeId c = nodeId \/ Connection.targetNodeId c = nodeId).

(** The connections that end at a node of the snapshot: the only ones
    [analyzeFlow] records. *)
Definition liveConnections (nodes : list CanvasNode.t)
    (connections : list Connection.t) : list Connection.t :=
  List.filter (fun c => bool_decide (Connection.targetNodeId c ∈ map CanvasNode.id nodes))
              connections.

(** Each element of [l] is followed by one of its dependencies: there is a
    connection from the next element into it. *)
Fixpoint dependencyChain (connections : list Connection.t) (l : list string) : Prop :=
  match l with
  | a :: (b :: _) as l' => edge connections b a /\ dependencyChain connections l'
  | _ => True
  end.

(** [cyc] is a cycle of the graph: a non-empty dependency chain whose last
    element depends on the first. *)
Definition genuineCycle (connections : list Connection.t) (cyc : list string) : Prop :=
  exists v rest,
    cyc = v :: rest /\
    dependencyChain connections cyc /\
    edge connections v (List.last cyc v).

(** [b] is listed as a dependency of [a]. *)
Definition linked (deps : JsObject.t) (a b : string) : Prop :=
  exists ds, deps !! a = Some ds /\ In b ds.

(** Each element of [l] lists the next one as a dependency. *)
Fixpoint linkedChain (deps : JsObject.t) (l : list string) : Prop :=
  match l with
  | a :: (b :: _) as l' => linked deps a b /\ linkedChain deps l'
  | _ => True
  end.

(** A non-empty chain whose last element lists the first as a dependency. *)
Definition linkedCycle (deps : JsObject.t) (cyc : list string) : Prop :=
  exists v rest,
    cyc = v :: rest /\ linkedChain deps cyc /\ linked deps (List.last cyc v) v.

(** The settled nodes of [detectCycles], listed after their dependencies. *)
Definition settledOrder (deps : JsObject.t) (st : Cyc.state)
    (l : list string) : Prop :=
  (forall x, x ∈ Cyc.visited st <-> In x l) /\ ordered deps l.

(** The dependencies the lowering pass follows from [nodeId]: the sources of
    the connections into a behavioral node, nothing for an account node or
    an id that is not a node. *)
Definition flowDepsOf (nodes : list CanvasNode.t) (connections : list Connection.t)
    (nodeId : string) : list string :=
  match findNode nodes nodeId with
  | Some node =>
    if isAccount node then []
    else map Connection.sourceNodeId (incomingOf connections nodeId)
  | None => []
  end.

(** The dependency object the lowering pass implicitly works on: the
    object obtained by assigning, to every node id and every source id of a
    connection, the dependencies followed from it. *)
Definition flowDependencies (nodes : list CanvasNode.t)
    (connections : list Connection.t) : JsObject.t :=
  foldr (fun k o => JsObject.set o k (flowDepsOf nodes connections k))
        JsObject.empty
        (map CanvasNode.id nodes ++ map Connection.sourceNodeId connections).

(** A connection into a behavioral node of the snapshot from an id that is
    not a node. *)
Definition danglingIntoBehavioral (nodes : list CanvasNode.t)
    (connections : list Connection.t) : Prop :=
  exists node c,
    In node nodes /\ isAccount node = false /\
    In c connections /\
    Connection.targetNodeId c = CanvasNode.id node /\
    ~ In (Connection.sourceNodeId c) (map CanvasNode.id nodes).

(** The names of the behavioral nodes, in the order of the snapshot. *)
Definition behavioralNodeNames (nodes : list CanvasNode.t) : list string :=
  map CanvasNode.name (List.filter (fun node => negb (isAccount node)) nodes).

(** The record declared for an account node: its name, the fixed fields,
    and the number of connections that touch the node. *)
Definition accountRecord (structName : string) (count : nat) : string :=
  "
#[account]
pub struct " +:+ structName +:+ " {
    pub authority: Pubkey,
    pub data: u64,
    pub bump: u8,
    pub connected_instructions: u8, // " +:+ pretty count +:+ " connections
}".

(** The head of the test case emitted for a behavioral node: its title
    gives the name of the node and the number of connections that touch
    it. *)
Definition testCaseHead (name : string) (count : nat) : string :=
  "
  it(" +:+ dq +:+ name +:+ " (" +:+ pretty count +:+ " connections)" +:+ dq.

(** A connection on which the analyzer raises when no node is called
    ['__proto__']: it ends outside the snapshot at the name of a property
    of [Object.prototype], or it enters a node of the snapshot from an id
    that is not a node. *)
Definition offending (nodes : list CanvasNode.t) (c : Connection.t) : Prop :=
  (~ In (Connection.targetNodeId c) (map CanvasNode.id nodes) /\
   In (Connection.targetNodeId c) JsObject.objectPrototypeKeys) \/
  (In (Connection.targetNodeId c) (map CanvasNode.id nodes) /\
   ~ In (Connection.sourceNodeId c) (map CanvasNode.id nodes)).
(* ================================================================= *)
(** * Reading and writing plain objects *)

Lemma obj_lookup_get (o : JsObject.t) (k : string) (l : list string) :
  o !! k = Some l <-> JsObject.get o k = JsObject.Array l.
Proof.
  unfold lookup, jsobject_lookup.
  destruct (JsObject.get o k); split; intros H; congruence.
Qed.

Lemma obj_lookup_None (o : JsObject.t) (k : string) :
  o !! k = None <->
  JsObject.get o k = JsObject.Truthy \/ JsObject.get o k = JsObject.Falsy.
Proof.
  unfold lookup, jsobject_lookup.
  destruct (JsObject.get o k); split; intros H; auto; try discriminate.
  destruct H; discriminate.
Qed.

Lemma truthy_not_array (b : bool) (l : list string) :
  JsObject.truthy b <> JsObject.Array l.
Proof. destruct b; discriminate. Qed.

Lemma objectProperty_not_array (k : string) (l : list string) :
  JsObject.objectProperty k <> JsObject.Array l.
Proof. apply truthy_not_array. Qed.

Lemma arrayProperty_not_array (a : list string) (k : string) (l : list string) :
  JsObject.arrayProperty a k <> JsObject.Array l.
Proof.
  unfold JsObject.arrayProperty.
  destruct (k =? "length"); [apply truthy_not_array|].
  destruct (JsObject.elementAt a k); [apply truthy_not_array|].
  destruct (includes k JsObject.arrayPrototypeKeys);
    [discriminate | apply objectProperty_not_array].
Qed.

(** The keys under which an array is read: the own keys, and ['__proto__']
    when the prototype was replaced. *)
Lemma obj_lookup_cases (o : JsObject.t) (k : string) :
  o !! k
  = match JsObject.own o !! k with
    | Some l => Some l
    | None => if k =? "__proto__" then JsObject.proto o else None
    end.
Proof.
  unfold lookup at 1, jsobject_lookup, JsObject.get.
  destruct (JsObject.own o !! k) as [l|]; [reflexivity|].
  destruct (JsObject.proto o) as [a|].
  - destruct (k =? "__proto__"); [reflexivity|].
    pose proof (arrayProperty_not_array a k) as H.
    destruct (JsObject.arrayProperty a k); [exfalso; eapply H; reflexivity|..];
      reflexivity.
  - pose proof (objectProperty_not_array k) as H.
    destruct (JsObject.objectProperty k); [exfalso; eapply H; reflexivity|..];
      destruct (k =? "__proto__"); reflexivity.
Qed.

Lemma obj_elem_of_dom (o : JsObject.t) (k : string) :
  k ∈ dom o <-> is_Some (o !! k).
Proof.
  rewrite obj_lookup_cases. unfold dom, jsobject_dom.
  rewrite elem_of_union, elem_of_dom.
  destruct (JsObject.own o !! k) as [l|] eqn:Eown.
  - split; eauto.
  - destruct (k =? "__proto__") eqn:Ek.
    + apply String.eqb_eq in Ek. subst k.
      destruct (JsObject.proto o) as [a|].
      * split; [eauto|]. intros _. right. apply elem_of_singleton. reflexivity.
      * split; [|intros [? H]; discriminate].
        intros [[? H]|H]; [discriminate|]. apply elem_of_empty in H. contradiction.
    + apply String.eqb_neq in Ek.
      split; [|intros [? H]; discriminate].
      intros [[? H]|H]; [discriminate|].
      destruct (JsObject.proto o).
      * apply elem_of_singleton in H. contradiction.
      * apply elem_of_empty in H. contradiction.
Qed.

Lemma obj_lookup_empty (k : string) : JsObject.empty !! k = None.
Proof.
  rewrite obj_lookup_cases. simpl. rewrite lookup_empty.
  destruct (k =? "__proto__"); reflexivity.
Qed.

Lemma obj_lookup_set (o : JsObject.t) (k k' : string) (v : list string) :
  JsObject.set o k v !! k' = if decide (k = k') then Some v else o !! k'.
Proof.
  rewrite !obj_lookup_cases. unfold JsObject.set.
  destruct (k =? "__proto__") eqn:Ek; simpl andb.
  - apply String.eqb_eq in Ek. subst k.
    case_bool_decide as Hown; simpl.
    + destruct (decide ("__proto__" = k')) as [<-|Hne].
      * rewrite Hown. reflexivity.
      * apply String.eqb_neq in Hne. rewrite String.eqb_sym in Hne.
        rewrite Hne. reflexivity.
    + rewrite lookup_insert. destruct (decide ("__proto__" = k')); reflexivity.
  - simpl. rewrite lookup_insert. destruct (decide (k = k')); reflexivity.
Qed.

Lemma obj_lookup_push (o : JsObject.t) (k k' x : string) (l : list string) :
  o !! k = Some l ->
  JsObject.push o k x !! k' = if decide (k = k') then Some (l ++ [x]) else o !! k'.
Proof.
  rewrite !obj_lookup_cases. unfold JsObject.push.
  destruct (JsObject.own o !! k) as [l0|] eqn:Eown.
  - intros [= ->]. simpl. rewrite lookup_insert.
    destruct (decide (k = k')); reflexivity.
  - destruct (k =? "__proto__") eqn:Ek; [|discriminate].
    intros Hproto. rewrite Hproto. simpl.
    apply String.eqb_eq in Ek. subst k.
    destruct (decide ("__proto__" = k')) as [<-|Hne].
    + rewrite Eown. reflexivity.
    + apply String.eqb_neq in Hne. rewrite String.eqb_sym in Hne.
      rewrite Hne. destruct (JsObject.own o !! k'); reflexivity.
Qed.

(** Outside the keys that hold arrays, an inherited property of
    [Object.prototype] is found whatever the prototype is. *)
Lemma obj_get_inherited (o : JsObject.t) (k : string) :
  In k JsObject.objectPrototypeKeys ->
  o !! k = None ->
  JsObject.get o k = JsObject.Truthy.
Proof.
  intros Hin Hnone. rewrite obj_lookup_cases in Hnone.
  unfold JsObject.get.
  destruct (JsObject.own o !! k) as [l|]; [discriminate|].
  destruct (JsObject.proto o) as [a|].
  - destruct (k =? "__proto__"); [discriminate|].
    unfold JsObject.arrayProperty, JsObject.elementAt.
    repeat (destruct Hin as [<-|Hin]; [reflexivity|]). destruct Hin.
  - unfold JsObject.objectProperty.
    repeat (destruct Hin as [<-|Hin]; [reflexivity|]). destruct Hin.
Qed.

(** A key that names no built-in property reads as [undefined] unless it
    holds an array. *)
Lemma obj_get_plain (o : JsObject.t) (k : string) :
  JsObject.builtinKey k = false ->
  o !! k = None ->
  JsObject.get o k = JsObject.Falsy.
Proof.
  unfold JsObject.builtinKey. rewrite !orb_false_iff.
  intros [[Hobj Harr] Hidx] Hnone. rewrite obj_lookup_cases in Hnone.
  apply bool_decide_eq_false in Hidx.
  unfold JsObject.get.
  destruct (JsObject.own o !! k) as [l|]; [discriminate|].
  unfold JsObject.objectProperty. rewrite Hobj.
  destruct (JsObject.proto o) as [a|]; [|reflexivity].
  destruct (k =? "__proto__"); [discriminate|].
  unfold JsObject.arrayProperty, JsObject.elementAt.
  destruct (k =? "length") eqn:Elen.
  { apply String.eqb_eq in Elen. subst k. discriminate Harr. }
  destruct (JsObject.arrayIndex k) as [i|]; [exfalso; apply Hidx; eauto|].
  rewrite Harr. unfold JsObject.objectProperty. rewrite Hobj. reflexivity.
Qed.

(** With [Object.prototype] as prototype, a key that is not one of its
    property names reads as [undefined] unless it is an own key. *)
Lemma obj_get_object (o : JsObject.t) (k : string) :
  JsObject.proto o = None ->
  ~ In k JsObject.objectPrototypeKeys ->
  o !! k = None ->
  JsObject.get o k = JsObject.Falsy.
Proof.
  intros Hproto Hkey Hnone. rewrite obj_lookup_cases in Hnone.
  unfold JsObject.get. rewrite Hproto.
  destruct (JsObject.own o !! k) as [l|]; [discriminate|].
  unfold JsObject.objectProperty.
  destruct (includes k JsObject.objectPrototypeKeys) eqn:E; [|reflexivity].
  exfalso. apply Hkey. apply existsb_exists in E as (k' & Hk' & E).
  apply String.eqb_eq in E. subst k'. exact Hk'.
Qed.

Lemma obj_set_proto (o : JsObject.t) (k : string) (v : list string) :
  k <> "__proto__" ->
  JsObject.proto (JsObject.set o k v) = JsObject.proto o.
Proof.
  intros Hk. unfold JsObject.set. apply String.eqb_neq in Hk. rewrite Hk.
  reflexivity.
Qed.

Lemma obj_push_proto (o : JsObject.t) (k x : string) :
  JsObject.proto o = None ->
  JsObject.proto (JsObject.push o k x) = None.
Proof.
  intros Hproto. unfold JsObject.push.
  destruct (JsObject.own o !! k); [exact Hproto|].
  rewrite Hproto. exact Hproto.
Qed.

(** The own keys after an assignment and after a [push]. *)
Lemma obj_set_own (o : JsObject.t) (k : string) (v : list string) :
  "__proto__" ∉ dom (JsObject.own o) ->
  dom (JsObject.own (JsObject.set o k v))
  = ({[k]} ∪ dom (JsObject.own o)) ∖ {["__proto__"]}.
Proof.
  intros Hinv. unfold JsObject.set.
  destruct (k =? "__proto__") eqn:Ek; simpl andb.
  - apply String.eqb_eq in Ek. subst k.
    rewrite bool_decide_eq_true_2 by (apply not_elem_of_dom, Hinv).
    simpl. set_solver.
  - apply String.eqb_neq in Ek. simpl. rewrite dom_insert_L. set_solver.
Qed.

Lemma obj_push_own (o : JsObject.t) (k x : string) :
  dom (JsObject.own (JsObject.push o k x)) = dom (JsObject.own o).
Proof.
  unfold JsObject.push.
  destruct (JsObject.own o !! k) as [l|] eqn:E.
  - simpl. rewrite dom_insert_L.
    assert (k ∈ dom (JsObject.own o)) by (apply elem_of_dom; eauto). set_solver.
  - destruct (JsObject.proto o); [destruct (k =? "__proto__")|]; reflexivity.
Qed.
(* ================================================================= *)
(** * Properties of the validator *)

Lemma compatibilityMap_get (s t : string) :
  match JsObject.get compatibilityMap s with
  | JsObject.Array l => Ok (includes t l)
  | JsObject.Truthy => Throw
  | JsObject.Falsy => Ok false
  end
  = if includes s JsObject.objectPrototypeKeys then Throw
    else Ok (conversion_spec s t).
Proof.
  unfold JsObject.get, compatibilityMap, conversion_spec. simpl JsObject.own.
  simpl JsObject.proto.
  repeat (rewrite lookup_insert; case_decide;
          [ subst s; simpl;
            repeat match goal with
                   | |- context [t =? ?k] => destruct (t =? k)
                   end; reflexivity | ]).
  rewrite lookup_empty.
  repeat match goal with
         | H : ?k <> s |- _ =>
           let Hf := fresh in
           assert (Hf : (s =? k) = false)
             by (apply String.eqb_neq; congruence);
           rewrite Hf; clear H Hf
         end.
  unfold JsObject.objectProperty.
  destruct (includes s JsObject.objectPrototypeKeys); reflexivity.
Qed.

(** The type check on every pair of types: the wildcard and equality come
    first; otherwise a source type that names a property of
    [Object.prototype] makes the call raise, and any other source type is
    looked up in the table. *)
Lemma areTypesCompatible_spec (s t : string) :
  areTypesCompatible s t
  = if (s =? "any") || (t =? "any") || (s =? t) then Ok true
    else if includes s JsObject.objectPrototypeKeys then Throw
    else Ok (conversion_spec s t).
Proof.
  unfold areTypesCompatible.
  destruct ((s =? "any") || (t =? "any")); [reflexivity|].
  destruct (s =? t); [reflexivity|].
  simpl. apply compatibilityMap_get.
Qed.

(** Outside the inherited names the type check is the specification's
    table. *)
Lemma areTypesCompatible_plain (s t : string) :
  includes s JsObject.objectPrototypeKeys = false ->
  areTypesCompatible s t = Ok (compatible_spec s t).
Proof.
  intros Hs. rewrite areTypesCompatible_spec, Hs. unfold compatible_spec.
  destruct ((s =? "any") || (t =? "any") || (s =? t)); reflexivity.
Qed.

Lemma find_existsb {A : Type} (p : A -> bool) (l : list A) :
  existsb p l = match find p l with Some _ => true | None => false end.
Proof.
  induction l as [|a l IH]; simpl; [reflexivity|].
  destruct (p a); [reflexivity | exact IH].
Qed.

(** C5.  The type check raises where the claim says it answers [false]: for
    a source type that names a property of [Object.prototype], and a target
    type that is neither ["any"] nor the source type, the value read from
    the table object is inherited, not nullish, and has no [includes].  The
    listed pairs hold, and for every other source type the check agrees
    with the specification's table. *)
Theorem areTypesCompatible_throws_on_inherited_source :
  areTypesCompatible "constructor" "number" = Throw /\
  (forall s t, In s JsObject.objectPrototypeKeys -> t <> "any" -> s <> t ->
               areTypesCompatible s t = Throw) /\
  (forall s t, ~ In s JsObject.objectPrototypeKeys ->
               areTypesCompatible s t = Ok (compatible_spec s t)) /\
  (forall X, areTypesCompatible "any" X = Ok true) /\
  (forall X, areTypesCompatible X "any" = Ok true) /\
  (forall X, areTypesCompatible X X = Ok true) /\
  areTypesCompatible "number" "string" = Ok true /\
  areTypesCompatible "number" "boolean" = Ok true /\
  areTypesCompatible "string" "number" = Ok true /\
  areTypesCompatible "string" "boolean" = Ok false /\
  areTypesCompatible "control" "event" = Ok true /\
  areTypesCompatible "event" "control" = Ok true.
Proof.
  split; [reflexivity|].
  split.
  { intros s t Hs Ht Hst. rewrite areTypesCompatible_spec.
    apply String.eqb_neq in Ht, Hst. rewrite Ht, Hst, !orb_false_r.
    assert ((s =? "any") = false) as ->.
    { repeat (destruct Hs as [<-|Hs]; [reflexivity|]). destruct Hs. }
    assert (includes s JsObject.objectPrototypeKeys = true) as ->; [|reflexivity].
    apply existsb_exists. exists s. split; [exact Hs | apply String.eqb_refl]. }
  split.
  { intros s t Hs. apply areTypesCompatible_plain.
    destruct (includes s JsObject.objectPrototypeKeys) eqn:E; [|reflexivity].
    exfalso. apply Hs. apply existsb_exists in E as (k & Hk & E).
    apply String.eqb_eq in E. subst k. exact Hk. }
  split; [intros X; reflexivity|].
  split.
  { intros X. unfold areTypesCompatible. rewrite orb_true_r. reflexivity. }
  split.
  { intros X. unfold areTypesCompatible. rewrite String.eqb_refl.
    destruct ((X =? "any") || (X =? "any")); reflexivity. }
  repeat (split; [reflexivity|]). reflexivity.
Qed.

(** C8.  A proposal between a node and itself is rejected with the
    self-connection reason, whatever the ports and the existing
    connections: the rule is the first one tried. *)
Theorem validateConnection_self
    (sourceNode : CanvasNode.t) (sourcePort : Port.t)
    (targetNode : CanvasNode.t) (targetPort : Port.t)
    (existingConnections : list Connection.t) :
  CanvasNode.id sourceNode = CanvasNode.id targetNode ->
  validateConnection sourceNode sourcePort targetNode targetPort existingConnections
  = Ok {| isValid := false; error := Some "Cannot connect node to itself" |}.
Proof.
  intros Hid. unfold validateConnection.
  rewrite Hid, String.eqb_refl. reflexivity.
Qed.

(** C7.  A proposal that passes the self-connection, type and duplicate
    rules is rejected with the fan-in reason as soon as an existing
    connection ends at the same target node and port. *)
Theorem validateConnection_fan_in
    (sourceNode : CanvasNode.t) (sourcePort : Port.t)
    (targetNode : CanvasNode.t) (targetPort : Port.t)
    (existingConnections : list Connection.t) :
  CanvasNode.id sourceNode <> CanvasNode.id targetNode ->
  areTypesCompatible (Port.type sourcePort) (Port.type targetPort) = Ok true ->
  (forall c, In c existingConnections ->
             sameEndpoints sourceNode sourcePort targetNode targetPort c = false) ->
  (exists c, In c existingConnections /\
             Connection.targetNodeId c = CanvasNode.id targetNode /\
             Connection.targetPortId c = Port.id targetPort) ->
  validateConnection sourceNode sourcePort targetNode targetPort existingConnections
  = Ok {| isValid := false; error := Some "Port already has an input connection" |}.
Proof.
  intros Hid Hty Hdup (c & Hc & Hn & Hp). unfold validateConnection.
  apply String.eqb_neq in Hid. rewrite Hid, Hty. simpl.
  destruct (List.find (sameEndpoints _ _ _ _) existingConnections) as [d|] eqn:Ed.
  - apply find_some in Ed. destruct Ed as [Hin Hd].
    rewrite (Hdup d Hin) in Hd. discriminate.
  - destruct (List.find (sameTarget _ _) existingConnections) as [d|] eqn:Et;
      [reflexivity|].
    pose proof (find_none _ _ Et c Hc) as Hf.
    unfold sameTarget in Hf. rewrite Hn, Hp, !String.eqb_refl in Hf. discriminate.
Qed.

(** The verdict of a returning call is decided by the four rules alone, and
    a proposal that passes them is answered. *)
Lemma validateConnection_isValid
    (sourceNode : CanvasNode.t) (sourcePort : Port.t)
    (targetNode : CanvasNode.t) (targetPort : Port.t)
    (existingConnections : list Connection.t) :
  (forall r, validateConnection sourceNode sourcePort targetNode targetPort
                                existingConnections = Ok r ->
             isValid r
             = passesRules sourceNode sourcePort targetNode targetPort
                           existingConnections) /\
  (passesRules sourceNode sourcePort targetNode targetPort existingConnections
   = true ->
   validateConnection sourceNode sourcePort targetNode targetPort
                      existingConnections
   = Ok {| isValid := true; error := None |}).
Proof.
  unfold validateConnection, passesRules, compatible. rewrite !find_existsb.
  destruct (CanvasNode.id sourceNode =? CanvasNode.id targetNode).
  { split; [intros r [= <-]; reflexivity | discriminate]. }
  destruct (areTypesCompatible _ _) as [[|]| |]; simpl;
    try (split; [intros r H; try discriminate; injection H as <-; reflexivity
                | discriminate]).
  destruct (List.find (sameEndpoints _ _ _ _) _);
    [split; [intros r [= <-]; reflexivity | discriminate]|].
  destruct (List.find (sameTarget _ _) _);
    [split; [intros r [= <-]; reflexivity | discriminate]|].
  split; [intros r [= <-]; reflexivity | reflexivity].
Qed.

(** Ownership of the ports is not a condition of validity: a proposal whose
    ports belong to neither node is accepted. *)
Lemma validateConnection_accepts_foreign_ports :
  ~ (forall sourceNode sourcePort targetNode targetPort existingConnections,
        ~ ownsOutput sourceNode sourcePort \/ ~ ownsInput targetNode targetPort ->
        exists r,
          validateConnection sourceNode sourcePort targetNode targetPort
                             existingConnections = Ok r /\
          isValid r = false).
Proof.
  intros H.
  destruct (H (CanvasNode.mk "A" "token" "A" [] [])
              (Port.mk "p" "out" "number")
              (CanvasNode.mk "B" "token" "B" [] [])
              (Port.mk "q" "in" "number") []) as (r & Hr & Hv).
  - left. intros Hin. exact Hin.
  - vm_compute in Hr. injection Hr as <-. discriminate Hv.
Qed.

(** C4, as amended.  The validator never looks at the port lists of the two
    nodes: whether or not the ports are owned by the nodes, the proposal is
    accepted exactly when it passes the self-connection, type, duplicate and
    fan-in rules, and the whole result is unchanged when the port lists of
    both nodes are replaced. *)
Theorem validateConnection_rules
    (sourceNode : CanvasNode.t) (sourcePort : Port.t)
    (targetNode : CanvasNode.t) (targetPort : Port.t)
    (existingConnections : list Connection.t) :
  (forall r, validateConnection sourceNode sourcePort targetNode targetPort
                                existingConnections = Ok r ->
             isValid r
             = passesRules sourceNode sourcePort targetNode targetPort
                           existingConnections) /\
  (passesRules sourceNode sourcePort targetNode targetPort existingConnections
   = true ->
   validateConnection sourceNode sourcePort targetNode targetPort
                      existingConnections
   = Ok {| isValid := true; error := None |}) /\
  forall ins outs ins' outs',
    validateConnection
      (CanvasNode.mk (CanvasNode.id sourceNode) (CanvasNode.type sourceNode)
                     (CanvasNode.name sourceNode) ins outs)
      sourcePort
      (CanvasNode.mk (CanvasNode.id targetNode) (CanvasNode.type targetNode)
                     (CanvasNode.name targetNode) ins' outs')
      targetPort existingConnections
    = validateConnection sourceNode sourcePort targetNode targetPort
                         existingConnections.
Proof.
  split; [apply validateConnection_isValid|].
  split; [apply validateConnection_isValid | reflexivity].
Qed.

(** The type check never recurses, and it raises exactly on an inherited
    source type that the wildcard and equality tests let through. *)
Lemma areTypesCompatible_Throw (s t : string) :
  areTypesCompatible s t = Throw
  <-> In s JsObject.objectPrototypeKeys /\ s <> "any" /\ t <> "any" /\ s <> t.
Proof.
  rewrite areTypesCompatible_spec.
  destruct (s =? "any") eqn:E1.
  { apply String.eqb_eq in E1. simpl orb. cbv iota. split; [discriminate | tauto]. }
  destruct (t =? "any") eqn:E2.
  { apply String.eqb_eq in E2. simpl orb. cbv iota. split; [discriminate | tauto]. }
  destruct (s =? t) eqn:E3.
  { apply String.eqb_eq in E3. simpl orb. cbv iota. split; [discriminate | tauto]. }
  apply String.eqb_neq in E1, E2, E3. simpl orb. cbv iota.
  destruct (includes s JsObject.objectPrototypeKeys) eqn:E.
  - apply existsb_exists in E as (k & Hk & E). apply String.eqb_eq in E. subst k.
    tauto.
  - split; [discriminate|]. intros (Hin & _). exfalso.
    assert (includes s JsObject.objectPrototypeKeys = true) as E'; [|congruence].
    apply existsb_exists. exists s. split; [exact Hin | apply String.eqb_refl].
Qed.

Lemma areTypesCompatible_budget (s t : string) :
  areTypesCompatible s t <> OutOfFuel.
Proof.
  rewrite areTypesCompatible_spec.
  destruct ((s =? "any") || (t =? "any") || (s =? t)); [discriminate|].
  destruct (includes s JsObject.objectPrototypeKeys); discriminate.
Qed.
(* ================================================================= *)
(** * Reasoning about outcomes *)

Lemma post_bind {A B : Type} (Q : B -> Prop) (T F : Prop)
    (m : outcome A) (k : A -> outcome B) :
  post (fun a => post Q T F (k a)) T F m -> post Q T F (bind m k).
Proof. destruct m; simpl; auto. Qed.

Lemma post_mono {A : Type} (Q Q' : A -> Prop) (T T' F F' : Prop) (m : outcome A) :
  (forall a, Q a -> Q' a) -> (T -> T') -> (F -> F') ->
  post Q T F m -> post Q' T' F' m.
Proof. destruct m; simpl; auto. Qed.

Lemma post_conj {A : Type} (Q1 Q2 : A -> Prop) (T1 T2 F1 F2 : Prop) (m : outcome A) :
  post Q1 T1 F1 m -> post Q2 T2 F2 m ->
  post (fun a => Q1 a /\ Q2 a) (T1 /\ T2) (F1 /\ F2) m.
Proof. destruct m; simpl; auto. Qed.

Lemma post_returns {A : Type} (Q : A -> Prop) (m : outcome A) :
  post Q False False m -> exists a, m = Ok a /\ Q a.
Proof. destruct m; simpl; intros H; [eauto | contradiction | contradiction]. Qed.

Lemma post_of_Ok {A : Type} (Q : A -> Prop) (T F : Prop) (m : outcome A) (a : A) :
  m = Ok a -> post Q T F m -> Q a.
Proof. intros ->. simpl. auto. Qed.

(** The loop rule: an invariant indexed by the elements already processed. *)
Lemma forEach_post {A S : Type} (f : A -> S -> outcome S)
    (P : list A -> S -> Prop) (T F : Prop) (l : list A) (s : S) :
  P [] s ->
  (forall pre a suf s0,
      l = pre ++ a :: suf -> P pre s0 -> post (P (pre ++ [a])) T F (f a s0)) ->
  post (P l) T F (forEach f l s).
Proof.
  revert P s. induction l as [|a l IH]; intros P s H0 Hstep; simpl.
  - exact H0.
  - apply post_bind.
    pose proof (Hstep [] a l s eq_refl H0) as Ha. simpl in Ha.
    destruct (f a s) as [s1| |]; simpl in *; auto.
    apply (IH (fun pre => P (a :: pre))); [exact Ha|].
    intros pre b suf s0 -> HP.
    apply (Hstep (a :: pre) b suf s0); [reflexivity | exact HP].
Qed.

(** Two loops over related lists run in lock step. *)
Lemma forEach_sim {A B SA SB : Type} (h : B -> A)
    (f : A -> SA -> outcome SA) (g : B -> SB -> outcome SB)
    (R : SA -> SB -> Prop) (l : list B) :
  (forall b sa sb sa', In b l -> R sa sb -> f (h b) sa = Ok sa' ->
                       exists sb', g b sb = Ok sb' /\ R sa' sb') ->
  forall sa sb sa',
    R sa sb -> forEach f (map h l) sa = Ok sa' ->
    exists sb', forEach g l sb = Ok sb' /\ R sa' sb'.
Proof.
  induction l as [|b l IH]; intros Hstep sa sb sa' HR Hrun; simpl in *.
  - injection Hrun as <-. eauto.
  - destruct (f (h b) sa) as [sa1| |] eqn:E; simpl in Hrun; try discriminate.
    destruct (Hstep b sa sb sa1 (or_introl eq_refl) HR E) as (sb1 & -> & HR1).
    simpl. apply (IH ltac:(intros; eapply Hstep; eauto) sa1 sb1 sa' HR1 Hrun).
Qed.

(* ================================================================= *)
(** * The dependency object built by [analyzeFlow] *)

Lemma initDependencies_lookup (nodes : list CanvasNode.t) (k : string) :
  initDependencies nodes !! k
  = if decide (k ∈ map CanvasNode.id nodes) then Some [] else None.
Proof.
  unfold initDependencies.
  induction nodes as [|node nodes' IH] using rev_ind.
  - simpl foldl. rewrite obj_lookup_empty. destruct (decide _) as [H|H]; [|reflexivity].
    apply elem_of_nil in H. contradiction.
  - rewrite foldl_snoc, map_app, obj_lookup_set. simpl map.
    destruct (decide (CanvasNode.id node = k)) as [E|E].
    + rewrite decide_True; [reflexivity|]. subst k.
      apply elem_of_app. right. apply list_elem_of_singleton. reflexivity.
    + rewrite IH. destruct (decide (k ∈ map CanvasNode.id nodes')) as [H|H].
      * rewrite decide_True; [reflexivity|]. apply elem_of_app. auto.
      * rewrite decide_False; [reflexivity|].
        intros [H0|H0]%elem_of_app; [contradiction|].
        apply list_elem_of_singleton in H0. congruence.
Qed.

Lemma incomingOf_cons (c : Connection.t) (connections : list Connection.t) (k : string) :
  incomingOf (c :: connections) k
  = if Connection.targetNodeId c =? k then c :: incomingOf connections k
    else incomingOf connections k.
Proof. reflexivity. Qed.

(** What one round of the second loop does to the arrays of the object. *)
Lemma addDependency_lookup (c : Connection.t) (acc deps : JsObject.t) (k : string) :
  addDependency c acc = Ok deps ->
  deps !! k
  = if Connection.targetNodeId c =? k
    then (fun l => l ++ [Connection.sourceNodeId c]) <$> acc !! k
    else acc !! k.
Proof.
  unfold addDependency.
  destruct (JsObject.get acc (Connection.targetNodeId c)) as [l| |] eqn:Eget;
    [|discriminate|].
  - intros [= <-]. apply obj_lookup_get in Eget.
    rewrite (obj_lookup_push _ _ _ _ _ Eget).
    destruct (decide (Connection.targetNodeId c = k)) as [<-|Hne].
    + rewrite String.eqb_refl, Eget. reflexivity.
    + apply String.eqb_neq in Hne. rewrite Hne. reflexivity.
  - intros [= <-].
    destruct (Connection.targetNodeId c =? k) eqn:E; [|reflexivity].
    apply String.eqb_eq in E. subst k.
    assert (acc !! Connection.targetNodeId c = None) as ->; [|reflexivity].
    apply obj_lookup_None. auto.
Qed.

Lemma forEach_addDependency_lookup (connections : list Connection.t) :
  forall (acc deps : JsObject.t) (k : string),
    forEach addDependency connections acc = Ok deps ->
    deps !! k
    = (fun l => l ++ map Connection.sourceNodeId (incomingOf connections k))
        <$> acc !! k.
Proof.
  induction connections as [|c connections IH]; intros acc deps k Hrun.
  - injection Hrun as <-. destruct (acc !! k); simpl; [rewrite app_nil_r|]; reflexivity.
  - simpl in Hrun.
    destruct (addDependency c acc) as [acc1| |] eqn:Estep; simpl in Hrun;
      try discriminate.
    rewrite (IH acc1 deps k Hrun), (addDependency_lookup c acc acc1 k Estep),
      incomingOf_cons.
    destruct (Connection.targetNodeId c =? k); [|reflexivity].
    destruct (acc !! k); simpl; [rewrite <- app_assoc|]; reflexivity.
Qed.

(** When the second loop completes, the object reads as an array exactly at
    the node ids, and the array lists the sources of the connections into
    that node, in the order of the connection list. *)
Lemma buildDependencies_lookup (nodes : list CanvasNode.t)
    (connections : list Connection.t) (deps : JsObject.t) :
  buildDependencies nodes connections = Ok deps ->
  forall k,
    deps !! k
    = if decide (k ∈ map CanvasNode.id nodes)
      then Some (map Connection.sourceNodeId (incomingOf connections k))
      else None.
Proof.
  unfold buildDependencies. intros Hrun k.
  rewrite (forEach_addDependency_lookup _ _ _ k Hrun), initDependencies_lookup.
  case_decide; reflexivity.
Qed.

Lemma buildDependencies_dom (nodes : list CanvasNode.t)
    (connections : list Connection.t) (deps : JsObject.t) :
  buildDependencies nodes connections = Ok deps ->
  dom deps = list_to_set (map CanvasNode.id nodes).
Proof.
  intros Hrun. apply set_eq. intros k.
  rewrite obj_elem_of_dom, (buildDependencies_lookup _ _ _ Hrun), elem_of_list_to_set.
  case_decide as H; split; intros H'; eauto.
  - destruct H' as [? H']. discriminate.
  - contradiction.
Qed.

Lemma incomingOf_In (connections : list Connection.t) (k : string) (c : Connection.t) :
  In c (incomingOf connections k) <-> In c connections /\ Connection.targetNodeId c = k.
Proof.
  unfold incomingOf. rewrite filter_In, String.eqb_eq. reflexivity.
Qed.

(** An array of the object lists the sources of the connections into its
    key. *)
Lemma buildDependencies_edge (nodes : list CanvasNode.t)
    (connections : list Connection.t) (deps : JsObject.t)
    (k d : string) (ds : list string) :
  buildDependencies nodes connections = Ok deps ->
  deps !! k = Some ds ->
  In d ds -> edge connections d k.
Proof.
  intros Hrun. rewrite (buildDependencies_lookup _ _ _ Hrun).
  case_decide; [|discriminate].
  intros [= <-] Hd. apply in_map_iff in Hd as (c & Hs & Hc).
  apply incomingOf_In in Hc as [Hc Ht]. exists c. auto.
Qed.

Lemma buildDependencies_closed (nodes : list CanvasNode.t)
    (connections : list Connection.t) (deps : JsObject.t) :
  buildDependencies nodes connections = Ok deps ->
  danglingFree nodes connections ->
  closed deps.
Proof.
  intros Hrun Hres k ds d Hk Hd.
  destruct (buildDependencies_edge _ _ _ _ _ _ Hrun Hk Hd) as (c & Hc & Hs & Ht).
  rewrite (buildDependencies_lookup _ _ _ Hrun) in Hk.
  destruct (decide (k ∈ map CanvasNode.id nodes)) as [Hin|]; [|discriminate].
  rewrite (buildDependencies_lookup _ _ _ Hrun).
  rewrite decide_True; [eauto|].
  apply list_elem_of_In. rewrite <- Hs. apply Hres; [exact Hc|].
  rewrite Ht. apply list_elem_of_In, Hin.
Qed.

Lemma sourcesResolve_danglingFree (nodes : list CanvasNode.t)
    (connections : list Connection.t) :
  sourcesResolve nodes connections -> danglingFree nodes connections.
Proof. intros H c Hc _. apply H, Hc. Qed.

(** The second loop has no recursion: it returns or raises. *)
Lemma forEach_addDependency_budget (connections : list Connection.t) :
  forall acc, forEach addDependency connections acc <> OutOfFuel.
Proof.
  induction connections as [|c connections IH]; intros acc; [discriminate|].
  simpl. unfold addDependency at 1.
  destruct (JsObject.get acc (Connection.targetNodeId c)); simpl;
    [apply IH | discriminate | apply IH].
Qed.

Lemma buildDependencies_budget (nodes : list CanvasNode.t)
    (connections : list Connection.t) :
  buildDependencies nodes connections <> OutOfFuel.
Proof. apply forEach_addDependency_budget. Qed.

(** A round of the second loop keeps the keys that hold arrays. *)
Lemma addDependency_keys (c : Connection.t) (acc deps : JsObject.t) (k : string) :
  addDependency c acc = Ok deps ->
  is_Some (deps !! k) <-> is_Some (acc !! k).
Proof.
  intros Hstep. rewrite (addDependency_lookup c acc deps k Hstep).
  destruct (Connection.targetNodeId c =? k); [|reflexivity].
  destruct (acc !! k); simpl; split; intros [? H]; eauto; discriminate.
Qed.

(** The second loop completes when every connection ends at a node or at an
    id that names no built-in property. *)
Lemma buildDependencies_returns (nodes : list CanvasNode.t)
    (connections : list Connection.t) :
  targetsPlain nodes connections ->
  exists deps, buildDependencies nodes connections = Ok deps.
Proof.
  unfold buildDependencies, targetsPlain. intros Hplain.
  assert (forall k, In k (map CanvasNode.id nodes) ->
                    is_Some (initDependencies nodes !! k)) as Hinit.
  { intros k Hk. rewrite initDependencies_lookup, decide_True; [eauto|].
    apply list_elem_of_In, Hk. }
  revert Hplain Hinit. generalize (initDependencies nodes) as acc.
  induction connections as [|c connections IH]; intros acc Hplain Hinv.
  - simpl. eauto.
  - simpl.
    assert (exists acc1, addDependency c acc = Ok acc1) as [acc1 Hstep].
    { unfold addDependency.
      destruct (JsObject.get acc (Connection.targetNodeId c)) as [l| |] eqn:Eget;
        [eauto | exfalso | eauto].
      destruct (Hplain c (or_introl eq_refl)) as [Hnode|Hkey].
      - destruct (Hinv _ Hnode) as [l Hl]. apply obj_lookup_get in Hl. congruence.
      - rewrite (obj_get_plain acc _ Hkey) in Eget; [discriminate|].
        apply obj_lookup_None. auto. }
    rewrite Hstep. simpl. apply IH.
    + intros c' Hc'. apply Hplain. right. exact Hc'.
    + intros k Hk. apply (addDependency_keys c acc acc1 k Hstep), Hinv, Hk.
Qed.

(** The second loop raises when a connection ends at an id that is not a
    node and names a property of [Object.prototype]: the guard reads the
    inherited value, which is truthy and has no [push]. *)
Lemma buildDependencies_throws (nodes : list CanvasNode.t)
    (connections : list Connection.t) (c : Connection.t) :
  In c connections ->
  ~ In (Connection.targetNodeId c) (map CanvasNode.id nodes) ->
  In (Connection.targetNodeId c) JsObject.objectPrototypeKeys ->
  buildDependencies nodes connections = Throw.
Proof.
  unfold buildDependencies. intros Hc Hnode Hkey.
  assert (forall k, is_Some (initDependencies nodes !! k) ->
                    In k (map CanvasNode.id nodes)) as Hinit.
  { intros k. rewrite initDependencies_lookup.
    case_decide as Hk; [intros _; apply list_elem_of_In, Hk|].
    intros [? H]. discriminate. }
  revert Hc Hinit. generalize (initDependencies nodes) as acc.
  induction connections as [|c0 connections IH]; intros acc Hc Hinv; [destruct Hc|].
  simpl.
  destruct (addDependency c0 acc) as [acc1| |] eqn:Estep; simpl; [|reflexivity|].
  - destruct Hc as [->|Hc].
    + exfalso. unfold addDependency in Estep.
      rewrite (obj_get_inherited acc _ Hkey) in Estep; [discriminate|].
      destruct (acc !! Connection.targetNodeId c) as [l|] eqn:El; [|reflexivity].
      exfalso. apply Hnode, Hinv. eauto.
    + apply IH; [exact Hc|].
      intros k Hk. apply Hinv, (addDependency_keys c0 acc acc1 k Estep), Hk.
  - exfalso. unfold addDependency in Estep.
    destruct (JsObject.get acc (Connection.targetNodeId c0)); discriminate.
Qed.

(** The prototype is replaced only for a node called ['__proto__']. *)
Lemma initDependencies_proto (nodes : list CanvasNode.t) :
  ~ In "__proto__" (map CanvasNode.id nodes) ->
  JsObject.proto (initDependencies nodes) = None.
Proof.
  unfold initDependencies.
  induction nodes as [|node nodes' IH] using rev_ind; intros Hno; [reflexivity|].
  rewrite foldl_snoc, obj_set_proto.
  - apply IH. intros H. apply Hno. rewrite map_app. apply in_or_app. auto.
  - intros H. apply Hno. rewrite map_app. apply in_or_app. right. simpl. auto.
Qed.

(** The second loop completes, when no node is called ['__proto__'], as
    soon as every connection ends at a node or at an id that is not a
    property name of [Object.prototype]. *)
Lemma buildDependencies_returns_object (nodes : list CanvasNode.t)
    (connections : list Connection.t) :
  ~ In "__proto__" (map CanvasNode.id nodes) ->
  (forall c, In c connections ->
             In (Connection.targetNodeId c) (map CanvasNode.id nodes) \/
             ~ In (Connection.targetNodeId c) JsObject.objectPrototypeKeys) ->
  exists deps, buildDependencies nodes connections = Ok deps.
Proof.
  unfold buildDependencies. intros Hno Hplain.
  assert (forall k, In k (map CanvasNode.id nodes) ->
                    is_Some (initDependencies nodes !! k)) as Hinit.
  { intros k Hk. rewrite initDependencies_lookup, decide_True; [eauto|].
    apply list_elem_of_In, Hk. }
  pose proof (initDependencies_proto nodes Hno) as Hproto.
  revert Hplain Hinit Hproto. generalize (initDependencies nodes) as acc.
  induction connections as [|c connections IH]; intros acc Hplain Hinv Hproto.
  - simpl. eauto.
  - simpl.
    assert (exists acc1, addDependency c acc = Ok acc1 /\
                         JsObject.proto acc1 = None) as (acc1 & Hstep & Hproto1).
    { unfold addDependency.
      destruct (JsObject.get acc (Connection.targetNodeId c)) as [l| |] eqn:Eget;
        [eexists; split; [reflexivity | apply obj_push_proto, Hproto]
        | exfalso | eauto].
      destruct (Hplain c (or_introl eq_refl)) as [Hnode|Hkey].
      - destruct (Hinv _ Hnode) as [l Hl]. apply obj_lookup_get in Hl. congruence.
      - rewrite (obj_get_object acc _ Hproto Hkey) in Eget; [discriminate|].
        apply obj_lookup_None. auto. }
    rewrite Hstep. simpl. apply IH.
    + intros c' Hc'. apply Hplain. right. exact Hc'.
    + intros k Hk. apply (addDependency_keys c acc acc1 k Hstep), Hinv, Hk.
    + exact Hproto1.
Qed.

(** The own keys of the object are the node ids other than ['__proto__']. *)
Lemma initDependencies_own (nodes : list CanvasNode.t) :
  dom (JsObject.own (initDependencies nodes))
  = list_to_set (map CanvasNode.id nodes) ∖ {["__proto__"]}.
Proof.
  unfold initDependencies.
  induction nodes as [|node nodes' IH] using rev_ind.
  - simpl. rewrite dom_empty_L. set_solver.
  - rewrite foldl_snoc, obj_set_own by (rewrite IH; set_solver).
    rewrite IH, map_app, list_to_set_app_L. simpl map.
    rewrite list_to_set_cons, list_to_set_nil. set_solver.
Qed.

Lemma buildDependencies_own (nodes : list CanvasNode.t)
    (connections : list Connection.t) (deps : JsObject.t) :
  buildDependencies nodes connections = Ok deps ->
  dom (JsObject.own deps)
  = list_to_set (map CanvasNode.id nodes) ∖ {["__proto__"]}.
Proof.
  unfold buildDependencies. rewrite <- initDependencies_own.
  generalize (initDependencies nodes) as acc.
  induction connections as [|c connections IH]; intros acc Hrun.
  - injection Hrun as <-. reflexivity.
  - simpl in Hrun.
    destruct (addDependency c acc) as [acc1| |] eqn:Estep; simpl in Hrun;
      try discriminate.
    rewrite (IH acc1 Hrun). unfold addDependency in Estep.
    destruct (JsObject.get acc (Connection.targetNodeId c)); try discriminate;
      injection Estep as <-; [apply obj_push_own | reflexivity].
Qed.
(* ================================================================= *)
(** * [topologicalSort] *)

Arguments Topo.visit : simpl never.
Arguments Cyc.visit : simpl never.
Arguments Flow.visit : simpl never.

Section TopoVisit.
Variable deps : JsObject.t.

Lemma topo_visit_unfold (fuel : nat) (n : string) (st : Topo.state) :
  Topo.visit (S fuel) deps n st
  = if bool_decide (n ∈ Topo.visiting st) then Ok st
    else if bool_decide (n ∈ Topo.visited st) then Ok st
    else
      match JsObject.get deps n with
      | JsObject.Array ds =>
        do st2 <- forEach (Topo.visit fuel deps) ds
                          (Topo.mk (Topo.visited st) ({[n]} ∪ Topo.visiting st)
                                   (Topo.result st));
        Ok (Topo.mk ({[n]} ∪ Topo.visited st2) (Topo.visiting st2 ∖ {[n]})
                    (Topo.result st2 ++ [n]))
      | _ => Throw
      end.
Proof. reflexivity. Qed.

(** The same, in terms of the array read at the key. *)
Lemma topo_visit_S (fuel : nat) (n : string) (st : Topo.state) :
  Topo.visit (S fuel) deps n st
  = if bool_decide (n ∈ Topo.visiting st) then Ok st
    else if bool_decide (n ∈ Topo.visited st) then Ok st
    else
      match deps !! n with
      | None => Throw
      | Some ds =>
        do st2 <- forEach (Topo.visit fuel deps) ds
                          (Topo.mk (Topo.visited st) ({[n]} ∪ Topo.visiting st)
                                   (Topo.result st));
        Ok (Topo.mk ({[n]} ∪ Topo.visited st2) (Topo.visiting st2 ∖ {[n]})
                    (Topo.result st2 ++ [n]))
      end.
Proof.
  rewrite topo_visit_unfold. unfold lookup, jsobject_lookup.
  destruct (JsObject.get deps n); reflexivity.
Qed.

(** The depth budget is never exhausted: the nodes being visited are
    distinct keys of the map. *)
Lemma topo_visit_budget (fuel : nat) :
  forall n st,
    Topo.visiting st ⊆ dom deps ->
    size (dom deps) < fuel + size (Topo.visiting st) ->
    post (fun st' => Topo.visiting st' = Topo.visiting st) True False
         (Topo.visit fuel deps n st).
Proof.
  induction fuel as [|fuel IH]; intros n st Hsub Hsize.
  - apply subseteq_size in Hsub. lia.
  - rewrite topo_visit_S.
    case_bool_decide as Hing; [reflexivity|].
    case_bool_decide as Hed; [reflexivity|].
    destruct (deps !! n) as [ds|] eqn:En; [|exact I].
    assert (n ∈ dom deps) as Hn by (apply obj_elem_of_dom; eauto).
    apply post_bind.
    eapply post_mono;
      [ | | | apply (forEach_post _
                (fun _ s => Topo.visiting s = {[n]} ∪ Topo.visiting st) True False) ].
    + intros st2 H2. simpl. rewrite H2. set_solver.
    + auto.
    + auto.
    + reflexivity.
    + intros pre d suf s0 _ Hs0.
      eapply post_mono; [ | | | apply (IH d s0) ].
      * intros s1 H1. simpl in H1. congruence.
      * auto.
      * auto.
      * rewrite Hs0. set_solver.
      * rewrite Hs0, size_union, size_singleton by set_solver. lia.
Qed.

(** No call raises when every listed dependency reads as an array. *)
Lemma topo_visit_no_throw (fuel : nat) :
  closed deps ->
  forall n st,
    is_Some (deps !! n) ->
    post (fun _ => True) False True (Topo.visit fuel deps n st).
Proof.
  intros Hclosed. induction fuel as [|fuel IH]; intros n st Hn; [exact I|].
  rewrite topo_visit_S.
  case_bool_decide; [exact I|]. case_bool_decide; [exact I|].
  destruct Hn as [ds En]. rewrite En.
  apply post_bind.
  eapply post_mono;
    [ | | | apply (forEach_post _ (fun _ _ => True) False True) ]; simpl; auto.
  intros pre d suf s0 Hds _. apply IH.
  apply (Hclosed n ds d En). rewrite Hds. apply in_elt.
Qed.

(** A returning call keeps the state well formed, restores [visiting],
    settles the node and only appends to [result]. *)
Lemma topo_visit_wf (fuel : nat) :
  forall n st,
    topo_wf deps st ->
    post (topo_visited deps n st) True True (Topo.visit fuel deps n st).
Proof.
  induction fuel as [|fuel IH]; intros n st Hwf; [exact I|].
  rewrite topo_visit_S.
  case_bool_decide as Hing.
  { simpl. repeat split; try apply Hwf; auto. exists []. rewrite app_nil_r. reflexivity. }
  case_bool_decide as Hed.
  { simpl. repeat split; try apply Hwf; auto.
    - right. apply Hwf. exact Hed.
    - exists []. rewrite app_nil_r. reflexivity. }
  destruct (deps !! n) as [ds|] eqn:En; [|exact I].
  assert (n ∈ dom deps) as Hn by (apply obj_elem_of_dom; eauto).
  destruct Hwf as [W1 W2 W3 W4 W5].
  apply post_bind.
  eapply post_mono;
    [ | | | apply (forEach_post _
              (fun _ s => topo_wf deps s /\
                          Topo.visiting s = {[n]} ∪ Topo.visiting st /\
                          exists l, Topo.result s = Topo.result st ++ l)
              True True) ]; auto.
  - intros st2 ([V1 V2 V3 V4 V5] & Hv & l & Hl). simpl.
    assert (~ In n (Topo.result st2)) as Hnot.
    { intros Hin. apply V2 in Hin. set_solver. }
    assert (forall x, ~ In x (Topo.result st2) -> x ∉ Topo.visited st2) as V2'.
    { intros x Hx Hx'. apply Hx, V2, Hx'. }
    split; [constructor; simpl|split; [|split]]; simpl.
    + rewrite Hv. set_solver.
    + intros x. rewrite in_app_iff. simpl. rewrite <- V2. set_solver.
    + apply NoDup_app. split; [exact V3|]. split.
      * intros x Hx Hx'. apply list_elem_of_singleton in Hx'. subst x.
        apply list_elem_of_In in Hx. contradiction.
      * apply NoDup_singleton.
    + rewrite Hv. apply V2' in Hnot. set_solver.
    + intros x. rewrite in_app_iff. simpl. intros [Hx|[<-|[]]]; auto.
    + rewrite Hv. set_solver.
    + right. apply in_app_iff. simpl. auto.
    + exists (l ++ [n]). rewrite Hl, app_assoc. reflexivity.
  - split; [constructor; simpl|split; [|eexists []]]; simpl.
    + set_solver.
    + apply W2.
    + exact W3.
    + set_solver.
    + exact W5.
    + reflexivity.
    + rewrite app_nil_r. reflexivity.
  - intros pre d suf s0 _ (Hwf0 & Hv0 & l0 & Hl0).
    eapply post_mono; [ | | | apply (IH d s0 Hwf0) ]; auto.
    intros s1 (Hwf1 & Hv1 & _ & l1 & Hl1).
    split; [exact Hwf1|]. split; [congruence|].
    exists (l0 ++ l1). rewrite Hl1, Hl0, app_assoc. reflexivity.
Qed.

End TopoVisit.

Lemma ordered_snoc (deps : JsObject.t) (l : list string) (n : string) :
  ordered deps l ->
  (forall ds d, deps !! n = Some ds -> In d ds -> In d l) ->
  ordered deps (l ++ [n]).
Proof.
  intros Hord Hn l1 v l2 ds d Heq Hv Hd.
  destruct l2 as [|x l2 _] using rev_ind.
  - apply app_inj_tail in Heq as [-> ->]. eauto.
  - change (l ++ [n] = l1 ++ (v :: l2) ++ [x]) in Heq.
    rewrite app_assoc in Heq. apply app_inj_tail in Heq as [-> _]. eauto.
Qed.

Section TopoOrdered.
Variable deps : JsObject.t.
Variable R : relation string.
Hypothesis Hdep : forall v ds d, deps !! v = Some ds -> In d ds -> R d v.
Hypothesis Hacyc : forall x, ~ tc R x x.

(** In an acyclic graph a returning call leaves every settled node after
    all its dependencies, and settles the node it was called on. *)
Lemma topo_visit_ordered (fuel : nat) :
  forall n st,
    topo_wf deps st ->
    ordered deps (Topo.result st) ->
    (forall v, v ∈ Topo.visiting st -> tc R n v) ->
    post (fun st' => ordered deps (Topo.result st') /\ In n (Topo.result st'))
         True True (Topo.visit fuel deps n st).
Proof.
  induction fuel as [|fuel IH]; intros n st Hwf Hord Hreach; [exact I|].
  rewrite topo_visit_S.
  case_bool_decide as Hing.
  { exfalso. exact (Hacyc n (Hreach n Hing)). }
  case_bool_decide as Hed.
  { simpl. split; [exact Hord|]. apply Hwf. exact Hed. }
  destruct (deps !! n) as [ds|] eqn:En; [|exact I].
  apply post_bind.
  eapply post_mono;
    [ | | | apply (forEach_post _
              (fun pre s => topo_wf deps s /\
                            Topo.visiting s = {[n]} ∪ Topo.visiting st /\
                            ordered deps (Topo.result s) /\
                            forall d, In d pre -> In d (Topo.result s))
              True True) ]; auto.
  - intros st2 (_ & _ & Hord2 & Hall). simpl. split.
    + apply ordered_snoc; [exact Hord2|].
      intros ds' d Hds' Hd. rewrite En in Hds'. injection Hds' as <-. auto.
    + apply in_app_iff. simpl. auto.
  - simpl. split; [|split; [reflexivity|split; [exact Hord|intros d []]]].
    destruct Hwf as [W1 W2 W3 W4 W5].
    assert (n ∈ dom deps) by (apply obj_elem_of_dom; eauto).
    constructor; simpl; auto; set_solver.
  - intros pre d suf s0 Hds (Hwf0 & Hv0 & Hord0 & Hall0).
    assert (In d ds) as Hd by (rewrite Hds; apply in_elt).
    assert (forall v, v ∈ Topo.visiting s0 -> tc R d v) as Hreach0.
    { intros v Hv. rewrite Hv0 in Hv.
      apply elem_of_union in Hv as [Hv|Hv].
      - apply elem_of_singleton in Hv. subst v. apply tc_once. eapply Hdep; eauto.
      - eapply tc_l; [eapply Hdep; eauto | apply Hreach; exact Hv]. }
    eapply post_mono;
      [ | | | apply (post_conj _ _ _ _ _ _ _
                       (IH d s0 Hwf0 Hord0 Hreach0)
                       (topo_visit_wf deps fuel d s0 Hwf0)) ];
      auto.
    intros s1 ((Hord1 & Hd1) & Hwf1 & Hv1 & _ & l1 & Hl1).
    split; [exact Hwf1|]. split; [congruence|]. split; [exact Hord1|].
    intros x [Hx|[<-|[]]]%in_app_iff; [|exact Hd1].
    rewrite Hl1. apply in_app_iff. left. auto.
Qed.

End TopoOrdered.

Lemma size_list_to_set_le (l : list string) :
  size (list_to_set l : gset string) <= length l.
Proof.
  induction l as [|x l IH].
  - rewrite list_to_set_nil, size_empty. simpl. lia.
  - rewrite list_to_set_cons, size_union_alt, size_singleton. simpl length.
    pose proof (subseteq_size (list_to_set l ∖ {[x]}) (list_to_set l : gset string)
                              ltac:(set_solver)).
    lia.
Qed.

Lemma topo_wf_init (deps : JsObject.t) : topo_wf deps Topo.init.
Proof.
  constructor; simpl; try set_solver.
  apply NoDup_nil_2.
Qed.

(** The loop of [topologicalSort] over all node ids. *)
Lemma topologicalSort_loop (nodeIds : list string) (deps : JsObject.t) :
  dom deps = list_to_set nodeIds ->
  post (fun st => topo_wf deps st /\ Topo.visiting st = ∅ /\
                  forall x, In x nodeIds -> In x (Topo.result st))
       True False
       (forEach (Topo.visit (S (length nodeIds)) deps) nodeIds Topo.init).
Proof.
  intros Hdom.
  apply (forEach_post _
           (fun pre st => topo_wf deps st /\ Topo.visiting st = ∅ /\
                          forall x, In x pre -> In x (Topo.result st))).
  - split; [apply topo_wf_init|]. split; [reflexivity|]. intros x [].
  - intros pre n suf s0 _ (Hwf0 & Hv0 & Hall0).
    assert (Topo.visiting s0 ⊆ dom deps) as Hsub by (rewrite Hv0; set_solver).
    assert (size (dom deps) < S (length nodeIds) + size (Topo.visiting s0)) as Hsize.
    { rewrite Hv0, Hdom, size_empty.
      pose proof (size_list_to_set_le nodeIds). lia. }
    eapply post_mono;
      [ | | | apply (post_conj _ _ _ _ _ _ _
                       (topo_visit_budget deps (S (length nodeIds)) n s0 Hsub Hsize)
                       (topo_visit_wf deps (S (length nodeIds)) n s0 Hwf0)) ]; auto.
    + intros s1 (_ & Hwf1 & Hv1 & Hn & l1 & Hl1).
      split; [exact Hwf1|]. split; [congruence|].
      intros x [Hx|[<-|[]]]%in_app_iff.
      * rewrite Hl1. apply in_app_iff. left. auto.
      * destruct Hn as [Hn|Hn]; [|exact Hn]. rewrite Hv0 in Hn. set_solver.
    + tauto.
Qed.

Lemma topologicalSort_no_throw (nodeIds : list string)
    (deps : JsObject.t) :
  closed deps ->
  dom deps = list_to_set nodeIds ->
  post (fun _ => True) False True (topologicalSort nodeIds deps).
Proof.
  intros Hclosed Hdom. unfold topologicalSort. apply post_bind.
  eapply post_mono;
    [ | | | apply (forEach_post _ (fun _ _ => True) False True) ]; simpl; auto.
  intros pre n suf s0 Hn _. apply topo_visit_no_throw; [exact Hclosed|].
  apply obj_elem_of_dom. rewrite Hdom. apply elem_of_list_to_set, list_elem_of_In.
  rewrite Hn. apply in_elt.
Qed.

(** [topologicalSort] never exhausts its budget, and what it returns lists
    every node id exactly once. *)
Lemma topologicalSort_post (nodeIds : list string) (deps : JsObject.t) :
  dom deps = list_to_set nodeIds ->
  post (fun order => NoDup order /\ forall x, In x order <-> In x nodeIds)
       True False (topologicalSort nodeIds deps).
Proof.
  intros Hdom. unfold topologicalSort. apply post_bind.
  eapply post_mono; [ | | | apply (topologicalSort_loop nodeIds deps Hdom) ]; auto.
  intros st ([W1 W2 W3 W4 W5] & _ & Hall). simpl. split; [exact W3|].
  intros x. split; [|apply Hall].
  intros Hx. apply W5 in Hx. rewrite Hdom in Hx.
  apply elem_of_list_to_set, list_elem_of_In in Hx. exact Hx.
Qed.

Lemma topologicalSort_ordered (nodeIds : list string)
    (deps : JsObject.t) (R : relation string) :
  (forall v ds d, deps !! v = Some ds -> In d ds -> R d v) ->
  (forall x, ~ tc R x x) ->
  post (ordered deps) True True (topologicalSort nodeIds deps).
Proof.
  intros Hdep Hacyc. unfold topologicalSort. apply post_bind.
  eapply post_mono;
    [ | | | apply (forEach_post _
              (fun _ st => topo_wf deps st /\ Topo.visiting st = ∅ /\
                           ordered deps (Topo.result st)) True True) ]; auto.
  - intros st (_ & _ & Hord). exact Hord.
  - split; [apply topo_wf_init|]. split; [reflexivity|].
    intros l1 v l2 ds d Heq. destruct l1; discriminate.
  - intros pre n suf s0 _ (Hwf0 & Hv0 & Hord0).
    assert (forall v, v ∈ Topo.visiting s0 -> tc R n v) as Hreach0.
    { intros v Hv. rewrite Hv0 in Hv. set_solver. }
    eapply post_mono;
      [ | | | apply (post_conj _ _ _ _ _ _ _
                       (topo_visit_ordered deps R Hdep Hacyc _ n s0 Hwf0 Hord0 Hreach0)
                       (topo_visit_wf deps _ n s0 Hwf0)) ]; auto.
    intros s1 ((Hord1 & _) & Hwf1 & Hv1 & _).
    split; [exact Hwf1|]. split; [congruence | exact Hord1].
Qed.

(* ================================================================= *)
(** * [detectCycles] *)

Section CycVisit.
Variable deps : JsObject.t.

Lemma cyc_visit_unfold (fuel : nat) (n : string) (path : list string)
    (st : Cyc.state) :
  Cyc.visit (S fuel) deps n path st
  = if bool_decide (n ∈ Cyc.visiting st) then
      Ok (Cyc.mk (Cyc.cycles st ++ [slice (indexOf n path) path])
                 (Cyc.visited st) (Cyc.visiting st))
    else if bool_decide (n ∈ Cyc.visited st) then Ok st
    else
      match JsObject.get deps n with
      | JsObject.Array ds =>
        do st2 <- forEach (fun dep => Cyc.visit fuel deps dep (path ++ [n])) ds
                          (Cyc.mk (Cyc.cycles st) (Cyc.visited st)
                                  ({[n]} ∪ Cyc.visiting st));
        Ok (Cyc.mk (Cyc.cycles st2) ({[n]} ∪ Cyc.visited st2)
                   (Cyc.visiting st2 ∖ {[n]}))
      | _ => Throw
      end.
Proof. reflexivity. Qed.

Lemma cyc_visit_S (fuel : nat) (n : string) (path : list string) (st : Cyc.state) :
  Cyc.visit (S fuel) deps n path st
  = if bool_decide (n ∈ Cyc.visiting st) then
      Ok (Cyc.mk (Cyc.cycles st ++ [slice (indexOf n path) path])
                 (Cyc.visited st) (Cyc.visiting st))
    else if bool_decide (n ∈ Cyc.visited st) then Ok st
    else
      match deps !! n with
      | None => Throw
      | Some ds =>
        do st2 <- forEach (fun dep => Cyc.visit fuel deps dep (path ++ [n])) ds
                          (Cyc.mk (Cyc.cycles st) (Cyc.visited st)
                                  ({[n]} ∪ Cyc.visiting st));
        Ok (Cyc.mk (Cyc.cycles st2) ({[n]} ∪ Cyc.visited st2)
                   (Cyc.visiting st2 ∖ {[n]}))
      end.
Proof.
  rewrite cyc_visit_unfold. unfold lookup, jsobject_lookup.
  destruct (JsObject.get deps n); reflexivity.
Qed.

Lemma cyc_visit_budget (fuel : nat) :
  forall n path st,
    Cyc.visiting st ⊆ dom deps ->
    size (dom deps) < fuel + size (Cyc.visiting st) ->
    post (fun st' => Cyc.visiting st' = Cyc.visiting st) True False
         (Cyc.visit fuel deps n path st).
Proof.
  induction fuel as [|fuel IH]; intros n path st Hsub Hsize.
  - apply subseteq_size in Hsub. lia.
  - rewrite cyc_visit_S.
    case_bool_decide as Hing; [reflexivity|].
    case_bool_decide as Hed; [reflexivity|].
    destruct (deps !! n) as [ds|] eqn:En; [|exact I].
    assert (n ∈ dom deps) as Hn by (apply obj_elem_of_dom; eauto).
    apply post_bind.
    eapply post_mono;
      [ | | | apply (forEach_post _
                (fun _ s => Cyc.visiting s = {[n]} ∪ Cyc.visiting st) True False) ];
      auto.
    + intros st2 H2. simpl. rewrite H2. set_solver.
    + intros pre d suf s0 _ Hs0.
      assert (Cyc.visiting s0 ⊆ dom deps) as Hsub0 by (rewrite Hs0; set_solver).
      assert (size (dom deps) < fuel + size (Cyc.visiting s0)) as Hsize0.
      { rewrite Hs0, size_union, size_singleton by set_solver. lia. }
      eapply post_mono; [ | | | apply (IH d (path ++ [n]) s0 Hsub0 Hsize0) ]; auto.
      intros s1 H1. simpl in H1. congruence.
Qed.

Lemma cyc_visit_no_throw (fuel : nat) :
  closed deps ->
  forall n path st,
    is_Some (deps !! n) ->
    post (fun _ => True) False True (Cyc.visit fuel deps n path st).
Proof.
  intros Hclosed. induction fuel as [|fuel IH]; intros n path st Hn; [exact I|].
  rewrite cyc_visit_S.
  case_bool_decide; [exact I|]. case_bool_decide; [exact I|].
  destruct Hn as [ds En]. rewrite En.
  apply post_bind.
  eapply post_mono;
    [ | | | apply (forEach_post _ (fun _ _ => True) False True) ]; simpl; auto.
  intros pre d suf s0 Hds _. apply IH.
  apply (Hclosed n ds d En). rewrite Hds. apply in_elt.
Qed.

End CycVisit.

Lemma detectCycles_budget (nodeIds : list string) (deps : JsObject.t) :
  dom deps = list_to_set nodeIds ->
  post (fun _ => True) True False (detectCycles nodeIds deps).
Proof.
  intros Hdom. unfold detectCycles. apply post_bind.
  eapply post_mono;
    [ | | | apply (forEach_post _ (fun _ st => Cyc.visiting st = ∅) True False) ];
    simpl; auto.
  intros pre n suf s0 _ Hv0.
  assert (Cyc.visiting s0 ⊆ dom deps) as Hsub by (rewrite Hv0; set_solver).
  assert (size (dom deps) < S (length nodeIds) + size (Cyc.visiting s0)) as Hsize.
  { rewrite Hv0, Hdom, size_empty.
    pose proof (size_list_to_set_le nodeIds). lia. }
  eapply post_mono;
    [ | | | apply (cyc_visit_budget deps _ n [] s0 Hsub Hsize) ]; auto.
  intros s1 H1. simpl in H1. congruence.
Qed.

Lemma detectCycles_no_throw (nodeIds : list string) (deps : JsObject.t) :
  closed deps ->
  dom deps = list_to_set nodeIds ->
  post (fun _ => True) False True (detectCycles nodeIds deps).
Proof.
  intros Hclosed Hdom. unfold detectCycles. apply post_bind.
  eapply post_mono;
    [ | | | apply (forEach_post _ (fun _ _ => True) False True) ]; simpl; auto.
  intros pre n suf s0 Hn _. apply cyc_visit_no_throw; [exact Hclosed|].
  apply obj_elem_of_dom. rewrite Hdom. apply elem_of_list_to_set, list_elem_of_In.
  rewrite Hn. apply in_elt.
Qed.

(* ================================================================= *)
(** * [analyzeFlow] *)

Lemma targetsResolve_targetsPlain (nodes : list CanvasNode.t)
    (connections : list Connection.t) :
  targetsResolve nodes connections -> targetsPlain nodes connections.
Proof. intros H c Hc. left. apply H, Hc. Qed.

(** The budget handed to the two traversals is never exhausted: every call
    of [analyzeFlow] either returns or raises. *)
Lemma analyzeFlow_budget (nodes : list CanvasNode.t) (connections : list Connection.t) :
  analyzeFlow nodes connections <> OutOfFuel.
Proof.
  unfold analyzeFlow.
  pose proof (buildDependencies_budget nodes connections) as Hb.
  destruct (buildDependencies nodes connections) as [deps| |] eqn:Hdeps;
    simpl; try congruence.
  pose proof (buildDependencies_dom nodes connections deps Hdeps) as Hdom.
  pose proof (topologicalSort_post _ _ Hdom) as Ht.
  pose proof (detectCycles_budget _ _ Hdom) as Hc.
  destruct (topologicalSort _ _); simpl in *; try congruence.
  destruct (detectCycles _ _); simpl in *; congruence.
Qed.

(** When the second loop completes and no connection into a node of the
    snapshot starts outside it, [analyzeFlow] returns, and its execution
    order lists every node id exactly once. *)
Lemma analyzeFlow_returns_from (nodes : list CanvasNode.t)
    (connections : list Connection.t) (deps : JsObject.t) :
  buildDependencies nodes connections = Ok deps ->
  danglingFree nodes connections ->
  exists fa,
    analyzeFlow nodes connections = Ok fa /\
    buildDependencies nodes connections = Ok (FlowAnalysis.dependencies fa) /\
    topologicalSort (map CanvasNode.id nodes) (FlowAnalysis.dependencies fa)
    = Ok (FlowAnalysis.executionOrder fa) /\
    NoDup (FlowAnalysis.executionOrder fa) /\
    forall x, In x (FlowAnalysis.executionOrder fa) <-> In x (map CanvasNode.id nodes).
Proof.
  intros Hdeps Hres.
  pose proof (buildDependencies_dom nodes connections deps Hdeps) as Hdom.
  pose proof (buildDependencies_closed _ _ _ Hdeps Hres) as Hclosed.
  pose proof (topologicalSort_post _ _ Hdom) as Ht.
  pose proof (topologicalSort_no_throw _ _ Hclosed Hdom) as Ht'.
  pose proof (detectCycles_budget _ _ Hdom) as Hc.
  pose proof (detectCycles_no_throw _ _ Hclosed Hdom) as Hc'.
  unfold analyzeFlow. rewrite Hdeps. simpl.
  destruct (topologicalSort _ _) as [order| |] eqn:Esort; simpl in *;
    try contradiction.
  destruct (detectCycles _ _) as [cycles| |]; simpl in *; try contradiction.
  eexists. split; [reflexivity|]. simpl.
  split; [reflexivity|]. split; [exact Esort | exact Ht].
Qed.

(** In particular when every connection ends at a node or at an id that
    names no built-in property. *)
Lemma analyzeFlow_returns (nodes : list CanvasNode.t) (connections : list Connection.t) :
  targetsPlain nodes connections ->
  danglingFree nodes connections ->
  exists fa,
    analyzeFlow nodes connections = Ok fa /\
    buildDependencies nodes connections = Ok (FlowAnalysis.dependencies fa) /\
    topologicalSort (map CanvasNode.id nodes) (FlowAnalysis.dependencies fa)
    = Ok (FlowAnalysis.executionOrder fa) /\
    NoDup (FlowAnalysis.executionOrder fa) /\
    forall x, In x (FlowAnalysis.executionOrder fa) <-> In x (map CanvasNode.id nodes).
Proof.
  intros Hplain Hres.
  destruct (buildDependencies_returns nodes connections Hplain) as [deps Hdeps].
  exact (analyzeFlow_returns_from nodes connections deps Hdeps Hres).
Qed.
(* ================================================================= *)
(** * When [analyzeFlow] raises *)

Section TopoSettled.
Variable deps : JsObject.t.

Lemma topo_visit_settled (fuel : nat) :
  forall n st,
    topo_wf deps st ->
    deps_settled deps st ->
    post (deps_settled deps) True True (Topo.visit fuel deps n st).
Proof.
  induction fuel as [|fuel IH]; intros n st Hwf Hset; [exact I|].
  rewrite topo_visit_S.
  case_bool_decide as Hing; [exact Hset|].
  case_bool_decide as Hed; [exact Hset|].
  destruct (deps !! n) as [ds|] eqn:En; [|exact I].
  assert (n ∈ dom deps) as Hn by (apply obj_elem_of_dom; eauto).
  apply post_bind.
  eapply post_mono;
    [ | | | apply (forEach_post _
              (fun pre s => topo_wf deps s /\
                            Topo.visiting s = {[n]} ∪ Topo.visiting st /\
                            deps_settled deps s /\
                            forall d, In d pre ->
                                      d ∈ Topo.visited s \/ d ∈ Topo.visiting s)
              True True) ]; auto.
  - intros st2 (_ & Hv2 & Hset2 & Hall). simpl.
    intros v ds' d Hv Hds Hd. simpl in *.
    assert (d ∈ Topo.visited st2 \/ d ∈ Topo.visiting st2) as Hcase.
    { apply elem_of_union in Hv as [Hv|Hv].
      - apply elem_of_singleton in Hv. subst v.
        rewrite En in Hds. injection Hds as <-. auto.
      - eapply Hset2; eauto. }
    destruct (decide (d = n)) as [->|Hne]; [left; set_solver|].
    destruct Hcase as [Hc|Hc]; [left; set_solver | right; set_solver].
  - split; [|split; [reflexivity|split; [|intros d []]]].
    + destruct Hwf as [W1 W2 W3 W4 W5]. constructor; simpl; auto; set_solver.
    + intros v ds' d Hv Hds Hd. simpl in *.
      destruct (Hset v ds' d Hv Hds Hd); [left | right]; set_solver.
  - intros pre d suf s0 _ (Hwf0 & Hv0 & Hset0 & Hall0).
    eapply post_mono;
      [ | | | apply (post_conj _ _ _ _ _ _ _
                       (IH d s0 Hwf0 Hset0) (topo_visit_wf deps fuel d s0 Hwf0)) ];
      auto.
    intros s1 (Hset1 & Hwf1 & Hv1 & Hd1 & l1 & Hl1).
    assert (forall x, x ∈ Topo.visited s0 -> x ∈ Topo.visited s1) as Hmono.
    { intros x Hx. apply Hwf1. rewrite Hl1. apply in_app_iff. left.
      apply Hwf0. exact Hx. }
    split; [exact Hwf1|]. split; [congruence|]. split; [exact Hset1|].
    intros x [Hx|[<-|[]]]%in_app_iff.
    + destruct (Hall0 x Hx) as [Hx'|Hx']; [left; auto | right; congruence].
    + destruct Hd1 as [Hd1|Hd1]; [right; congruence | left; apply Hwf1, Hd1].
Qed.

End TopoSettled.

(** A dependency that does not read as an array makes [topologicalSort]
    raise. *)
Lemma topologicalSort_throws (nodeIds : list string) (deps : JsObject.t)
    (t s : string) (ds : list string) :
  dom deps = list_to_set nodeIds ->
  deps !! t = Some ds -> In s ds -> deps !! s = None ->
  topologicalSort nodeIds deps = Throw.
Proof.
  intros Hdom Ht Hs Hnone.
  assert (post (fun st => topo_wf deps st /\ Topo.visiting st = ∅ /\
                          deps_settled deps st /\
                          forall x, In x nodeIds -> In x (Topo.result st))
               True False
               (forEach (Topo.visit (S (length nodeIds)) deps) nodeIds Topo.init))
    as Hloop.
  { assert (post (fun st => topo_wf deps st /\ deps_settled deps st) True True
                 (forEach (Topo.visit (S (length nodeIds)) deps) nodeIds Topo.init))
      as Hsettled.
    { apply (forEach_post _ (fun _ st => topo_wf deps st /\ deps_settled deps st)).
      - split; [apply topo_wf_init|]. intros v ds' d Hv. simpl in Hv. set_solver.
      - intros pre n suf s0 _ (Hwf0 & Hset0).
        eapply post_mono;
          [ | | | apply (post_conj _ _ _ _ _ _ _
                           (topo_visit_settled deps _ n s0 Hwf0 Hset0)
                           (topo_visit_wf deps _ n s0 Hwf0)) ]; auto.
        intros s1 (Hset1 & Hwf1 & _). auto. }
    eapply post_mono;
      [ | | | apply (post_conj _ _ _ _ _ _ _
                       (topologicalSort_loop nodeIds deps Hdom) Hsettled) ]; auto.
    - intros st ((Hwf & Hv & Hall) & _ & Hset). auto.
    - tauto. }
  unfold topologicalSort.
  destruct (forEach _ nodeIds Topo.init) as [st| |]; simpl in *;
    [exfalso | reflexivity | contradiction].
  destruct Hloop as (Hwf & Hv & Hset & Hall).
  assert (In t nodeIds) as Htin.
  { apply list_elem_of_In, (elem_of_list_to_set (C:=gset string)).
    rewrite <- Hdom. apply obj_elem_of_dom. eauto. }
  apply Hall, Hwf in Htin.
  destruct (Hset t ds s Htin Ht Hs) as [Hs'|Hs']; [|rewrite Hv in Hs'; set_solver].
  apply Hwf, (wf_result_dom _ _ Hwf), obj_elem_of_dom in Hs'.
  rewrite Hnone in Hs'. destruct Hs' as [? Hs']. discriminate.
Qed.

Lemma topologicalSort_dangling (nodes : list CanvasNode.t)
    (connections : list Connection.t) (deps : JsObject.t) (c : Connection.t) :
  buildDependencies nodes connections = Ok deps ->
  In c connections ->
  In (Connection.targetNodeId c) (map CanvasNode.id nodes) ->
  ~ In (Connection.sourceNodeId c) (map CanvasNode.id nodes) ->
  topologicalSort (map CanvasNode.id nodes) deps = Throw.
Proof.
  intros Hdeps Hc Ht Hs.
  apply (topologicalSort_throws _ _ (Connection.targetNodeId c)
           (Connection.sourceNodeId c)
           (map Connection.sourceNodeId
                (incomingOf connections (Connection.targetNodeId c)))).
  - apply (buildDependencies_dom _ _ _ Hdeps).
  - rewrite (buildDependencies_lookup _ _ _ Hdeps), decide_True; [reflexivity|].
    apply list_elem_of_In, Ht.
  - apply in_map, incomingOf_In. auto.
  - rewrite (buildDependencies_lookup _ _ _ Hdeps), decide_False; [reflexivity|].
    rewrite list_elem_of_In. exact Hs.
Qed.

(** A connection into a node of the snapshot from an id that is not one
    makes [analyzeFlow] raise, in the second loop or in the sort. *)
Lemma analyzeFlow_dangling (nodes : list CanvasNode.t)
    (connections : list Connection.t) (c : Connection.t) :
  In c connections ->
  In (Connection.targetNodeId c) (map CanvasNode.id nodes) ->
  ~ In (Connection.sourceNodeId c) (map CanvasNode.id nodes) ->
  analyzeFlow nodes connections = Throw.
Proof.
  intros Hc Ht Hs. unfold analyzeFlow.
  pose proof (buildDependencies_budget nodes connections) as Hb.
  destruct (buildDependencies nodes connections) as [deps| |] eqn:Hdeps;
    simpl; [|reflexivity|contradiction].
  rewrite (topologicalSort_dangling nodes connections deps c Hdeps Hc Ht Hs).
  reflexivity.
Qed.

(** A connection into an id that is not a node and names a property of
    [Object.prototype] makes [analyzeFlow] raise in the second loop. *)
Lemma analyzeFlow_inherited (nodes : list CanvasNode.t)
    (connections : list Connection.t) (c : Connection.t) :
  In c connections ->
  ~ In (Connection.targetNodeId c) (map CanvasNode.id nodes) ->
  In (Connection.targetNodeId c) JsObject.objectPrototypeKeys ->
  analyzeFlow nodes connections = Throw.
Proof.
  intros Hc Ht Hkey. unfold analyzeFlow.
  rewrite (buildDependencies_throws nodes connections c Hc Ht Hkey).
  reflexivity.
Qed.
(** A graph whose connections all go up along a ranking has no cycle. *)
Lemma ranked_acyclic (connections : list Connection.t) (rank : string -> nat) :
  (forall c, In c connections ->
             rank (Connection.sourceNodeId c) < rank (Connection.targetNodeId c)) ->
  acyclic connections.
Proof.
  intros Hrank.
  assert (forall x y, tc (edge connections) x y -> rank x < rank y) as Hlt.
  { intros x y Hxy. induction Hxy as [x y (c & Hc & <- & <-)|x y z (c & Hc & <- & <-) _ IH].
    - apply Hrank, Hc.
    - pose proof (Hrank c Hc). lia. }
  intros x Hx. apply Hlt in Hx. lia.
Qed.

(** C1.  [analyzeFlow] raises as soon as some connection ends at a node of
    the snapshot and starts at an id that is not one: the source id is
    pushed under the target, and [visit] later reads [dependencies[source]],
    which is not an array. *)
Theorem analyzeFlow_throws_on_dangling_source
    (nodes : list CanvasNode.t) (connections : list Connection.t)
    (c : Connection.t) :
  In c connections ->
  In (Connection.targetNodeId c) (map CanvasNode.id nodes) ->
  ~ In (Connection.sourceNodeId c) (map CanvasNode.id nodes) ->
  analyzeFlow nodes connections = Throw.
Proof.
  intros Hc Ht Hs. unfold analyzeFlow.
  pose proof (buildDependencies_budget nodes connections) as Hb.
  destruct (buildDependencies nodes connections) as [deps| |] eqn:Hdeps;
    simpl; [|reflexivity|contradiction].
  rewrite (topologicalSort_dangling nodes connections deps c Hdeps Hc Ht Hs).
  reflexivity.
Qed.

(** C10.  [analyzeFlow] raises, instead of returning an order, as soon as
    some connection ends at an id that is not a node and names a property
    of [Object.prototype], whether or not the sources resolve: the guard
    [if (dependencies[target])] reads the inherited value, which is truthy,
    and [push] is not a function of it. *)
Theorem analyzeFlow_throws_on_inherited_target
    (nodes : list CanvasNode.t) (connections : list Connection.t)
    (c : Connection.t) :
  In c connections ->
  ~ In (Connection.targetNodeId c) (map CanvasNode.id nodes) ->
  In (Connection.targetNodeId c) JsObject.objectPrototypeKeys ->
  analyzeFlow nodes connections = Throw.
Proof.
  intros Hc Ht Hkey. unfold analyzeFlow.
  rewrite (buildDependencies_throws nodes connections c Hc Ht Hkey).
  reflexivity.
Qed.

(** X20.  When every connection starts at a node of the snapshot and ends at
    a node or at an id that names no built-in property, [analyzeFlow] returns
    and every node id occurs exactly once in its execution order, which
    holds nothing else; it is a permutation of the node ids when these are
    distinct. *)
Theorem analyzeFlow_order_permutation
    (nodes : list CanvasNode.t) (connections : list Connection.t) :
  sourcesResolve nodes connections ->
  targetsPlain nodes connections ->
  exists fa,
    analyzeFlow nodes connections = Ok fa /\
    (forall x, In x (map CanvasNode.id nodes) ->
               count_occ String.string_dec (FlowAnalysis.executionOrder fa) x = 1) /\
    (forall x, In x (FlowAnalysis.executionOrder fa) ->
               In x (map CanvasNode.id nodes)) /\
    (NoDup (map CanvasNode.id nodes) ->
     Permutation (map CanvasNode.id nodes) (FlowAnalysis.executionOrder fa)).
Proof.
  intros Hres Hplain.
  destruct (analyzeFlow_returns nodes connections Hplain
              (sourcesResolve_danglingFree _ _ Hres))
    as (fa & Hfa & _ & _ & Hnodup & Hin).
  exists fa. split; [exact Hfa|]. split; [|split].
  - intros x Hx. apply Hin in Hx. apply NoDup_ListNoDup in Hnodup.
    apply (proj1 (NoDup_count_occ' String.string_dec _) Hnodup x Hx).
  - intros x Hx. apply Hin. exact Hx.
  - intros Hids. apply NoDup_Permutation; [exact Hids | exact Hnodup |].
    intros x. rewrite !list_elem_of_In. symmetry. apply Hin.
Qed.

(** C6.  In an acyclic graph whose connections all start and end at nodes of
    the snapshot, [analyzeFlow] returns and, for every connection, the
    source comes before the target in the execution order. *)
Theorem analyzeFlow_order_respects_connections
    (nodes : list CanvasNode.t) (connections : list Connection.t) :
  acyclic connections ->
  sourcesResolve nodes connections ->
  targetsResolve nodes connections ->
  exists fa,
    analyzeFlow nodes connections = Ok fa /\
    forall c, In c connections ->
              appearsBefore (Connection.sourceNodeId c) (Connection.targetNodeId c)
                            (FlowAnalysis.executionOrder fa).
Proof.
  intros Hacyc Hsrc Htgt.
  destruct (analyzeFlow_returns nodes connections
              (targetsResolve_targetsPlain _ _ Htgt)
              (sourcesResolve_danglingFree _ _ Hsrc))
    as (fa & Hfa & Hdeps & Hsort & _ & Hin).
  exists fa. split; [exact Hfa|].
  pose proof (post_of_Ok _ _ _ _ _ Hsort
                (topologicalSort_ordered _ _ (edge connections)
                   (fun v ds d => buildDependencies_edge nodes connections _ v d ds
                                    Hdeps)
                   Hacyc)) as Hord.
  intros c Hc.
  assert (In (Connection.targetNodeId c) (FlowAnalysis.executionOrder fa)) as Ht
    by (apply Hin, Htgt, Hc).
  apply in_split in Ht as (l1 & l3 & Heq).
  assert (In (Connection.sourceNodeId c) l1) as Hs.
  { eapply (Hord l1 _ l3 _ _ Heq).
    - rewrite (buildDependencies_lookup _ _ _ Hdeps), decide_True; [reflexivity|].
      apply list_elem_of_In, Htgt, Hc.
    - apply in_map. apply incomingOf_In. auto. }
  apply in_split in Hs as (l0 & l2 & ->).
  exists l0, l2, l3. rewrite Heq, <- app_assoc. reflexivity.
Qed.
(* ================================================================= *)
(** * The ordering traversal of the lowering pass *)

Lemma findNode_Some (nodes : list CanvasNode.t) (x : string) (node : CanvasNode.t) :
  findNode nodes x = Some node -> CanvasNode.id node = x /\ In node nodes.
Proof.
  intros H. apply find_some in H as [Hin Heq].
  apply String.eqb_eq in Heq. auto.
Qed.

Lemma findNode_In (nodes : list CanvasNode.t) (x : string) :
  In x (map CanvasNode.id nodes) -> exists node, findNode nodes x = Some node.
Proof.
  intros Hx. apply in_map_iff in Hx as (node & Hid & Hin).
  destruct (findNode nodes x) as [node'|] eqn:E; [eauto|].
  pose proof (find_none _ _ E node Hin) as Hf. simpl in Hf.
  rewrite Hid, String.eqb_refl in Hf. discriminate.
Qed.

Lemma behavioralNames_snoc (nodes : list CanvasNode.t) (l : list string) (x : string) :
  behavioralNames nodes (l ++ [x])
  = behavioralNames nodes l ++
    match findNode nodes x with
    | Some node => if isAccount node then [] else [CanvasNode.name node]
    | None => []
    end.
Proof.
  unfold behavioralNames. rewrite flat_map_app. simpl. rewrite app_nil_r. reflexivity.
Qed.

Section FlowVisit.
Variable nodes : list CanvasNode.t.
Variable connections : list Connection.t.

Lemma flow_visit_S (fuel : nat) (n : string) (st : Flow.state) :
  Flow.visit (S fuel) nodes connections n st
  = if bool_decide (n ∈ Flow.visiting st) then Ok st
    else if bool_decide (n ∈ Flow.visited st) then Ok st
    else
      let st1 := Flow.mk (Flow.visited st) ({[n]} ∪ Flow.visiting st)
                         (Flow.executionOrder st) in
      do st2 <-
        match findNode nodes n with
        | Some node =>
          if negb (isAccount node) then
            do st' <- forEach
                       (fun conn => Flow.visit fuel nodes connections
                                               (Connection.sourceNodeId conn))
                       (incomingOf connections n) st1;
            Ok (Flow.mk (Flow.visited st') (Flow.visiting st')
                        (Flow.executionOrder st' ++ [CanvasNode.name node]))
          else Ok st1
        | None => Ok st1
        end;
      Ok (Flow.mk ({[n]} ∪ Flow.visited st2) (Flow.visiting st2 ∖ {[n]})
                  (Flow.executionOrder st2)).
Proof. reflexivity. Qed.

Variable deps : JsObject.t.
Hypothesis Hdeps : buildDependencies nodes connections = Ok deps.
Hypothesis Haccount : noAccountTarget nodes connections.

(** Wherever the analyzer's [visit] returns, the lowering pass's [visit]
    returns from a related state into a related state. *)
Lemma flow_visit_sim (fuel : nat) :
  forall n sa sg sa',
    flow_rel nodes sa sg ->
    Topo.visit fuel deps n sa = Ok sa' ->
    exists sg',
      Flow.visit fuel nodes connections n sg = Ok sg' /\ flow_rel nodes sa' sg'.
Proof.
  induction fuel as [|fuel IH]; intros n sa sg sa' (Hed & Hing & Hord) Hrun;
    [discriminate|].
  rewrite topo_visit_S in Hrun. rewrite flow_visit_S, Hed, Hing.
  case_bool_decide as Hn1.
  { injection Hrun as <-. exists sg. repeat split; assumption. }
  case_bool_decide as Hn2.
  { injection Hrun as <-. exists sg. repeat split; assumption. }
  rewrite (buildDependencies_lookup _ _ _ Hdeps) in Hrun.
  destruct (decide (n ∈ map CanvasNode.id nodes)) as [Hin|Hin]; [|discriminate].
  apply list_elem_of_In, findNode_In in Hin as [node Hnode].
  cbv zeta. rewrite Hnode.
  destruct (isAccount node) eqn:Hacc; simpl negb; cbv iota.
  - assert (incomingOf connections n = []) as Hnil.
    { destruct (incomingOf connections n) as [|c l] eqn:E; [reflexivity|].
      assert (In c (incomingOf connections n)) as Hc by (rewrite E; left; reflexivity).
      apply incomingOf_In in Hc as [Hc Ht].
      rewrite <- Ht in Hnode. rewrite (Haccount c node Hc Hnode) in Hacc. discriminate. }
    rewrite Hnil in Hrun. simpl in Hrun. injection Hrun as <-.
    simpl. eexists. split; [reflexivity|]. unfold flow_rel. simpl.
    rewrite behavioralNames_snoc, Hnode, Hacc, app_nil_r. auto.
  - destruct (forEach (Topo.visit fuel deps)
                      (map Connection.sourceNodeId (incomingOf connections n)) _)
      as [sa2| |] eqn:Eloop; simpl in Hrun; try discriminate.
    injection Hrun as <-.
    assert (flow_rel nodes
              (Topo.mk (Topo.visited sa) ({[n]} ∪ Topo.visiting sa) (Topo.result sa))
              (Flow.mk (Topo.visited sa) ({[n]} ∪ Topo.visiting sa)
                       (Flow.executionOrder sg))) as HR1
      by (repeat split; simpl; auto).
    destruct (forEach_sim Connection.sourceNodeId
                (Topo.visit fuel deps)
                (fun conn => Flow.visit fuel nodes connections
                                        (Connection.sourceNodeId conn))
                (flow_rel nodes) (incomingOf connections n)
                (fun b sa0 sg0 sa1 _ HR Hb => IH _ sa0 sg0 sa1 HR Hb)
                _ _ sa2 HR1 Eloop)
      as (sg2 & Hloop & Hed2 & Hing2 & Hord2).
    rewrite Hloop. simpl.
    eexists. split; [reflexivity|]. unfold flow_rel. simpl.
    rewrite behavioralNames_snoc, Hnode, Hacc, Hed2, Hing2, Hord2. auto.
Qed.

End FlowVisit.

(** The order computed by [analyzeProgramFlow] is the analyzer's order
    restricted to the behavioral nodes, by name. *)
Lemma analyzeProgramFlow_order (nodes : list CanvasNode.t)
    (connections : list Connection.t) (deps : JsObject.t) (order : list string) :
  buildDependencies nodes connections = Ok deps ->
  noAccountTarget nodes connections ->
  topologicalSort (map CanvasNode.id nodes) deps = Ok order ->
  exists pf,
    analyzeProgramFlow nodes connections = Ok pf /\
    ProgramFlow.executionOrder pf = behavioralNames nodes order.
Proof.
  intros Hdeps Hacc Hsort. unfold topologicalSort in Hsort.
  destruct (forEach _ (map CanvasNode.id nodes) Topo.init) as [sa| |] eqn:Eloop;
    simpl in Hsort; try discriminate.
  injection Hsort as <-. rewrite length_map in Eloop.
  destruct (forEach_sim CanvasNode.id
              (Topo.visit (S (length nodes)) deps)
              (fun node => Flow.visit (S (length nodes)) nodes connections
                                      (CanvasNode.id node))
              (flow_rel nodes) nodes
              (fun b sa0 sg0 sa1 _ HR Hb =>
                 flow_visit_sim nodes connections deps Hdeps Hacc _ _ sa0 sg0 sa1
                                HR Hb)
              Topo.init Flow.init sa
              (conj eq_refl (conj eq_refl eq_refl)) Eloop)
    as (sg & Hloop & _ & _ & Hord).
  unfold analyzeProgramFlow. rewrite Hloop. simpl.
  eexists. split; [reflexivity|]. exact Hord.
Qed.

Section FlowBudget.
Variable nodes : list CanvasNode.t.
Variable connections : list Connection.t.

(** The lowering pass's [visit] never raises and never exhausts its budget:
    it descends only below nodes of the snapshot, each at most once on a
    path. *)
Lemma flow_visit_budget (fuel : nat) :
  forall n st,
    Flow.visiting st ⊆ list_to_set (map CanvasNode.id nodes) ->
    size (list_to_set (map CanvasNode.id nodes) : gset string)
    < fuel + size (Flow.visiting st) ->
    post (fun st' => Flow.visiting st' = Flow.visiting st) False False
         (Flow.visit fuel nodes connections n st).
Proof.
  induction fuel as [|fuel IH]; intros n st Hsub Hsize.
  - apply subseteq_size in Hsub. lia.
  - rewrite flow_visit_S.
    case_bool_decide as Hing; [reflexivity|].
    case_bool_decide as Hed; [reflexivity|].
    cbv zeta. apply post_bind.
    destruct (findNode nodes n) as [node|] eqn:Hnode;
      [destruct (isAccount node); simpl negb; cbv iota|]; simpl;
      try set_solver.
    apply findNode_Some in Hnode as [Hid Hin].
    assert (n ∈ (list_to_set (map CanvasNode.id nodes) : gset string)) as Hn.
    { apply elem_of_list_to_set, list_elem_of_In. rewrite <- Hid. apply in_map, Hin. }
    apply post_bind.
    eapply post_mono;
      [ | | | apply (forEach_post _
                (fun _ s => Flow.visiting s = {[n]} ∪ Flow.visiting st) False False) ];
      auto.
    + intros st2 H2. simpl. rewrite H2. set_solver.
    + intros pre c suf s0 _ Hs0.
      assert (Flow.visiting s0 ⊆ list_to_set (map CanvasNode.id nodes)) as Hsub0
        by (rewrite Hs0; set_solver).
      assert (size (list_to_set (map CanvasNode.id nodes) : gset string)
              < fuel + size (Flow.visiting s0)) as Hsize0.
      { rewrite Hs0, size_union, size_singleton by set_solver. lia. }
      eapply post_mono;
        [ | | | apply (IH (Connection.sourceNodeId c) s0 Hsub0 Hsize0) ]; auto.
      intros s1 H1. simpl in H1. congruence.
Qed.

Lemma analyzeProgramFlow_returns :
  exists pf, analyzeProgramFlow nodes connections = Ok pf.
Proof.
  unfold analyzeProgramFlow.
  assert (post (fun st => Flow.visiting st = ∅) False False
               (forEach (fun node => Flow.visit (S (length nodes)) nodes connections
                                                (CanvasNode.id node))
                        nodes Flow.init)) as Hloop.
  { apply (forEach_post _ (fun _ st => Flow.visiting st = ∅)); [reflexivity|].
    intros pre node suf s0 _ Hv0.
    eapply post_mono; [ | | | apply flow_visit_budget ]; auto.
    - intros s1 H1. simpl in H1. congruence.
    - rewrite Hv0. set_solver.
    - rewrite Hv0, size_empty.
      pose proof (size_list_to_set_le (map CanvasNode.id nodes)) as Hle.
      rewrite length_map in Hle. lia. }
  destruct (forEach _ nodes Flow.init) as [st| |]; simpl in *;
    [eauto | contradiction | contradiction].
Qed.

End FlowBudget.

Lemma mapM_returns {A B : Type} (f : A -> outcome B) (l : list A) :
  (forall a, In a l -> exists b, f a = Ok b) -> exists bs, mapM f l = Ok bs.
Proof.
  induction l as [|a l IH]; intros H; simpl; [eauto|].
  destruct (H a (or_introl eq_refl)) as [b ->].
  destruct IH as [bs ->]; [intros; apply H; right; assumption|].
  simpl. eauto.
Qed.

Lemma mapM_budget {A B : Type} (f : A -> outcome B) (l : list A) :
  (forall a, In a l -> f a <> OutOfFuel) -> mapM f l <> OutOfFuel.
Proof.
  induction l as [|a l IH]; intros H; simpl; [discriminate|].
  pose proof (H a (or_introl eq_refl)) as Ha.
  destruct (f a); simpl; try congruence.
  assert (mapM f l <> OutOfFuel) as Hl by (apply IH; intros; apply H; right; assumption).
  destruct (mapM f l); simpl; congruence.
Qed.

(** The integration test reads the connections only to see whether there
    are any: the sequence it iterates is the list of behavioral nodes as
    given. *)
Lemma generateIntegrationTests_ignores_connections
    (instructionNodes : list CanvasNode.t)
    (c c' : Connection.t) (cs cs' : list Connection.t) :
  generateIntegrationTests instructionNodes (c :: cs)
  = generateIntegrationTests instructionNodes (c' :: cs').
Proof. reflexivity. Qed.

Section LoweringFacts.
Variable toLowerCase : string -> string.
Variable toUpperCase : string -> string.
Variable replaceWhitespace : string -> string -> string.

Lemma keepAccounts_resolved (l : list (option CanvasNode.t)) (n : option CanvasNode.t) :
  In n (keepAccounts l) -> exists node, n = Some node.
Proof.
  unfold keepAccounts. rewrite filter_In. intros [_ H].
  destruct n; [eauto | discriminate].
Qed.

Lemma generateInstruction_budget (node : CanvasNode.t)
    (connections : list Connection.t) (allNodes : list CanvasNode.t) :
  generateInstruction toLowerCase replaceWhitespace node connections allNodes
  <> OutOfFuel.
Proof.
  unfold generateInstruction. cbv zeta.
  match goal with
  | |- bind ?m _ <> _ =>
    assert (m <> OutOfFuel) as H1
      by (apply mapM_budget; intros [?|] _; discriminate);
    destruct m; simpl; try congruence
  end.
  match goal with
  | |- bind ?m _ <> _ =>
    assert (m <> OutOfFuel) as H2
      by (apply mapM_budget; intros [?|] _; discriminate);
    destruct m; simpl; congruence
  end.
Qed.

(** [generateInstruction] returns when the sources of all connections are
    nodes of the snapshot. *)
Lemma generateInstruction_returns (node : CanvasNode.t)
    (connections : list Connection.t) (allNodes : list CanvasNode.t) :
  sourcesResolve allNodes connections ->
  exists text,
    generateInstruction toLowerCase replaceWhitespace node connections allNodes
    = Ok text.
Proof.
  intros Hres. unfold generateInstruction. cbv zeta.
  match goal with
  | |- exists _, bind ?m _ = _ =>
    destruct (mapM_returns (structNameOfOpt replaceWhitespace)
                (keepAccounts
                   (map (fun conn => findNode allNodes (Connection.sourceNodeId conn))
                        (incomingOf connections (CanvasNode.id node)))))
      as [accounts ->]
  end.
  { intros n Hn. apply keepAccounts_resolved in Hn as [n' ->]. simpl. eauto. }
  simpl.
  match goal with
  | |- exists _, bind ?m _ = _ =>
    destruct (mapM_returns nameOf
                (keepNonAccounts
                   (map (fun conn => findNode allNodes (Connection.sourceNodeId conn))
                        (incomingOf connections (CanvasNode.id node)))))
      as [instrs ->]
  end.
  { intros n Hn. unfold keepNonAccounts in Hn. apply filter_In in Hn as [Hn _].
    apply in_map_iff in Hn as (c & <- & Hc). apply incomingOf_In in Hc as [Hc _].
    destruct (findNode_In allNodes _ (Hres c Hc)) as [n' ->]. simpl. eauto. }
  simpl. eauto.
Qed.

(** Every call of [generateAnchorCode] returns or raises. *)
Lemma generateAnchorCode_budget (nodes : list CanvasNode.t)
    (connections : list Connection.t) :
  generateAnchorCode toLowerCase toUpperCase replaceWhitespace nodes connections
  <> OutOfFuel.
Proof.
  unfold generateAnchorCode. cbv zeta.
  destruct (analyzeProgramFlow_returns nodes connections) as [pf ->]. simpl.
  match goal with
  | |- bind ?m _ <> _ =>
    assert (m <> OutOfFuel) as H
      by (apply mapM_budget; intros; apply generateInstruction_budget);
    destruct m; simpl; congruence
  end.
Qed.

Lemma generateAnchorCode_returns (nodes : list CanvasNode.t)
    (connections : list Connection.t) :
  sourcesResolve nodes connections ->
  exists g pf,
    generateAnchorCode toLowerCase toUpperCase replaceWhitespace nodes connections
    = Ok g /\
    analyzeProgramFlow nodes connections = Ok pf /\
    GeneratedCode.programFlow g = pf.
Proof.
  intros Hres. unfold generateAnchorCode. cbv zeta.
  destruct (analyzeProgramFlow_returns nodes connections) as [pf Hpf].
  rewrite Hpf. simpl.
  match goal with
  | |- exists _ _, bind ?m _ = _ /\ _ =>
    destruct (mapM_returns
                (fun node => generateInstruction toLowerCase replaceWhitespace
                                                 node connections nodes)
                (List.filter (fun node => negb (isAccount node)) nodes))
      as [texts ->]
  end.
  { intros node _. apply generateInstruction_returns, Hres. }
  simpl. eexists. exists pf. split; [reflexivity|]. split; reflexivity.
Qed.

(** C2, as amended.  For an acyclic snapshot whose connections all start at
    nodes of the snapshot and end at a node or at an id that names no
    built-in property, and none of whose connections ends at an account
    node, both [analyzeFlow] and [generateAnchorCode] return, and the
    analyzer's execution order, restricted to the behavioral nodes and
    mapped to their names, is the lowering pass's execution order.  (The
    proof does not use acyclicity.) *)
Theorem executionOrder_agreement
    (nodes : list CanvasNode.t) (connections : list Connection.t) :
  acyclic connections ->
  sourcesResolve nodes connections ->
  targetsPlain nodes connections ->
  noAccountTarget nodes connections ->
  exists fa g,
    analyzeFlow nodes connections = Ok fa /\
    generateAnchorCode toLowerCase toUpperCase replaceWhitespace nodes connections
    = Ok g /\
    behavioralNames nodes (FlowAnalysis.executionOrder fa)
    = ProgramFlow.executionOrder (GeneratedCode.programFlow g).
Proof.
  intros _ Hres Hplain Hacc.
  destruct (analyzeFlow_returns nodes connections Hplain
              (sourcesResolve_danglingFree _ _ Hres))
    as (fa & Hfa & Hdeps & Hsort & _).
  destruct (analyzeProgramFlow_order nodes connections _ _ Hdeps Hacc Hsort)
    as (pf & Hpf & Horder).
  destruct (generateAnchorCode_returns nodes connections Hres)
    as (g & pf' & Hg & Hpf' & Hflow).
  exists fa, g. split; [exact Hfa|]. split; [exact Hg|].
  rewrite Hflow. rewrite Hpf in Hpf'. injection Hpf' as <-.
  symmetry. exact Horder.
Qed.

End LoweringFacts.

(* ================================================================= *)
(** * Independence of the depth budget *)

(** A run that does not exhaust its budget is the same under any larger
    budget: what the traversals return or raise is not an artefact of the
    budget they are given. *)

Lemma forEach_ext_budget {A S : Type} (f g : A -> S -> outcome S) (l : list A) :
  (forall a s, f a s <> OutOfFuel -> g a s = f a s) ->
  forall s, forEach f l s <> OutOfFuel -> forEach g l s = forEach f l s.
Proof.
  intros Hext. induction l as [|a l IH]; intros s Hrun; simpl in *; [reflexivity|].
  destruct (f a s) as [s1| |] eqn:E; simpl in *; try congruence;
    rewrite (Hext a s) by congruence; rewrite E; simpl; auto.
Qed.

Lemma bind_budget {A B : Type} (m : outcome A) (k : A -> outcome B) :
  bind m k <> OutOfFuel -> m <> OutOfFuel.
Proof. destruct m; simpl; congruence. Qed.

Lemma topo_visit_budget_mono (deps : JsObject.t) (fuel : nat) :
  forall fuel' n st,
    fuel <= fuel' ->
    Topo.visit fuel deps n st <> OutOfFuel ->
    Topo.visit fuel' deps n st = Topo.visit fuel deps n st.
Proof.
  induction fuel as [|fuel IH]; intros fuel' n st Hle Hrun;
    [exfalso; apply Hrun; reflexivity|].
  destruct fuel' as [|fuel']; [lia|].
  rewrite !topo_visit_S in *.
  case_bool_decide; [reflexivity|]. case_bool_decide; [reflexivity|].
  destruct (deps !! n) as [ds|]; [|reflexivity].
  apply bind_budget in Hrun.
  rewrite (forEach_ext_budget (Topo.visit fuel deps) (Topo.visit fuel' deps));
    [reflexivity | | exact Hrun].
  intros a s Ha. apply IH; [lia | exact Ha].
Qed.

Lemma cyc_visit_budget_mono (deps : JsObject.t) (fuel : nat) :
  forall fuel' n path st,
    fuel <= fuel' ->
    Cyc.visit fuel deps n path st <> OutOfFuel ->
    Cyc.visit fuel' deps n path st = Cyc.visit fuel deps n path st.
Proof.
  induction fuel as [|fuel IH]; intros fuel' n path st Hle Hrun;
    [exfalso; apply Hrun; reflexivity|].
  destruct fuel' as [|fuel']; [lia|].
  rewrite !cyc_visit_S in *.
  case_bool_decide; [reflexivity|]. case_bool_decide; [reflexivity|].
  destruct (deps !! n) as [ds|]; [|reflexivity].
  apply bind_budget in Hrun.
  rewrite (forEach_ext_budget
             (fun dep => Cyc.visit fuel deps dep (path ++ [n]))
             (fun dep => Cyc.visit fuel' deps dep (path ++ [n])));
    [reflexivity | | exact Hrun].
  intros a s Ha. apply IH; [lia | exact Ha].
Qed.

Lemma flow_visit_budget_mono (nodes : list CanvasNode.t)
    (connections : list Connection.t) (fuel : nat) :
  forall fuel' n st,
    fuel <= fuel' ->
    Flow.visit fuel nodes connections n st <> OutOfFuel ->
    Flow.visit fuel' nodes connections n st = Flow.visit fuel nodes connections n st.
Proof.
  induction fuel as [|fuel IH]; intros fuel' n st Hle Hrun;
    [exfalso; apply Hrun; reflexivity|].
  destruct fuel' as [|fuel']; [lia|].
  rewrite !flow_visit_S in *.
  case_bool_decide; [reflexivity|]. case_bool_decide; [reflexivity|].
  cbv zeta in *. apply bind_budget in Hrun.
  destruct (findNode nodes n) as [node|]; [|reflexivity].
  destruct (negb (isAccount node)); [|reflexivity].
  apply bind_budget in Hrun.
  rewrite (forEach_ext_budget
             (fun conn => Flow.visit fuel nodes connections
                                     (Connection.sourceNodeId conn))
             (fun conn => Flow.visit fuel' nodes connections
                                     (Connection.sourceNodeId conn)));
    [reflexivity | | exact Hrun].
  intros a s Ha. apply IH; [lia | exact Ha].
Qed.

(* ================================================================= *)
(** * The properties on the sample snapshots *)

Lemma chain_acyclic : acyclic Sample.chainConnections.
Proof.
  apply (ranked_acyclic _ Sample.chainRank).
  intros c [<-|[<-|[]]]; unfold Sample.chainRank; simpl; lia.
Qed.

(** A snapshot whose only connection enters [B] from the absent [A]. *)
Lemma analyzeFlow_throws_on_dangling_source_witness :
  analyzeFlow Sample.danglingNodes Sample.danglingConnections = Throw.
Proof.
  apply (analyzeFlow_throws_on_dangling_source Sample.danglingNodes
           Sample.danglingConnections (Sample.conn "A" "B")).
  - left. reflexivity.
  - left. reflexivity.
  - intros [H|[]]. discriminate.
Defined.

(** A node connected to itself, with compatible ports. *)
Lemma validateConnection_self_witness :
  CanvasNode.id (Sample.node "A" "token") = CanvasNode.id (Sample.node "A" "token") /\
  validateConnection (Sample.node "A" "token") (Port.mk "p" "out" "number")
                     (Sample.node "A" "token") (Port.mk "q" "in" "number") []
  = Ok {| isValid := false; error := Some "Cannot connect node to itself" |}.
Proof.
  split; [reflexivity|].
  apply (validateConnection_self (Sample.node "A" "token") (Port.mk "p" "out" "number")
           (Sample.node "A" "token") (Port.mk "q" "in" "number") []).
  reflexivity.
Defined.

(** A second connection into port [q] of [B], already fed by [C]. *)
Lemma validateConnection_fan_in_witness :
  validateConnection (Sample.node "A" "token") (Port.mk "p" "out" "number")
                     (Sample.node "B" "token") (Port.mk "q" "in" "string")
                     [Connection.mk "c1" "C" "B" "r" "q"]
  = Ok {| isValid := false; error := Some "Port already has an input connection" |}.
Proof.
  apply (validateConnection_fan_in (Sample.node "A" "token") (Port.mk "p" "out" "number")
           (Sample.node "B" "token") (Port.mk "q" "in" "string")
           [Connection.mk "c1" "C" "B" "r" "q"]).
  - simpl. discriminate.
  - reflexivity.
  - intros c [<-|[]]. reflexivity.
  - exists (Connection.mk "c1" "C" "B" "r" "q"). simpl. auto.
Defined.

(** A connection from the only node into the id [constructor], which is
    not a node: the source resolves, and the call raises. *)
Lemma analyzeFlow_throws_on_inherited_target_witness :
  sourcesResolve [Sample.node "A" "token"] [Sample.conn "A" "constructor"] /\
  analyzeFlow [Sample.node "A" "token"] [Sample.conn "A" "constructor"] = Throw.
Proof.
  split; [intros c [<-|[]]; simpl; auto|].
  apply (analyzeFlow_throws_on_inherited_target
           [Sample.node "A" "token"] [Sample.conn "A" "constructor"]
           (Sample.conn "A" "constructor")).
  - left. reflexivity.
  - simpl. intros [H|[]]. discriminate H.
  - simpl. auto.
Defined.

(** The execution order of the chain [Y -> A -> X], with one more
    connection from [X] into [Z], which is not a node and is dropped. *)
Lemma analyzeFlow_order_permutation_witness :
  exists fa,
    analyzeFlow Sample.chainNodes (Sample.chainConnections ++ [Sample.conn "X" "Z"])
    = Ok fa /\
    FlowAnalysis.executionOrder fa = ["Y"; "A"; "X"] /\
    Permutation ["X"; "A"; "Y"] (FlowAnalysis.executionOrder fa).
Proof.
  destruct (analyzeFlow_order_permutation Sample.chainNodes
              (Sample.chainConnections ++ [Sample.conn "X" "Z"]))
    as (fa & Hfa & _ & _ & Hperm).
  - intros c [<-|[<-|[<-|[]]]]; simpl; auto 10.
  - intros c [<-|[<-|[<-|[]]]]; [left; simpl; auto 10..|right; reflexivity].
  - exists fa. split; [exact Hfa|]. split.
    + vm_compute in Hfa. injection Hfa as <-. reflexivity.
    + apply Hperm. simpl.
      repeat (apply NoDup_cons_2;
              [rewrite ?elem_of_cons, elem_of_nil;
               intros H; repeat (destruct H as [H|H]; [discriminate H|]); exact H|]).
      apply NoDup_nil_2.
Defined.

(** In the chain [Y -> A -> X], [Y] comes before [A] and [A] before [X]. *)
Lemma analyzeFlow_order_respects_connections_witness :
  exists fa,
    analyzeFlow Sample.chainNodes Sample.chainConnections = Ok fa /\
    appearsBefore "Y" "A" (FlowAnalysis.executionOrder fa) /\
    appearsBefore "A" "X" (FlowAnalysis.executionOrder fa).
Proof.
  destruct (analyzeFlow_order_respects_connections
              Sample.chainNodes Sample.chainConnections) as (fa & Hfa & Hbefore).
  - apply (ranked_acyclic _ Sample.chainRank).
    intros c [<-|[<-|[]]]; unfold Sample.chainRank; simpl; lia.
  - intros c [<-|[<-|[]]]; simpl; auto 10.
  - intros c [<-|[<-|[]]]; simpl; auto 10.
  - exists fa. split; [exact Hfa|]. split.
    + apply (Hbefore (Sample.conn "Y" "A")). simpl. auto.
    + apply (Hbefore (Sample.conn "A" "X")). simpl. auto.
Defined.

(** The two orders differ on the chain [Y -> A -> X] listed as [X; A; Y]:
    the analyzer walks through the account node and orders [Y] before [X],
    the lowering pass stops at the account node and orders [X] before [Y]. *)
Lemma executionOrder_disagrees_through_account :
  acyclic Sample.chainConnections /\
  exists fa g,
    analyzeFlow Sample.chainNodes Sample.chainConnections = Ok fa /\
    Sample.generate Sample.chainNodes Sample.chainConnections = Ok g /\
    behavioralNames Sample.chainNodes (FlowAnalysis.executionOrder fa) = ["Y"; "X"] /\
    ProgramFlow.executionOrder (GeneratedCode.programFlow g) = ["X"; "Y"] /\
    behavioralNames Sample.chainNodes (FlowAnalysis.executionOrder fa)
    <> ProgramFlow.executionOrder (GeneratedCode.programFlow g).
Proof.
  split; [exact chain_acyclic|].
  destruct (analyzeFlow Sample.chainNodes Sample.chainConnections) as [fa| |] eqn:Ea;
    vm_compute in Ea; try discriminate.
  destruct (Sample.generate Sample.chainNodes Sample.chainConnections) as [g| |] eqn:Eg;
    vm_compute in Eg; try discriminate.
  exists fa, g. injection Ea as <-. injection Eg as <-.
  split; [reflexivity|]. split; [reflexivity|].
  split; [vm_compute; reflexivity|]. split; [reflexivity|].
  vm_compute. discriminate.
Qed.

(** The two orders agree on the vault sample. *)
Lemma executionOrder_agreement_witness :
  exists fa g,
    analyzeFlow Sample.vaultNodes Sample.vaultConnections = Ok fa /\
    Sample.generate Sample.vaultNodes Sample.vaultConnections = Ok g /\
    behavioralNames Sample.vaultNodes (FlowAnalysis.executionOrder fa)
    = ProgramFlow.executionOrder (GeneratedCode.programFlow g).
Proof.
  apply (executionOrder_agreement Sample.toLowerCase Sample.toUpperCase
           Sample.replaceWhitespace Sample.vaultNodes Sample.vaultConnections).
  - apply (ranked_acyclic _ Sample.vaultRank).
    intros c [<-|[<-|[]]]; unfold Sample.vaultRank; simpl; lia.
  - intros c [<-|[<-|[]]]; simpl; auto 10.
  - intros c [<-|[<-|[]]]; left; simpl; auto 10.
  - intros c node [<-|[<-|[]]] H; vm_compute in H; injection H as <-; reflexivity.
Defined.

(** C3.  On [Y -> X] listed as [X; Y] the execution order is [Y; X], but the
    sequence iterated by the emitted integration test is [X; Y], the order
    in which the behavioral nodes are listed. *)
Theorem integration_test_lists_input_order :
  exists g,
    Sample.generate Sample.pairNodes Sample.pairConnections = Ok g /\
    ProgramFlow.executionOrder (GeneratedCode.programFlow g) = ["Y"; "X"] /\
    String.index 0 ("const executionOrder = [" +:+ dq +:+ "X" +:+ dq +:+ ", "
                    +:+ dq +:+ "Y" +:+ dq +:+ "];")
                 (GeneratedCode.tests g) <> None /\
    String.index 0 ("const executionOrder = [" +:+ dq +:+ "Y" +:+ dq +:+ ", "
                    +:+ dq +:+ "X" +:+ dq +:+ "];")
                 (GeneratedCode.tests g) = None.
Proof.
  destruct (Sample.generate Sample.pairNodes Sample.pairConnections) as [g| |] eqn:Eg;
    vm_compute in Eg; try discriminate.
  exists g. injection Eg as <-.
  split; [reflexivity|]. split; [reflexivity|].
  split; vm_compute; [discriminate | reflexivity].
Qed.
(* ================================================================= *)
(** * Further properties of the validator *)

Lemma sameEndpoints_describes
    (sourceNode : CanvasNode.t) (sourcePort : Port.t)
    (targetNode : CanvasNode.t) (targetPort : Port.t) (c : Connection.t) :
  sameEndpoints sourceNode sourcePort targetNode targetPort c = true
  <-> describes sourceNode sourcePort targetNode targetPort c.
Proof.
  unfold sameEndpoints, describes.
  rewrite !andb_true_iff, !String.eqb_eq. tauto.
Qed.

Lemma sameTarget_targetEnd (targetNode : CanvasNode.t) (targetPort : Port.t)
    (c : Connection.t) :
  sameTarget targetNode targetPort c = true
  <-> targetEnd c = (CanvasNode.id targetNode, Port.id targetPort).
Proof.
  unfold sameTarget, targetEnd.
  rewrite andb_true_iff, !String.eqb_eq. split.
  - intros [-> ->]. reflexivity.
  - intros H. injection H as -> ->. auto.
Qed.

Lemma incompatible_reason_head (s : string) :
  "Incompatible types: " +:+ s = String "I" ("ncompatible types: " +:+ s).
Proof. reflexivity. Qed.

(** X1.  The outcome of a proposal is decided by the first rule that fails,
    in the order self-connection, types, duplicate, fan-in: each reason is
    reported exactly when its rule is the first to fail, the proposal is
    accepted exactly when none fails, and the call raises exactly when the
    nodes differ and the type check raises, that is, when the source type
    names a property of [Object.prototype] and neither type is ["any"] nor
    are they equal. *)
Theorem validateConnection_reasons
    (sourceNode : CanvasNode.t) (sourcePort : Port.t)
    (targetNode : CanvasNode.t) (targetPort : Port.t)
    (existingConnections : list Connection.t) :
  let m := validateConnection sourceNode sourcePort targetNode targetPort
                              existingConnections in
  let distinctNodes : Prop :=
    CanvasNode.id sourceNode <> CanvasNode.id targetNode in
  let check := areTypesCompatible (Port.type sourcePort) (Port.type targetPort) in
  let stored : Prop :=
    exists c, In c existingConnections /\
              describes sourceNode sourcePort targetNode targetPort c in
  let bound : Prop :=
    exists c, In c existingConnections /\
              targetEnd c = (CanvasNode.id targetNode, Port.id targetPort) in
  (m = Ok {| isValid := true; error := None |}
   <-> distinctNodes /\ check = Ok true /\ ~ stored /\ ~ bound) /\
  (m = Ok {| isValid := false; error := Some "Cannot connect node to itself" |}
   <-> ~ distinctNodes) /\
  (m = Ok {| isValid := false;
             error := Some ("Incompatible types: " +:+ Port.type sourcePort
                            +:+ " -> " +:+ Port.type targetPort) |}
   <-> distinctNodes /\ check = Ok false) /\
  (m = Ok {| isValid := false; error := Some "Connection already exists" |}
   <-> distinctNodes /\ check = Ok true /\ stored) /\
  (m = Ok {| isValid := false;
             error := Some "Port already has an input connection" |}
   <-> distinctNodes /\ check = Ok true /\ ~ stored /\ bound) /\
  (m = Throw
   <-> distinctNodes /\
       In (Port.type sourcePort) JsObject.objectPrototypeKeys /\
       Port.type sourcePort <> "any" /\ Port.type targetPort <> "any" /\
       Port.type sourcePort <> Port.type targetPort) /\
  m <> OutOfFuel.
Proof.
  cbv zeta. rewrite <- areTypesCompatible_Throw.
  pose proof (areTypesCompatible_budget (Port.type sourcePort)
                                        (Port.type targetPort)) as Hfuel.
  unfold validateConnection.
  destruct (CanvasNode.id sourceNode =? CanvasNode.id targetNode) eqn:Eid.
  { apply String.eqb_eq in Eid. simpl.
    repeat split; first [discriminate | tauto | naive_solver]. }
  apply String.eqb_neq in Eid.
  destruct (areTypesCompatible _ _) as [[|]| |] eqn:Ety; simpl.
  3:{ repeat split; first [discriminate | tauto | naive_solver]. }
  3:{ contradiction. }
  2:{ rewrite incompatible_reason_head.
      repeat split; first [discriminate | tauto | naive_solver]. }
  destruct (List.find (sameEndpoints _ _ _ _) existingConnections) as [d|] eqn:Ed.
  { apply find_some in Ed as [Hd Hdesc]. apply sameEndpoints_describes in Hdesc.
    simpl. rewrite ?incompatible_reason_head.
    repeat split; first [discriminate | tauto | naive_solver]. }
  assert (~ exists c, In c existingConnections /\
                      describes sourceNode sourcePort targetNode targetPort c)
    as Hfresh.
  { intros (c & Hc & Hdesc). apply sameEndpoints_describes in Hdesc.
    rewrite (find_none _ _ Ed c Hc) in Hdesc. discriminate. }
  destruct (List.find (sameTarget _ _) existingConnections) as [d|] eqn:Et.
  { apply find_some in Et as [Hd Htarget]. apply sameTarget_targetEnd in Htarget.
    simpl. rewrite ?incompatible_reason_head.
    repeat split; first [discriminate | tauto | naive_solver]. }
  assert (~ exists c, In c existingConnections /\
                      targetEnd c = (CanvasNode.id targetNode, Port.id targetPort))
    as Hfree.
  { intros (c & Hc & Htarget). apply sameTarget_targetEnd in Htarget.
    rewrite (find_none _ _ Et c Hc) in Htarget. discriminate. }
  simpl. rewrite ?incompatible_reason_head.
  repeat split; first [discriminate | tauto | naive_solver].
Qed.

Lemma validateConnection_accepted
    (sourceNode : CanvasNode.t) (sourcePort : Port.t)
    (targetNode : CanvasNode.t) (targetPort : Port.t)
    (existingConnections : list Connection.t) (r : ValidationResult) :
  validateConnection sourceNode sourcePort targetNode targetPort
                     existingConnections = Ok r ->
  isValid r = true ->
  CanvasNode.id sourceNode <> CanvasNode.id targetNode /\
  areTypesCompatible (Port.type sourcePort) (Port.type targetPort) = Ok true /\
  forall c, In c existingConnections ->
            sameTarget targetNode targetPort c = false.
Proof.
  intros Hr Hv.
  rewrite (proj1 (validateConnection_isValid _ _ _ _ _) r Hr) in Hv.
  unfold passesRules, compatible in Hv.
  rewrite !andb_true_iff, !negb_true_iff in Hv.
  destruct Hv as (((Hid & Hty) & _) & Hfan).
  split; [apply String.eqb_neq, Hid|]. split.
  { destruct (areTypesCompatible _ _) as [[|]| |]; try discriminate. reflexivity. }
  intros c Hc. destruct (sameTarget targetNode targetPort c) eqn:E; [|reflexivity].
  assert (existsb (sameTarget targetNode targetPort) existingConnections = true)
    as Hex by (apply existsb_exists; eauto).
  congruence.
Qed.

(** X2.  Storing an accepted proposal keeps the graph invariants: no input port
    gets a second connection and no connection joins a node to itself. *)
Theorem validateConnection_preserves_invariants
    (sourceNode : CanvasNode.t) (sourcePort : Port.t)
    (targetNode : CanvasNode.t) (targetPort : Port.t)
    (existingConnections : list Connection.t) (c : Connection.t)
    (r : ValidationResult) :
  validateConnection sourceNode sourcePort targetNode targetPort
                     existingConnections = Ok r ->
  isValid r = true ->
  describes sourceNode sourcePort targetNode targetPort c ->
  fanInAtMostOne existingConnections ->
  noSelfLoop existingConnections ->
  fanInAtMostOne (c :: existingConnections) /\
  noSelfLoop (c :: existingConnections).
Proof.
  intros Hr Hvalid (Hsn & Hsp & Htn & Htp) Hfan Hloop.
  destruct (validateConnection_accepted _ _ _ _ _ r Hr Hvalid) as (Hid & _ & Hfree).
  split.
  - unfold fanInAtMostOne. simpl. apply NoDup_cons_2; [|exact Hfan].
    intros Hin. apply list_elem_of_In, in_map_iff in Hin as (d & Hd & Hind).
    pose proof (Hfree d Hind) as Hf. unfold sameTarget in Hf.
    unfold targetEnd in Hd. injection Hd as Hn Hp.
    rewrite Hn, Hp, Htn, Htp, !String.eqb_refl in Hf. discriminate.
  - intros d [<-|Hd]; [congruence | apply Hloop, Hd].
Qed.

(** X3.  Once an accepted proposal is stored, proposing the same edge again is
    rejected as a duplicate, whatever else has been stored meanwhile. *)
Theorem validateConnection_second_proposal
    (sourceNode : CanvasNode.t) (sourcePort : Port.t)
    (targetNode : CanvasNode.t) (targetPort : Port.t)
    (existingConnections stored : list Connection.t) (c : Connection.t)
    (r : ValidationResult) :
  validateConnection sourceNode sourcePort targetNode targetPort
                     existingConnections = Ok r ->
  isValid r = true ->
  describes sourceNode sourcePort targetNode targetPort c ->
  In c stored ->
  validateConnection sourceNode sourcePort targetNode targetPort stored
  = Ok {| isValid := false; error := Some "Connection already exists" |}.
Proof.
  intros Hr Hvalid Hdesc Hc.
  destruct (validateConnection_accepted _ _ _ _ _ r Hr Hvalid) as (Hid & Hty & _).
  unfold validateConnection.
  apply String.eqb_neq in Hid. rewrite Hid, Hty. simpl.
  destruct (List.find (sameEndpoints _ _ _ _) stored) eqn:Ed; [reflexivity|].
  pose proof (find_none _ _ Ed c Hc) as Hf.
  apply sameEndpoints_describes in Hdesc. rewrite Hdesc in Hf. discriminate.
Qed.
(* ================================================================= *)
(** * Further properties of the flow analyzer *)

Lemma analyzeFlow_inv (nodes : list CanvasNode.t) (connections : list Connection.t)
    (fa : FlowAnalysis.t) :
  analyzeFlow nodes connections = Ok fa ->
  buildDependencies nodes connections = Ok (FlowAnalysis.dependencies fa) /\
  topologicalSort (map CanvasNode.id nodes) (FlowAnalysis.dependencies fa)
  = Ok (FlowAnalysis.executionOrder fa) /\
  detectCycles (map CanvasNode.id nodes) (FlowAnalysis.dependencies fa)
  = Ok (FlowAnalysis.cycles fa) /\
  FlowAnalysis.isolatedNodes fa = findIsolatedNodes nodes connections.
Proof.
  unfold analyzeFlow. intros H.
  destruct (buildDependencies nodes connections) as [deps| |]; simpl in H;
    try discriminate.
  destruct (topologicalSort _ _) as [order| |] eqn:Esort; simpl in H;
    try discriminate.
  destruct (detectCycles _ _) as [cycles| |] eqn:Ecyc; simpl in H; try discriminate.
  injection H as <-. simpl. auto.
Qed.

(** X4.  When [analyzeFlow] returns, reading [dependencies[k]] yields, for
    every node id [k], the array of the sources of the connections into that
    node, in the order of the connection list, and yields no array for any
    other [k]: connections into ids that are not nodes are dropped.  The own
    keys of the object are the node ids other than ['__proto__']; the array
    of a node with that id is the prototype of the object. *)
Theorem analyzeFlow_dependencies (nodes : list CanvasNode.t)
    (connections : list Connection.t) (fa : FlowAnalysis.t) :
  analyzeFlow nodes connections = Ok fa ->
  (forall k,
      In k (map CanvasNode.id nodes) ->
      JsObject.get (FlowAnalysis.dependencies fa) k
      = JsObject.Array
          (map Connection.sourceNodeId
               (List.filter (fun c => Connection.targetNodeId c =? k) connections))) /\
  (forall k l,
      ~ In k (map CanvasNode.id nodes) ->
      JsObject.get (FlowAnalysis.dependencies fa) k <> JsObject.Array l) /\
  dom (JsObject.own (FlowAnalysis.dependencies fa))
  = list_to_set (map CanvasNode.id nodes) ∖ {["__proto__"]} /\
  (In "__proto__" (map CanvasNode.id nodes) ->
   JsObject.proto (FlowAnalysis.dependencies fa)
   = Some (map Connection.sourceNodeId
               (List.filter (fun c => Connection.targetNodeId c =? "__proto__")
                            connections))).
Proof.
  intros Hfa. apply analyzeFlow_inv in Hfa as (Hdeps & _).
  pose proof (buildDependencies_lookup _ _ _ Hdeps) as Hlookup.
  pose proof (buildDependencies_own _ _ _ Hdeps) as Hown.
  split; [|split; [|split; [exact Hown|]]].
  - intros k Hk. apply obj_lookup_get. rewrite Hlookup, decide_True; [reflexivity|].
    apply list_elem_of_In, Hk.
  - intros k l Hk Hget. apply obj_lookup_get in Hget.
    rewrite Hlookup, decide_False in Hget; [discriminate|].
    rewrite list_elem_of_In. exact Hk.
  - intros Hk. pose proof (Hlookup "__proto__") as Hp.
    rewrite decide_True in Hp by (apply list_elem_of_In, Hk).
    rewrite obj_lookup_cases in Hp.
    destruct (JsObject.own (FlowAnalysis.dependencies fa) !! "__proto__") eqn:E;
      [|exact Hp].
    exfalso.
    assert ("__proto__" ∈ dom (JsObject.own (FlowAnalysis.dependencies fa)))
      by (apply elem_of_dom; eauto).
    set_solver.
Qed.

Lemma connectedNodes_touched (connections : list Connection.t) (x : string) :
  x ∈ connectedNodes connections <-> touched connections x.
Proof.
  unfold connectedNodes.
  assert (forall acc : gset string,
             x ∈ foldl (fun s connection =>
                          {[Connection.targetNodeId connection]} ∪
                          ({[Connection.sourceNodeId connection]} ∪ s))
                       acc connections
             <-> x ∈ acc \/ touched connections x) as Hgen.
  { induction connections as [|c connections IH]; intros acc; simpl.
    - split; [auto|]. intros [H|(c & [] & _)]. exact H.
    - rewrite IH. unfold touched. split.
      + intros [H|(d & Hd & Hx)].
        * apply elem_of_union in H as [H|H];
            [apply elem_of_singleton in H; right; exists c; simpl; auto|].
          apply elem_of_union in H as [H|H];
            [apply elem_of_singleton in H; right; exists c; simpl; auto | auto].
        * right. exists d. simpl. auto.
      + intros [H|(d & [<-|Hd] & Hx)].
        * left. set_solver.
        * left. destruct Hx as [<-|<-]; set_solver.
        * right. exists d. auto. }
  rewrite Hgen. split; [intros [H|H]; [set_solver | exact H] | auto].
Qed.

(** X5.  The isolated nodes are exactly the node ids that no connection starts or
    ends at, listed in the order of the nodes. *)
Theorem analyzeFlow_isolatedNodes (nodes : list CanvasNode.t)
    (connections : list Connection.t) (fa : FlowAnalysis.t) :
  analyzeFlow nodes connections = Ok fa ->
  (forall x, In x (FlowAnalysis.isolatedNodes fa)
             <-> In x (map CanvasNode.id nodes) /\ ~ touched connections x) /\
  sublist (FlowAnalysis.isolatedNodes fa) (map CanvasNode.id nodes).
Proof.
  intros Hfa. apply analyzeFlow_inv in Hfa as (_ & _ & _ & ->).
  unfold findIsolatedNodes. split.
  - intros x. rewrite !in_map_iff. split.
    + intros (node & <- & Hn). apply list_elem_of_In, list_elem_of_filter in Hn as [Hn Hin].
      split; [exists node; split; [reflexivity | apply list_elem_of_In, Hin]|].
      rewrite <- connectedNodes_touched. exact Hn.
    + intros ((node & <- & Hin) & Hn). exists node. split; [reflexivity|].
      apply list_elem_of_In, list_elem_of_filter. split.
      * rewrite connectedNodes_touched. exact Hn.
      * apply list_elem_of_In, Hin.
  - apply (fmap_sublist CanvasNode.id), sublist_filter.
Qed.


(** Either no connection makes the analyzer raise, or one that does can be
    exhibited. *)
Lemma offending_dec (nodes : list CanvasNode.t) (connections : list Connection.t) :
  (forall c, In c connections -> ~ offending nodes c) \/
  exists c, In c connections /\ offending nodes c.
Proof.
  induction connections as [|c connections IH].
  - left. intros c [].
  - destruct IH as [IH|(c' & Hc' & Hoff)]; [|right; exists c'; simpl; auto].
    assert (offending nodes c \/ ~ offending nodes c) as [Hoff|Hok].
    { unfold offending.
      destruct (in_dec String.string_dec (Connection.targetNodeId c)
                       (map CanvasNode.id nodes)) as [Ht|Ht];
        destruct (in_dec String.string_dec (Connection.sourceNodeId c)
                         (map CanvasNode.id nodes)) as [Hs|Hs];
        destruct (in_dec String.string_dec (Connection.targetNodeId c)
                         JsObject.objectPrototypeKeys) as [Hk|Hk]; tauto. }
    + right. exists c. simpl. auto.
    + left. intros c' [<-|Hc']; [exact Hok | exact (IH c' Hc')].
Qed.

(** X6.  When no node is called ['__proto__'], [analyzeFlow] raises exactly
    when some connection ends outside the snapshot at the name of a
    property of [Object.prototype], or enters a node of the snapshot from
    an id that is not a node; on every other snapshot, cyclic or not, it
    returns an analysis. *)
Theorem analyzeFlow_throws_iff (nodes : list CanvasNode.t)
    (connections : list Connection.t) :
  ~ In "__proto__" (map CanvasNode.id nodes) ->
  (analyzeFlow nodes connections = Throw
   <-> exists c, In c connections /\ offending nodes c) /\
  ((exists fa, analyzeFlow nodes connections = Ok fa)
   <-> forall c, In c connections -> ~ offending nodes c).
Proof.
  intros Hno.
  assert ((exists c, In c connections /\ offending nodes c) ->
          analyzeFlow nodes connections = Throw) as Hthrows.
  { intros (c & Hc & [[Ht Hk]|[Ht Hs]]).
    - exact (analyzeFlow_inherited nodes connections c Hc Ht Hk).
    - exact (analyzeFlow_dangling nodes connections c Hc Ht Hs). }
  assert ((forall c, In c connections -> ~ offending nodes c) ->
          exists fa, analyzeFlow nodes connections = Ok fa) as Hreturns.
  { intros Hok.
    destruct (buildDependencies_returns_object nodes connections Hno)
      as [deps Hdeps].
    { intros c Hc. pose proof (Hok c Hc) as Hc'. unfold offending in Hc'.
      destruct (in_dec String.string_dec (Connection.targetNodeId c)
                       (map CanvasNode.id nodes)) as [Ht|Ht]; [auto|].
      right. intros Hk. apply Hc'. auto. }
    destruct (analyzeFlow_returns_from nodes connections deps Hdeps)
      as (fa & Hfa & _); [|eauto].
    intros c Hc Ht. pose proof (Hok c Hc) as Hc'. unfold offending in Hc'.
    destruct (in_dec String.string_dec (Connection.sourceNodeId c)
                     (map CanvasNode.id nodes)) as [Hs|Hs]; [exact Hs|].
    exfalso. apply Hc'. auto. }
  split; split.
  - intros Hthrow.
    destruct (offending_dec nodes connections) as [Hok|Hex]; [|exact Hex].
    destruct (Hreturns Hok) as [fa Hfa]. congruence.
  - exact Hthrows.
  - intros [fa Hfa] c Hc Hoff.
    rewrite Hthrows in Hfa; [discriminate | eauto].
  - exact Hreturns.
Qed.
(* ================================================================= *)
(** * What [detectCycles] reports *)

Lemma indexOf_first (x : string) (l : list string) :
  In x l ->
  exists l1 l2, l = l1 ++ x :: l2 /\ indexOf x l = Z.of_nat (length l1).
Proof.
  induction l as [|y l IH]; intros Hin; [destruct Hin|].
  simpl. destruct (y =? x) eqn:E.
  - apply String.eqb_eq in E. subst y. exists [], l. auto.
  - destruct Hin as [->|Hin]; [rewrite String.eqb_refl in E; discriminate|].
    destruct (IH Hin) as (l1 & l2 & -> & Hi). rewrite Hi.
    exists (y :: l1), l2. split; [reflexivity|].
    destruct (Z.ltb_spec (Z.of_nat (length l1)) 0); simpl length; lia.
Qed.

Lemma slice_drop (k : nat) (l : list string) : slice (Z.of_nat k) l = drop k l.
Proof.
  unfold slice. destruct (Z.ltb_spec (Z.of_nat k) 0); [lia|].
  rewrite Nat2Z.id. reflexivity.
Qed.

Lemma last_app_cons {A : Type} (l1 l2 : list A) (x d d' : A) :
  List.last (l1 ++ x :: l2) d = List.last (x :: l2) d'.
Proof.
  induction l1 as [|y l1 IH].
  - simpl. revert x. induction l2 as [|z l2 IH2]; intros x; [reflexivity|].
    change (List.last (z :: l2) d = List.last (z :: l2) d'). apply IH2.
  - change (List.last ((y :: l1) ++ x :: l2) d) with
      (match l1 ++ x :: l2 with [] => y | _ => List.last (l1 ++ x :: l2) d end).
    destruct (l1 ++ x :: l2) eqn:E; [destruct l1; discriminate | exact IH].
Qed.

Section CycSound.
Variable deps : JsObject.t.

Lemma linkedChain_app_r (l1 l2 : list string) :
  linkedChain deps (l1 ++ l2) -> linkedChain deps l2.
Proof.
  induction l1 as [|a l1 IH]; [auto|].
  intros H. apply IH. simpl in H.
  destruct (l1 ++ l2) as [|b t]; [exact I | exact (proj2 H)].
Qed.

Lemma linkedChain_snoc (path : list string) (n : string) :
  linkedChain deps path ->
  (path <> [] -> linked deps (List.last path n) n) ->
  linkedChain deps (path ++ [n]).
Proof.
  induction path as [|a path IH]; intros Hchain Hlast; [exact I|].
  destruct path as [|b path].
  - simpl. split; [|exact I]. apply Hlast. discriminate.
  - destruct Hchain as [Hab Hchain].
    change (linked deps a b /\ linkedChain deps ((b :: path) ++ [n])).
    split; [exact Hab|]. apply IH; [exact Hchain|].
    intros _. apply Hlast. discriminate.
Qed.

(** Every path [detectCycles] records is a cycle of the dependency object. *)
Lemma cyc_visit_sound (fuel : nat) :
  forall n path st,
    linkedChain deps path ->
    (forall x, x ∈ Cyc.visiting st <-> In x path) ->
    (path <> [] -> linked deps (List.last path n) n) ->
    Forall (linkedCycle deps) (Cyc.cycles st) ->
    post (fun st' => Forall (linkedCycle deps) (Cyc.cycles st') /\
                     Cyc.visiting st' = Cyc.visiting st)
         True True (Cyc.visit fuel deps n path st).
Proof.
  induction fuel as [|fuel IH]; intros n path st Hchain Hpath Hlast Hcycles;
    [exact I|].
  rewrite cyc_visit_S.
  case_bool_decide as Hing.
  { simpl. split; [|reflexivity].
    apply Forall_app. split; [exact Hcycles|]. apply Forall_singleton.
    apply Hpath in Hing.
    destruct (indexOf_first n path Hing) as (l1 & l2 & Hsplit & Hidx).
    rewrite Hidx, slice_drop, Hsplit, drop_app_length.
    exists n, l2. split; [reflexivity|]. split.
    - apply (linkedChain_app_r l1). rewrite <- Hsplit. exact Hchain.
    - rewrite <- (last_app_cons l1 l2 n n n), <- Hsplit.
      apply Hlast. rewrite Hsplit. destruct l1; discriminate. }
  case_bool_decide as Hed; [split; [exact Hcycles | reflexivity]|].
  destruct (deps !! n) as [ds|] eqn:En; [|exact I].
  apply post_bind.
  eapply post_mono;
    [ | | | apply (forEach_post _
              (fun _ s => Forall (linkedCycle deps) (Cyc.cycles s) /\
                          Cyc.visiting s = {[n]} ∪ Cyc.visiting st)
              True True) ]; auto.
  - intros st2 (Hc2 & Hv2). simpl. split; [exact Hc2|].
    rewrite Hv2. set_solver.
  - intros pre d suf s0 Hds (Hc0 & Hv0).
    eapply post_mono; [ | | | apply (IH d (path ++ [n]) s0) ]; auto.
    + intros s1 (Hc1 & Hv1). split; [exact Hc1 | congruence].
    + apply linkedChain_snoc; assumption.
    + intros x. rewrite Hv0, in_app_iff, elem_of_union, elem_of_singleton, Hpath.
      simpl. intuition.
    + intros _. rewrite last_last. exists ds. split; [exact En|].
      rewrite Hds. apply in_elt.
Qed.

Lemma detectCycles_sound (nodeIds : list string) :
  post (Forall (linkedCycle deps)) True True (detectCycles nodeIds deps).
Proof.
  unfold detectCycles. apply post_bind.
  eapply post_mono;
    [ | | | apply (forEach_post _
              (fun _ s => Forall (linkedCycle deps) (Cyc.cycles s) /\
                          Cyc.visiting s = ∅) True True) ]; auto.
  - intros st (Hc & _). exact Hc.
  - intros pre n suf s0 _ (Hc0 & Hv0).
    eapply post_mono; [ | | | apply (cyc_visit_sound _ n [] s0) ]; auto.
    + intros s1 (Hc1 & Hv1). split; [exact Hc1 | congruence].
    + exact I.
    + intros x. rewrite Hv0. split; [set_solver | intros []].
    + intros H. contradiction.
Qed.

End CycSound.

Section CycComplete.
Variable deps : JsObject.t.

(** [detectCycles] only ever appends to its list of cycles. *)
Lemma cyc_visit_grows (fuel : nat) :
  forall n path st,
    post (fun st' => exists ext, Cyc.cycles st' = Cyc.cycles st ++ ext)
         True True (Cyc.visit fuel deps n path st).
Proof.
  induction fuel as [|fuel IH]; intros n path st; [exact I|].
  rewrite cyc_visit_S.
  case_bool_decide as Hing; [simpl; eauto|].
  case_bool_decide as Hed; [simpl; exists []; rewrite app_nil_r; reflexivity|].
  destruct (deps !! n) as [ds|]; [|exact I].
  apply post_bind.
  eapply post_mono;
    [ | | | apply (forEach_post _
              (fun _ s => exists ext, Cyc.cycles s = Cyc.cycles st ++ ext)
              True True) ]; auto.
  - simpl. exists []. rewrite app_nil_r. reflexivity.
  - intros pre d suf s0 _ (ext0 & Hg0).
    eapply post_mono; [ | | | apply (IH d (path ++ [n]) s0) ]; auto.
    intros s1 (ext1 & Hg1). exists (ext0 ++ ext1).
    rewrite Hg1, Hg0, app_assoc. reflexivity.
Qed.

(** A call that records no cycle settles its node after all the
    dependencies of the node. *)
Lemma cyc_visit_complete (fuel : nat) :
  forall n path st,
    (exists l, settledOrder deps st l) ->
    post (fun st' => Cyc.cycles st' = Cyc.cycles st ->
                     (exists l', settledOrder deps st' l') /\
                     n ∈ Cyc.visited st' /\
                     Cyc.visited st ⊆ Cyc.visited st')
         True True (Cyc.visit fuel deps n path st).
Proof.
  induction fuel as [|fuel IH]; intros n path st Hset; [exact I|].
  rewrite cyc_visit_S.
  case_bool_decide as Hing.
  { simpl. intros Heq. exfalso.
    apply (f_equal length) in Heq. rewrite length_app in Heq. simpl in Heq. lia. }
  case_bool_decide as Hed; [simpl; auto|].
  destruct (deps !! n) as [ds|] eqn:En; [|exact I].
  apply post_bind.
  eapply post_mono;
    [ | | | apply (forEach_post _
              (fun pre s =>
                 exists ext, Cyc.cycles s = Cyc.cycles st ++ ext /\
                   (ext = [] ->
                    (exists l, settledOrder deps s l) /\
                    Cyc.visited st ⊆ Cyc.visited s /\
                    forall d, In d pre -> d ∈ Cyc.visited s))
              True True) ]; auto.
  - intros st2 (ext & Hext & Hnil). simpl. intros Heq.
    assert (ext = []) as ->.
    { rewrite Hext in Heq. rewrite <- (app_nil_r (Cyc.cycles st)) in Heq at 2.
      apply app_inv_head in Heq. exact Heq. }
    destruct (Hnil eq_refl) as ((l & Hvis & Hord) & Hsub & Hall).
    split; [|set_solver].
    exists (l ++ [n]). split.
    + intros x. simpl. rewrite in_app_iff, elem_of_union, elem_of_singleton, Hvis.
      simpl. intuition.
    + apply ordered_snoc; [exact Hord|].
      intros ds' d Hds' Hd. rewrite En in Hds'. injection Hds' as <-.
      apply Hvis, Hall, Hd.
  - simpl. exists []. split; [rewrite app_nil_r; reflexivity|].
    intros _. split; [exact Hset|]. split; [set_solver | intros d []].
  - intros pre d suf s0 _ (ext0 & Hg0 & Hnil0).
    destruct ext0 as [|c0 ext0].
    + destruct (Hnil0 eq_refl) as (Hset0 & Hsub0 & Hall0).
      eapply post_mono;
        [ | | | apply (post_conj _ _ _ _ _ _ _
                         (IH d (path ++ [n]) s0 Hset0)
                         (cyc_visit_grows fuel d (path ++ [n]) s0)) ]; auto.
      intros s1 (Hcomp & ext1 & Hg1). exists ext1.
      rewrite Hg1, Hg0, app_nil_r. split; [reflexivity|].
      intros ->. rewrite app_nil_r in Hg1.
      destruct (Hcomp Hg1) as (Hset1 & Hd1 & Hsub1).
      split; [exact Hset1|]. split; [set_solver|].
      intros x [Hx|[<-|[]]]%in_app_iff; [apply Hsub1, Hall0, Hx | exact Hd1].
    + eapply post_mono;
        [ | | | apply (cyc_visit_grows fuel d (path ++ [n]) s0) ]; auto.
      intros s1 (ext1 & Hg1). exists ((c0 :: ext0) ++ ext1).
      rewrite Hg1, Hg0, app_assoc. split; [reflexivity|]. discriminate.
Qed.

Lemma detectCycles_complete (nodeIds : list string) :
  post (fun cycles => cycles = [] ->
                      exists l, ordered deps l /\ forall x, In x nodeIds -> In x l)
       True True (detectCycles nodeIds deps).
Proof.
  unfold detectCycles. apply post_bind.
  eapply post_mono;
    [ | | | apply (forEach_post _
              (fun pre s =>
                 Cyc.cycles s = [] ->
                 (exists l, settledOrder deps s l) /\
                 forall x, In x pre -> x ∈ Cyc.visited s)
              True True) ]; auto.
  - intros st Hst. simpl. intros Hnil.
    destruct (Hst Hnil) as ((l & Hvis & Hord) & Hall).
    exists l. split; [exact Hord|]. intros x Hx. apply Hvis, Hall, Hx.
  - simpl. intros _. split; [|intros x []].
    exists []. split; [intros x; split; [set_solver | intros []]|].
    intros l1 v l2 ds d Heq. destruct l1; discriminate.
  - intros pre n suf s0 _ Hg0.
    destruct (Cyc.cycles s0) as [|c0 cs0] eqn:Ec0.
    + destruct (Hg0 eq_refl) as (Hset0 & Hall0).
      eapply post_mono;
        [ | | | apply (cyc_visit_complete (S (length nodeIds)) n [] s0 Hset0) ]; auto.
      intros s1 Hcomp Hnil. rewrite Ec0 in Hcomp.
      destruct (Hcomp Hnil) as (Hset1 & Hn1 & Hsub1).
      split; [exact Hset1|].
      intros x [Hx|[<-|[]]]%in_app_iff; [apply Hsub1, Hall0, Hx | exact Hn1].
    + eapply post_mono;
        [ | | | apply (cyc_visit_grows (S (length nodeIds)) n [] s0) ]; auto.
      intros s1 (ext1 & Hg1) Hnil. rewrite Hg1, Ec0 in Hnil. discriminate.
Qed.

(** Along a list in which everything comes after its dependencies, all the
    transitive dependencies of an element come before it. *)
Lemma ordered_tc (l : list string) :
  ordered deps l ->
  forall v y, tc (linked deps) v y ->
              forall l1 l2, l = l1 ++ v :: l2 -> In y l1.
Proof.
  intros Hord v y Hvy.
  induction Hvy as [v y (ds & Hds & Hy)|v z y (ds & Hds & Hz) _ IH];
    intros l1 l2 Heq.
  - exact (Hord l1 v l2 ds y Heq Hds Hy).
  - pose proof (Hord l1 v l2 ds z Heq Hds Hz) as Hzin.
    apply in_split in Hzin as (a & b & ->).
    apply in_app_iff. left.
    apply (IH a (b ++ v :: l2)). rewrite Heq, <- app_assoc. reflexivity.
Qed.

Lemma ordered_acyclic (l : list string) :
  ordered deps l ->
  (forall x, is_Some (deps !! x) -> In x l) ->
  forall x, ~ tc (linked deps) x x.
Proof.
  intros Hord Hall x Hx.
  assert (In x l) as Hin.
  { apply Hall.
    inversion Hx as [? ? (ds & Hds & _)|? ? ? (ds & Hds & _) _]; subst; eauto. }
  apply list_elem_of_In, list_elem_of_split_l in Hin as (l1 & l2 & Heq & Hnot).
  apply Hnot, list_elem_of_In. exact (ordered_tc l Hord x x Hx l1 l2 Heq).
Qed.

End CycComplete.

Lemma liveConnections_In (nodes : list CanvasNode.t) (connections : list Connection.t)
    (c : Connection.t) :
  In c (liveConnections nodes connections)
  <-> In c connections /\ In (Connection.targetNodeId c) (map CanvasNode.id nodes).
Proof.
  unfold liveConnections. rewrite filter_In, bool_decide_eq_true, list_elem_of_In.
  reflexivity.
Qed.

Lemma buildDependencies_linked (nodes : list CanvasNode.t)
    (connections : list Connection.t) (deps : JsObject.t) (a b : string) :
  buildDependencies nodes connections = Ok deps ->
  linked deps a b <-> edge (liveConnections nodes connections) b a.
Proof.
  intros Hdeps. unfold linked, edge. split.
  - intros (ds & Hds & Hb).
    rewrite (buildDependencies_lookup _ _ _ Hdeps) in Hds.
    destruct (decide (a ∈ map CanvasNode.id nodes)) as [Ha|]; [|discriminate].
    injection Hds as <-. apply in_map_iff in Hb as (c & Hs & Hc).
    apply incomingOf_In in Hc as [Hc Ht].
    exists c. split; [|auto]. apply liveConnections_In. split; [exact Hc|].
    rewrite Ht. apply list_elem_of_In, Ha.
  - intros (c & Hc & Hs & Ht). apply liveConnections_In in Hc as [Hc Hin].
    exists (map Connection.sourceNodeId (incomingOf connections a)). split.
    + rewrite (buildDependencies_lookup _ _ _ Hdeps), decide_True; [reflexivity|].
      apply list_elem_of_In. rewrite <- Ht. exact Hin.
    + rewrite <- Hs. apply in_map, incomingOf_In. auto.
Qed.

Lemma linkedChain_dependencyChain (nodes : list CanvasNode.t)
    (connections : list Connection.t) (deps : JsObject.t) (l : list string) :
  buildDependencies nodes connections = Ok deps ->
  linkedChain deps l ->
  dependencyChain (liveConnections nodes connections) l.
Proof.
  intros Hdeps.
  induction l as [|a l IH]; [auto|]. destruct l as [|b l]; [auto|].
  intros [Hab Hrest].
  split; [apply (buildDependencies_linked _ _ _ _ _ Hdeps), Hab | apply IH, Hrest].
Qed.

Lemma linkedCycle_genuineCycle (nodes : list CanvasNode.t)
    (connections : list Connection.t) (deps : JsObject.t) (cyc : list string) :
  buildDependencies nodes connections = Ok deps ->
  linkedCycle deps cyc ->
  genuineCycle (liveConnections nodes connections) cyc.
Proof.
  intros Hdeps (v & rest & -> & Hchain & Hlast). exists v, rest.
  split; [reflexivity|]. split.
  - apply (linkedChain_dependencyChain _ _ _ _ Hdeps), Hchain.
  - apply (buildDependencies_linked _ _ _ _ _ Hdeps), Hlast.
Qed.

Lemma tc_flip {A : Type} (R : relation A) (x y : A) :
  tc R x y -> tc (fun a b => R b a) y x.
Proof.
  induction 1 as [x y H|x y z H _ IH].
  - apply tc_once, H.
  - eapply tc_r; [exact IH | exact H].
Qed.

Lemma tc_subrel {A : Type} (R R' : relation A) (x y : A) :
  (forall a b, R a b -> R' a b) -> tc R x y -> tc R' x y.
Proof.
  intros Hsub. induction 1 as [x y H|x y z H _ IH].
  - apply tc_once, Hsub, H.
  - eapply tc_l; [apply Hsub, H | exact IH].
Qed.

(** Along a dependency chain the last element reaches the first. *)
Lemma dependencyChain_reach (connections : list Connection.t)
    (v : string) (rest : list string) :
  dependencyChain connections (v :: rest) ->
  rtc (edge connections) (List.last (v :: rest) v) v.
Proof.
  revert v. induction rest as [|b rest IH]; intros v Hchain; [apply rtc_refl|].
  destruct Hchain as [Hbv Hrest].
  change (List.last (v :: b :: rest) v) with (List.last ([] ++ b :: rest) v).
  rewrite (last_app_cons [] rest b v b).
  eapply rtc_r; [apply IH, Hrest | exact Hbv].
Qed.

Lemma genuineCycle_tc (connections : list Connection.t) (cyc : list string) :
  genuineCycle connections cyc -> exists x, tc (edge connections) x x.
Proof.
  intros (v & rest & -> & Hchain & Hlast). exists v.
  eapply tc_rtc_r; [apply tc_once, Hlast | apply dependencyChain_reach, Hchain].
Qed.

(** X7.  Every cycle reported by [analyzeFlow] is a cycle of the graph
    formed by the connections that end at nodes of the snapshot: each
    element has such a connection coming from the next one, and the last
    element has one coming from the first. *)
Theorem analyzeFlow_cycles_genuine (nodes : list CanvasNode.t)
    (connections : list Connection.t) (fa : FlowAnalysis.t) :
  analyzeFlow nodes connections = Ok fa ->
  forall cyc, In cyc (FlowAnalysis.cycles fa) ->
              genuineCycle (liveConnections nodes connections) cyc.
Proof.
  intros Hfa cyc Hcyc. apply analyzeFlow_inv in Hfa as (Hdeps & _ & Hdet & _).
  pose proof (post_of_Ok _ _ _ _ _ Hdet
                (detectCycles_sound (FlowAnalysis.dependencies fa) _))
    as Hall.
  rewrite Forall_forall in Hall.
  apply (linkedCycle_genuineCycle _ _ _ _ Hdeps), Hall, list_elem_of_In, Hcyc.
Qed.

(** X8.  [analyzeFlow] reports no cycle exactly when the connections that end at
    nodes of the snapshot form an acyclic graph. *)
Theorem analyzeFlow_cycles_empty_iff (nodes : list CanvasNode.t)
    (connections : list Connection.t) (fa : FlowAnalysis.t) :
  analyzeFlow nodes connections = Ok fa ->
  (FlowAnalysis.cycles fa = [] <-> acyclic (liveConnections nodes connections)).
Proof.
  intros Hfa. apply analyzeFlow_inv in Hfa as (Hdeps & _ & Hdet & _). split.
  - intros Hnil x Hx.
    destruct (post_of_Ok _ _ _ _ _ Hdet
                (detectCycles_complete (FlowAnalysis.dependencies fa) _)
                Hnil) as (l & Hord & Hall).
    apply (ordered_acyclic (FlowAnalysis.dependencies fa) l Hord) with x.
    + intros y [ds Hy]. apply Hall.
      rewrite (buildDependencies_lookup _ _ _ Hdeps) in Hy.
      destruct (decide (y ∈ map CanvasNode.id nodes)) as [Hin|]; [|discriminate].
      apply list_elem_of_In, Hin.
    + apply tc_flip in Hx. revert Hx. apply tc_subrel.
      intros a b Hab. apply (buildDependencies_linked _ _ _ _ _ Hdeps), Hab.
  - intros Hacyc.
    pose proof (post_of_Ok _ _ _ _ _ Hdet
                  (detectCycles_sound (FlowAnalysis.dependencies fa) _))
      as Hall.
    destruct (FlowAnalysis.cycles fa) as [|cyc cycles]; [reflexivity|].
    apply Forall_cons_1 in Hall as [Hcyc _].
    apply (linkedCycle_genuineCycle _ _ _ _ Hdeps), genuineCycle_tc in Hcyc
      as [x Hx].
    destruct (Hacyc x Hx).
Qed.

(** X9.  In an acyclic graph whose connections all start and end at nodes of the
    snapshot, a node comes before every node it reaches along connections,
    not only before its direct successors. *)
Theorem analyzeFlow_order_respects_paths
    (nodes : list CanvasNode.t) (connections : list Connection.t) :
  acyclic connections ->
  sourcesResolve nodes connections ->
  targetsResolve nodes connections ->
  exists fa,
    analyzeFlow nodes connections = Ok fa /\
    forall s t, tc (edge connections) s t ->
                appearsBefore s t (FlowAnalysis.executionOrder fa).
Proof.
  intros Hacyc Hsrc Htgt.
  destruct (analyzeFlow_returns nodes connections
              (targetsResolve_targetsPlain _ _ Htgt)
              (sourcesResolve_danglingFree _ _ Hsrc))
    as (fa & Hfa & Hdeps & Hsort & _ & Hin).
  exists fa. split; [exact Hfa|].
  pose proof (post_of_Ok _ _ _ _ _ Hsort
                (topologicalSort_ordered _ _ (edge connections)
                   (fun v ds d => buildDependencies_edge nodes connections _ v d ds
                                    Hdeps)
                   Hacyc)) as Hord.
  assert (forall a b, edge connections a b ->
                      linked (FlowAnalysis.dependencies fa) b a) as Hlink.
  { intros a b (c & Hc & Hs & Ht). apply (buildDependencies_linked _ _ _ _ _ Hdeps).
    exists c. split; [|auto]. apply liveConnections_In. auto. }
  intros s t Hst.
  assert (In t (FlowAnalysis.executionOrder fa)) as Ht.
  { apply Hin. clear -Hst Htgt.
    induction Hst as [s t (c & Hc & _ & <-)|s z t _ _ IH]; [apply Htgt, Hc | exact IH]. }
  apply in_split in Ht as (l1 & l3 & Heq).
  assert (In s l1) as Hs.
  { apply (ordered_tc _ _ Hord t s) with l3; [|exact Heq].
    apply tc_flip in Hst. revert Hst. apply tc_subrel.
    intros a b Hab. apply Hlink, Hab. }
  apply in_split in Hs as (l0 & l2 & ->).
  exists l0, l2, l3. rewrite Heq, <- app_assoc. reflexivity.
Qed.

(* ================================================================= *)
(** * Further properties of the lowering pass *)

Lemma findNode_None (nodes : list CanvasNode.t) (x : string) :
  findNode nodes x = None <-> ~ In x (map CanvasNode.id nodes).
Proof.
  split.
  - intros Hnone Hin. destruct (findNode_In nodes x Hin) as [node Hnode]. congruence.
  - intros Hnot. destruct (findNode nodes x) as [node|] eqn:E; [|reflexivity].
    apply findNode_Some in E as [<- Hin]. exfalso. apply Hnot, in_map, Hin.
Qed.

Lemma mapM_throws_iff {A B : Type} (f : A -> outcome B) (l : list A) :
  (forall a, In a l -> f a <> OutOfFuel) ->
  (mapM f l = Throw <-> exists a, In a l /\ f a = Throw).
Proof.
  induction l as [|a l IH]; intros Hfuel; simpl.
  - split; [discriminate | intros (a & [] & _)].
  - pose proof (Hfuel a (or_introl eq_refl)) as Ha.
    destruct (f a) as [b| |] eqn:E; simpl; [| |congruence].
    + destruct (IH (fun x Hx => Hfuel x (or_intror Hx))) as [IH1 IH2].
      destruct (mapM f l) as [bs| |] eqn:El; simpl.
      * split; [discriminate|]. intros (x & [<-|Hx] & Hthrow); [congruence|].
        exfalso. assert (@Ok (list B) bs = Throw) by (apply IH2; eauto). discriminate.
      * split; [|reflexivity]. intros _.
        destruct (IH1 eq_refl) as (x & Hx & Hthrow). eauto.
      * split; [discriminate|]. intros (x & [<-|Hx] & Hthrow); [congruence|].
        exfalso. assert (@OutOfFuel (list B) = Throw) by (apply IH2; eauto).
        discriminate.
    + split; [eauto | reflexivity].
Qed.

Lemma mapM_length {A B : Type} (f : A -> outcome B) (l : list A) (bs : list B) :
  mapM f l = Ok bs -> Forall2 (fun a b => f a = Ok b) l bs.
Proof.
  revert bs. induction l as [|a l IH]; intros bs H; simpl in H.
  - injection H as <-. constructor.
  - destruct (f a) as [b| |] eqn:E; simpl in H; try discriminate.
    destruct (mapM f l) as [bs'| |]; simpl in H; try discriminate.
    injection H as <-. constructor; [exact E | apply IH; reflexivity].
Qed.

Section LoweringExtras.
Variable toLowerCase : string -> string.
Variable toUpperCase : string -> string.
Variable replaceWhitespace : string -> string -> string.

Lemma generateInstruction_throws_iff (node : CanvasNode.t)
    (connections : list Connection.t) (allNodes : list CanvasNode.t) :
  generateInstruction toLowerCase replaceWhitespace node connections allNodes = Throw
  <-> exists c, In c connections /\
                Connection.targetNodeId c = CanvasNode.id node /\
                ~ In (Connection.sourceNodeId c) (map CanvasNode.id allNodes).
Proof.
  unfold generateInstruction. cbv zeta.
  destruct (mapM_returns (structNameOfOpt replaceWhitespace)
              (keepAccounts
                 (map (fun conn => findNode allNodes (Connection.sourceNodeId conn))
                      (incomingOf connections (CanvasNode.id node)))))
    as [accounts ->].
  { intros n Hn. apply keepAccounts_resolved in Hn as [n' ->]. simpl. eauto. }
  simpl.
  destruct (mapM nameOf _) as [instrs| |] eqn:Em; simpl.
  - split; [discriminate|]. intros (c & Hc & Ht & Hs). exfalso.
    assert (mapM nameOf
              (keepNonAccounts
                 (map (fun conn => findNode allNodes (Connection.sourceNodeId conn))
                      (incomingOf connections (CanvasNode.id node)))) = Throw) as Hthrow.
    { apply mapM_throws_iff; [intros [?|] _; discriminate|].
      exists None. split; [|reflexivity].
      unfold keepNonAccounts. apply filter_In. split; [|reflexivity].
      apply in_map_iff. exists c. split; [apply findNode_None, Hs|].
      apply incomingOf_In. auto. }
    congruence.
  - split; [|reflexivity]. intros _.
    apply mapM_throws_iff in Em as (n & Hn & Hthrow);
      [|intros [?|] _; discriminate].
    destruct n as [n'|]; [discriminate|].
    unfold keepNonAccounts in Hn. apply filter_In in Hn as [Hn _].
    apply in_map_iff in Hn as (c & Hnone & Hc).
    apply incomingOf_In in Hc as [Hc Ht].
    exists c. split; [exact Hc|]. split; [exact Ht | apply findNode_None, Hnone].
  - exfalso. revert Em. apply mapM_budget. intros [?|] _; discriminate.
Qed.

(** X10.  [generateAnchorCode] raises exactly when some connection enters a
    behavioral node of the snapshot from an id that is not a node; on every
    other snapshot it returns an artifact. *)
Theorem generateAnchorCode_throws_iff (nodes : list CanvasNode.t)
    (connections : list Connection.t) :
  (generateAnchorCode toLowerCase toUpperCase replaceWhitespace nodes connections
   = Throw <-> danglingIntoBehavioral nodes connections) /\
  ((exists g, generateAnchorCode toLowerCase toUpperCase replaceWhitespace
                                 nodes connections = Ok g)
   <-> ~ danglingIntoBehavioral nodes connections).
Proof.
  assert (generateAnchorCode toLowerCase toUpperCase replaceWhitespace nodes connections
          = Throw <-> danglingIntoBehavioral nodes connections) as Hiff.
  { unfold generateAnchorCode. cbv zeta.
    destruct (analyzeProgramFlow_returns nodes connections) as [pf ->]. simpl.
    assert (mapM (fun node => generateInstruction toLowerCase replaceWhitespace
                                                  node connections nodes)
                 (List.filter (fun node => negb (isAccount node)) nodes) = Throw
            <-> danglingIntoBehavioral nodes connections) as Hmap.
    { rewrite mapM_throws_iff
        by (intros; apply generateInstruction_budget).
      unfold danglingIntoBehavioral. split.
      - intros (node & Hnode & Hthrow).
        apply filter_In in Hnode as [Hin Hacc]. apply negb_true_iff in Hacc.
        apply generateInstruction_throws_iff in Hthrow as (c & Hc & Ht & Hs).
        exists node, c. auto.
      - intros (node & c & Hin & Hacc & Hc & Ht & Hs).
        exists node. split; [apply filter_In; rewrite Hacc; auto|].
        apply generateInstruction_throws_iff. eauto. }
    destruct (mapM _ _) as [texts| |]; simpl.
    - split; [discriminate|]. intros H. apply Hmap in H. discriminate.
    - split; [intros _; apply Hmap; reflexivity | reflexivity].
    - split; [discriminate|]. intros H. apply Hmap in H. discriminate. }
  split; [exact Hiff|].
  pose proof (generateAnchorCode_budget toLowerCase toUpperCase replaceWhitespace
                nodes connections) as Hfuel.
  destruct (generateAnchorCode _ _ _ nodes connections) as [g| |].
  - split; [|eauto]. intros _ H. apply Hiff in H. discriminate.
  - split; [intros [g H]; discriminate|]. intros H. exfalso. apply H, Hiff. reflexivity.
  - congruence.
Qed.

Lemma generateAnchorCode_inv (nodes : list CanvasNode.t)
    (connections : list Connection.t) (g : GeneratedCode.t) :
  generateAnchorCode toLowerCase toUpperCase replaceWhitespace nodes connections
  = Ok g ->
  analyzeProgramFlow nodes connections = Ok (GeneratedCode.programFlow g) /\
  GeneratedCode.lib g
  = generateLibRs toLowerCase replaceWhitespace "my_program"
      (List.filter (fun node => negb (isAccount node)) nodes)
      (List.filter isAccount nodes) connections /\
  mapM (fun node => generateInstruction toLowerCase replaceWhitespace
                                        node connections nodes)
       (List.filter (fun node => negb (isAccount node)) nodes)
  = Ok (GeneratedCode.instructions g) /\
  GeneratedCode.tests g
  = generateTests toLowerCase toUpperCase replaceWhitespace "my_program"
      (List.filter (fun node => negb (isAccount node)) nodes) connections /\
  GeneratedCode.cargoToml g = generateCargoToml "my_program" /\
  GeneratedCode.anchorToml g = generateAnchorToml "my_program".
Proof.
  unfold generateAnchorCode. cbv zeta. intros H.
  destruct (analyzeProgramFlow nodes connections) as [pf| |]; simpl in H;
    try discriminate.
  destruct (mapM _ _) as [texts| |]; simpl in H; try discriminate.
  injection H as <-. simpl. auto 10.
Qed.

End LoweringExtras.

(* ================================================================= *)
(** * The shape of the generated text *)

Lemma string_app_cons (x : ascii) (a b : string) :
  String x a +:+ b = String x (a +:+ b).
Proof. reflexivity. Qed.

Lemma string_app_nil (b : string) : EmptyString +:+ b = b.
Proof. reflexivity. Qed.

Lemma string_app_assoc (a b c : string) : (a +:+ b) +:+ c = a +:+ (b +:+ c).
Proof.
  induction a as [|x a IH]; [reflexivity|].
  rewrite !string_app_cons, IH. reflexivity.
Qed.

Lemma prefix_app (n a b : string) :
  String.prefix n a = true -> String.prefix n (a +:+ b) = true.
Proof.
  revert a. induction n as [|x n IH]; intros a H; [destruct (a +:+ b); reflexivity|].
  destruct a as [|y a]; [discriminate|]. rewrite string_app_cons. simpl in *.
  destruct (ascii_dec x y); [apply IH, H | discriminate].
Qed.

Lemma prefix_self_app (n b : string) : String.prefix n (n +:+ b) = true.
Proof.
  induction n as [|x n IH]; [destruct (EmptyString +:+ b); reflexivity|].
  rewrite string_app_cons. simpl.
  destruct (ascii_dec x x); [exact IH | contradiction].
Qed.

Lemma prefix_split (p s : string) :
  String.prefix p s = true -> exists r, s = p +:+ r.
Proof.
  revert s. induction p as [|x p IH]; intros s H; [exists s; reflexivity|].
  destruct s as [|y s]; [discriminate|]. simpl in H.
  destruct (ascii_dec x y) as [->|]; [|discriminate].
  destruct (IH s H) as [r ->]. exists r. reflexivity.
Qed.

Lemma stringIncludes_eq (s n : string) :
  stringIncludes s n
  = String.prefix n s ||
    match s with
    | EmptyString => false
    | String _ s' => stringIncludes s' n
    end.
Proof. destruct s; reflexivity. Qed.

Lemma stringIncludes_prefix (s n : string) :
  String.prefix n s = true -> stringIncludes s n = true.
Proof. intros H. rewrite stringIncludes_eq, H. reflexivity. Qed.

Lemma stringIncludes_app_l (a b n : string) :
  stringIncludes a n = true -> stringIncludes (a +:+ b) n = true.
Proof.
  induction a as [|x a IH]; intros H.
  - rewrite stringIncludes_eq, orb_false_r in H.
    apply stringIncludes_prefix. apply (prefix_app n EmptyString b H).
  - rewrite stringIncludes_eq in H. apply orb_true_iff in H as [H|H].
    + apply stringIncludes_prefix. apply (prefix_app n (String x a) b H).
    + rewrite string_app_cons, stringIncludes_eq, (IH H). apply orb_true_r.
Qed.

Lemma stringIncludes_app_r (a b n : string) :
  stringIncludes b n = true -> stringIncludes (a +:+ b) n = true.
Proof.
  intros H. induction a as [|x a IH]; [exact H|].
  rewrite string_app_cons, stringIncludes_eq, IH. apply orb_true_r.
Qed.

Lemma stringIncludes_infix (a n b : string) :
  stringIncludes (a +:+ n +:+ b) n = true.
Proof.
  apply stringIncludes_app_r, stringIncludes_prefix, prefix_self_app.
Qed.

Lemma stringIncludes_refl (n : string) : stringIncludes n n = true.
Proof.
  apply stringIncludes_prefix.
  induction n as [|x n IH]; [reflexivity|]. simpl.
  destruct (ascii_dec x x); [exact IH | contradiction].
Qed.

(** A joined list contains each of its elements. *)
Lemma stringIncludes_concat (sep x : string) (l : list string) :
  In x l -> stringIncludes (String.concat sep l) x = true.
Proof.
  induction l as [|y l IH]; intros Hin; [destruct Hin|].
  simpl. destruct l as [|z l].
  - destruct Hin as [->|[]]. apply stringIncludes_refl.
  - destruct Hin as [->|Hin].
    + apply stringIncludes_app_l, stringIncludes_refl.
    + apply stringIncludes_app_r, stringIncludes_app_r, IH, Hin.
Qed.

Lemma stringIncludes_concat_elem (sep x n : string) (l : list string) :
  In x l -> stringIncludes x n = true ->
  stringIncludes (String.concat sep l) n = true.
Proof.
  induction l as [|y l IH]; intros Hin Hn; [destruct Hin|].
  simpl. destruct l as [|z l].
  - destruct Hin as [->|[]]. exact Hn.
  - destruct Hin as [->|Hin].
    + apply stringIncludes_app_l, Hn.
    + apply stringIncludes_app_r, stringIncludes_app_r, IH; assumption.
Qed.

(** Finds a needle in a chain of appended pieces, looking into the literal
    pieces by computation. *)
Ltac find_in_text :=
  repeat first
    [ apply stringIncludes_app_l; vm_compute; reflexivity
    | apply stringIncludes_app_r ].

Section TextExtras.
Variable toLowerCase : string -> string.
Variable toUpperCase : string -> string.
Variable replaceWhitespace : string -> string -> string.

Lemma generateLibRs_structure (programName : string)
    (instructionNodes accountNodes : list CanvasNode.t)
    (connections : list Connection.t) :
  let lib := generateLibRs toLowerCase replaceWhitespace programName
                           instructionNodes accountNodes connections in
  stringIncludes lib "use anchor_lang::prelude::*;" = true /\
  stringIncludes lib "declare_id!" = true /\
  stringIncludes lib "#[program]" = true /\
  stringIncludes lib "msg!" = true.
Proof.
  unfold generateLibRs. cbv zeta.
  repeat split; find_in_text.
Qed.

(** X11.  The library text of every generated artifact passes the deployer's
    structural checks: no error is reported, and the only warning it can
    draw is the one about [TODO], when a node name brings that word in. *)
Theorem generated_lib_passes_validation (nodes : list CanvasNode.t)
    (connections : list Connection.t) (g : GeneratedCode.t) :
  generateAnchorCode toLowerCase toUpperCase replaceWhitespace nodes connections
  = Ok g ->
  validateProgramStructure (GeneratedCode.lib g)
  = StructureReport.mk true []
      (if stringIncludes (GeneratedCode.lib g) "TODO"
       then ["Code contains TODO comments"] else []).
Proof.
  intros Hg. apply generateAnchorCode_inv in Hg as (_ & -> & _).
  destruct (generateLibRs_structure "my_program"
              (List.filter (fun node => negb (isAccount node)) nodes)
              (List.filter isAccount nodes) connections) as (H1 & H2 & H3 & H4).
  cbv zeta in *. unfold validateProgramStructure.
  rewrite H1, H2, H3, H4. simpl. rewrite app_nil_r. reflexivity.
Qed.

End TextExtras.

Lemma string_app_assoc3 (a b c r : string) :
  a +:+ b +:+ c +:+ r = (a +:+ b +:+ c) +:+ r.
Proof. rewrite !string_app_assoc. reflexivity. Qed.

Lemma Forall2_impl_In {A B : Type} (R R' : A -> B -> Prop) (l : list A) (k : list B) :
  Forall2 R l k ->
  (forall a b, In a l -> R a b -> R' a b) ->
  Forall2 R' l k.
Proof.
  induction 1 as [|a b l k Hab _ IH]; intros Himpl; constructor.
  - apply Himpl; [left; reflexivity | exact Hab].
  - apply IH. intros a' b' Hin. apply Himpl. right. exact Hin.
Qed.

Section ModuleConsistency.
Variable toLowerCase : string -> string.
Variable toUpperCase : string -> string.
Variable replaceWhitespace : string -> string -> string.

Lemma generateInstruction_declares (node : CanvasNode.t)
    (connections : list Connection.t) (allNodes : list CanvasNode.t) (text : string) :
  generateInstruction toLowerCase replaceWhitespace node connections allNodes
  = Ok text ->
  stringIncludes text
    ("pub fn " +:+ functionNameOf toLowerCase replaceWhitespace node
     +:+ "(ctx: Context<") = true.
Proof.
  unfold generateInstruction. cbv zeta. intros H.
  destruct (mapM _ _) as [accounts| |]; simpl in H; try discriminate.
  destruct (mapM _ _) as [instrs| |]; simpl in H; try discriminate.
  injection H as <-.
  match goal with
  | |- stringIncludes (?lit +:+ _) _ = true =>
    change lit with ("use anchor_lang::prelude::*;
use crate::ErrorCode;

" +:+ "pub fn ")
  end.
  rewrite string_app_assoc. apply stringIncludes_app_r.
  rewrite (string_app_assoc3 "pub fn "
             (functionNameOf toLowerCase replaceWhitespace node) "(ctx: Context<").
  apply stringIncludes_app_l, stringIncludes_refl.
Qed.

Lemma generateLibRs_reexports (programName : string)
    (instructionNodes accountNodes : list CanvasNode.t)
    (connections : list Connection.t) (node : CanvasNode.t) :
  In node instructionNodes ->
  stringIncludes
    (generateLibRs toLowerCase replaceWhitespace programName
                   instructionNodes accountNodes connections)
    ("pub mod " +:+ functionNameOf toLowerCase replaceWhitespace node +:+ ";") = true.
Proof.
  intros Hin. unfold generateLibRs. cbv zeta.
  do 5 apply stringIncludes_app_r. apply stringIncludes_app_l.
  apply stringIncludes_concat, in_map_iff. exists node. auto.
Qed.

Lemma generateLibRs_declares_account (programName : string)
    (instructionNodes accountNodes : list CanvasNode.t)
    (connections : list Connection.t) (node : CanvasNode.t) :
  In node accountNodes ->
  stringIncludes
    (generateLibRs toLowerCase replaceWhitespace programName
                   instructionNodes accountNodes connections)
    (accountRecord (structNameOf replaceWhitespace node)
                   (touching connections (CanvasNode.id node))) = true.
Proof.
  intros Hin. unfold generateLibRs. cbv zeta.
  do 13 apply stringIncludes_app_r. apply stringIncludes_app_l.
  eapply stringIncludes_concat_elem.
  - apply in_map_iff. exists node. split; [reflexivity | exact Hin].
  - unfold accountRecord. cbv beta.
    match goal with
    | |- stringIncludes (_ +:+ _ +:+ _ +:+ _ +:+ ?lit +:+ _)
                        (_ +:+ _ +:+ _ +:+ _ +:+ ?p) = true =>
      destruct (prefix_split p lit eq_refl) as [r ->]
    end.
    rewrite <- !string_app_assoc.
    repeat first [apply stringIncludes_refl | apply stringIncludes_app_l].
Qed.

(** X12.  Every behavioral node gets its module, in the order of the snapshot:
    the i-th module declares the entry function named after the i-th
    instruction name the canvas computes, and the library text re-exports a
    module of that name. *)
Theorem generated_modules_consistent (nodes : list CanvasNode.t)
    (connections : list Connection.t) (g : GeneratedCode.t) :
  generateAnchorCode toLowerCase toUpperCase replaceWhitespace nodes connections
  = Ok g ->
  Forall2 (fun name text =>
             stringIncludes text ("pub fn " +:+ name +:+ "(ctx: Context<") = true /\
             stringIncludes (GeneratedCode.lib g) ("pub mod " +:+ name +:+ ";") = true)
          (getInstructionNames toLowerCase replaceWhitespace nodes)
          (GeneratedCode.instructions g).
Proof.
  intros Hg. apply generateAnchorCode_inv in Hg as (_ & Hlib & Hmods & _).
  apply mapM_length in Hmods. unfold getInstructionNames.
  apply Forall2_fmap_l.
  eapply Forall2_impl_In; [exact Hmods|].
  intros node text Hin Htext. split.
  - apply (generateInstruction_declares node connections nodes text Htext).
  - rewrite Hlib. apply generateLibRs_reexports, Hin.
Qed.

(** X13.  Every account node is declared in the library text as a record
    with the fixed fields, whose last field is annotated with the number of
    connections that touch the node, up to the closing brace. *)
Theorem generated_lib_declares_accounts (nodes : list CanvasNode.t)
    (connections : list Connection.t) (g : GeneratedCode.t) (node : CanvasNode.t) :
  generateAnchorCode toLowerCase toUpperCase replaceWhitespace nodes connections
  = Ok g ->
  In node nodes ->
  isAccount node = true ->
  stringIncludes (GeneratedCode.lib g)
    (accountRecord (replaceWhitespace EmptyString (CanvasNode.name node))
       (length (List.filter
                  (fun c => (Connection.targetNodeId c =? CanvasNode.id node)
                            || (Connection.sourceNodeId c =? CanvasNode.id node))
                  connections))) = true.
Proof.
  intros Hg Hin Hacc. apply generateAnchorCode_inv in Hg as (_ & -> & _).
  apply (generateLibRs_declares_account "my_program" _ _ connections node).
  apply filter_In. auto.
Qed.

End ModuleConsistency.


Section TestSuite.
Variable toLowerCase : string -> string.
Variable toUpperCase : string -> string.
Variable replaceWhitespace : string -> string -> string.

Lemma generateTests_covers (programName : string)
    (instructionNodes : list CanvasNode.t) (connections : list Connection.t)
    (node : CanvasNode.t) :
  In node instructionNodes ->
  stringIncludes
    (generateTests toLowerCase toUpperCase replaceWhitespace programName
                   instructionNodes connections)
    (testCaseHead (CanvasNode.name node)
                  (touching connections (CanvasNode.id node))) = true.
Proof.
  intros Hin. unfold generateTests. cbv zeta.
  repeat lazymatch goal with
         | |- stringIncludes (String.concat _ _ +:+ _) _ = true => fail
         | |- stringIncludes (_ +:+ _) _ = true => apply stringIncludes_app_r
         end.
  apply stringIncludes_app_l.
  eapply stringIncludes_concat_elem.
  - apply in_map_iff. exists node. split; [reflexivity | exact Hin].
  - unfold testCaseHead. cbv beta. rewrite <- !string_app_assoc.
    repeat first [apply stringIncludes_refl | apply stringIncludes_app_l].
Qed.

(** X14.  The test suite of a generated artifact holds a test case for every
    behavioral node, titled with the name of the node and the number of
    connections that touch it. *)
Theorem generated_tests_cover_nodes (nodes : list CanvasNode.t)
    (connections : list Connection.t) (g : GeneratedCode.t) (node : CanvasNode.t) :
  generateAnchorCode toLowerCase toUpperCase replaceWhitespace nodes connections
  = Ok g ->
  In node nodes ->
  isAccount node = false ->
  stringIncludes (GeneratedCode.tests g)
    (testCaseHead (CanvasNode.name node)
       (length (List.filter
                  (fun c => (Connection.targetNodeId c =? CanvasNode.id node)
                            || (Connection.sourceNodeId c =? CanvasNode.id node))
                  connections))) = true.
Proof.
  intros Hg Hin Hacc. apply generateAnchorCode_inv in Hg as (_ & _ & _ & -> & _).
  apply (generateTests_covers "my_program" _ connections node).
  apply filter_In. rewrite Hacc. auto.
Qed.

End TestSuite.
(* ================================================================= *)
(** * The execution order of the lowering pass *)

Lemma flowDependencies_lookup (nodes : list CanvasNode.t)
    (connections : list Connection.t) (k : string) :
  flowDependencies nodes connections !! k
  = if decide (k ∈ map CanvasNode.id nodes ++ map Connection.sourceNodeId connections)
    then Some (flowDepsOf nodes connections k) else None.
Proof.
  unfold flowDependencies.
  induction (map CanvasNode.id nodes ++ map Connection.sourceNodeId connections)
    as [|x keys IH].
  - simpl foldr. rewrite obj_lookup_empty. destruct (decide _) as [H|H]; [|reflexivity].
    apply elem_of_nil in H. contradiction.
  - simpl foldr. rewrite obj_lookup_set.
    destruct (decide (x = k)) as [->|Hne].
    + rewrite decide_True; [reflexivity | left].
    + rewrite IH. destruct (decide (k ∈ keys)) as [H|H].
      * rewrite decide_True; [reflexivity | right; exact H].
      * rewrite decide_False; [reflexivity|].
        intros [Heq|Hin]%elem_of_cons; [congruence | contradiction].
Qed.

Lemma flowDependencies_edge (nodes : list CanvasNode.t)
    (connections : list Connection.t) (v d : string) (ds : list string) :
  flowDependencies nodes connections !! v = Some ds ->
  In d ds -> edge connections d v.
Proof.
  rewrite flowDependencies_lookup. destruct (decide _); [|discriminate].
  intros [= <-] Hd. unfold flowDepsOf in Hd.
  destruct (findNode nodes v) as [node|]; [|destruct Hd].
  destruct (isAccount node); [destruct Hd|].
  apply in_map_iff in Hd as (c & Hs & Hc). apply incomingOf_In in Hc as [Hc Ht].
  exists c. auto.
Qed.

(** The converse of [forEach_sim]: from the run over the list itself to the
    run over its image. *)
Lemma forEach_sim_rev {A B SA SB : Type} (h : B -> A)
    (f : A -> SA -> outcome SA) (g : B -> SB -> outcome SB)
    (R : SA -> SB -> Prop) (l : list B) :
  (forall b sa sb sb', In b l -> R sa sb -> g b sb = Ok sb' ->
                       exists sa', f (h b) sa = Ok sa' /\ R sa' sb') ->
  forall sa sb sb',
    R sa sb -> forEach g l sb = Ok sb' ->
    exists sa', forEach f (map h l) sa = Ok sa' /\ R sa' sb'.
Proof.
  induction l as [|b l IH]; intros Hstep sa sb sb' HR Hrun; simpl in *.
  - injection Hrun as <-. eauto.
  - destruct (g b sb) as [sb1| |] eqn:E; simpl in Hrun; try discriminate.
    destruct (Hstep b sa sb sb1 (or_introl eq_refl) HR E) as (sa1 & -> & HR1).
    simpl. apply (IH ltac:(intros; eapply Hstep; eauto) sa1 sb1 sb' HR1 Hrun).
Qed.

Section FlowAsSort.
Variable nodes : list CanvasNode.t.
Variable connections : list Connection.t.

(** The lowering pass's [visit] is the analyzer's [visit] on
    [flowDependencies]. *)
Lemma flow_topo_sim (fuel : nat) :
  forall n sa sg sg',
    flow_rel nodes sa sg ->
    n ∈ map CanvasNode.id nodes ++ map Connection.sourceNodeId connections ->
    Flow.visit fuel nodes connections n sg = Ok sg' ->
    exists sa',
      Topo.visit fuel (flowDependencies nodes connections) n sa = Ok sa' /\
      flow_rel nodes sa' sg'.
Proof.
  induction fuel as [|fuel IH]; intros n sa sg sg' (Hed & Hing & Hord) Hkey Hrun;
    [discriminate|].
  rewrite flow_visit_S, Hed, Hing in Hrun. rewrite topo_visit_S.
  case_bool_decide as Hn1.
  { injection Hrun as <-. exists sa. repeat split; assumption. }
  case_bool_decide as Hn2.
  { injection Hrun as <-. exists sa. repeat split; assumption. }
  rewrite flowDependencies_lookup, decide_True by exact Hkey.
  unfold flowDepsOf. cbv zeta in Hrun.
  destruct (findNode nodes n) as [node|] eqn:Hnode;
    [destruct (isAccount node) eqn:Hacc; simpl negb in Hrun; cbv iota in Hrun|].
  - simpl in Hrun. injection Hrun as <-. simpl.
    eexists. split; [reflexivity|]. unfold flow_rel. simpl.
    rewrite behavioralNames_snoc, Hnode, Hacc, app_nil_r. auto.
  - destruct (forEach _ (incomingOf connections n) _) as [sg2| |] eqn:Eloop;
      simpl in Hrun; try discriminate.
    injection Hrun as <-.
    assert (flow_rel nodes
              (Topo.mk (Topo.visited sa) ({[n]} ∪ Topo.visiting sa) (Topo.result sa))
              (Flow.mk (Topo.visited sa) ({[n]} ∪ Topo.visiting sa)
                       (Flow.executionOrder sg))) as HR1
      by (repeat split; simpl; auto).
    destruct (forEach_sim_rev Connection.sourceNodeId
                (Topo.visit fuel (flowDependencies nodes connections))
                (fun conn => Flow.visit fuel nodes connections
                                        (Connection.sourceNodeId conn))
                (flow_rel nodes) (incomingOf connections n)) with
      (sa := Topo.mk (Topo.visited sa) ({[n]} ∪ Topo.visiting sa) (Topo.result sa))
      (sb := Flow.mk (Topo.visited sa) ({[n]} ∪ Topo.visiting sa)
                     (Flow.executionOrder sg))
      (sb' := sg2)
      as (sa2 & Hloop & Hed2 & Hing2 & Hord2); [|exact HR1|exact Eloop|].
    { intros c sa0 sg0 sg1 Hc HR0 Hc1. apply (IH _ sa0 sg0 sg1 HR0); [|exact Hc1].
      apply elem_of_app. right. apply list_elem_of_In, in_map.
      apply incomingOf_In in Hc as [Hc _]. exact Hc. }
    rewrite Hloop. simpl.
    eexists. split; [reflexivity|]. unfold flow_rel. simpl.
    rewrite behavioralNames_snoc, Hnode, Hacc, Hed2, Hing2, Hord2. auto.
  - simpl in Hrun. injection Hrun as <-. simpl.
    eexists. split; [reflexivity|]. unfold flow_rel. simpl.
    rewrite behavioralNames_snoc, Hnode, app_nil_r. auto.
Qed.

End FlowAsSort.

Lemma analyzeProgramFlow_as_sort (nodes : list CanvasNode.t)
    (connections : list Connection.t) :
  exists pf order,
    analyzeProgramFlow nodes connections = Ok pf /\
    topologicalSort (map CanvasNode.id nodes) (flowDependencies nodes connections)
    = Ok order /\
    ProgramFlow.executionOrder pf = behavioralNames nodes order.
Proof.
  destruct (analyzeProgramFlow_returns nodes connections) as [pf Hpf].
  exists pf. unfold analyzeProgramFlow in Hpf.
  destruct (forEach _ nodes Flow.init) as [sg| |] eqn:Eloop; simpl in Hpf;
    try discriminate.
  injection Hpf as <-.
  destruct (forEach_sim_rev CanvasNode.id
              (Topo.visit (S (length nodes)) (flowDependencies nodes connections))
              (fun node => Flow.visit (S (length nodes)) nodes connections
                                      (CanvasNode.id node))
              (flow_rel nodes) nodes) with
    (sa := Topo.init) (sb := Flow.init) (sb' := sg)
    as (sa & Hloop & _ & _ & Hord);
    [|exact (conj eq_refl (conj eq_refl eq_refl))|exact Eloop|].
  { intros node sa0 sg0 sg1 Hnode HR0 Hrun.
    apply (flow_topo_sim nodes connections _ _ sa0 sg0 sg1 HR0); [|exact Hrun].
    apply elem_of_app. left. apply list_elem_of_In, in_map, Hnode. }
  exists (Topo.result sa). unfold analyzeProgramFlow, topologicalSort.
  rewrite Eloop, length_map, Hloop. simpl. auto.
Qed.


(** Whatever [topologicalSort] returns is duplicate-free, holds every id it
    was asked to sort and only keys of the map. *)
Lemma topologicalSort_partial (nodeIds : list string) (deps : JsObject.t) :
  post (fun order => NoDup order /\
                     (forall x, In x nodeIds -> In x order) /\
                     (forall x, In x order -> x ∈ dom deps))
       True True (topologicalSort nodeIds deps).
Proof.
  unfold topologicalSort. apply post_bind.
  eapply post_mono;
    [ | | | apply (forEach_post _
              (fun pre st => topo_wf deps st /\ Topo.visiting st = ∅ /\
                             forall x, In x pre -> In x (Topo.result st))
              True True) ]; auto.
  - intros st ([W1 W2 W3 W4 W5] & _ & Hall). simpl. auto.
  - split; [apply topo_wf_init|]. split; [reflexivity | intros x []].
  - intros pre n suf s0 _ (Hwf0 & Hv0 & Hall0).
    eapply post_mono; [ | | | apply (topo_visit_wf deps _ n s0 Hwf0) ]; auto.
    intros s1 (Hwf1 & Hv1 & Hn & l1 & Hl1).
    split; [exact Hwf1|]. split; [congruence|].
    intros x [Hx|[<-|[]]]%in_app_iff.
    + rewrite Hl1. apply in_app_iff. left. auto.
    + destruct Hn as [Hn|Hn]; [|exact Hn]. rewrite Hv0 in Hn. set_solver.
Qed.

Lemma findNode_NoDup (nodes : list CanvasNode.t) (node : CanvasNode.t) :
  NoDup (map CanvasNode.id nodes) ->
  In node nodes ->
  findNode nodes (CanvasNode.id node) = Some node.
Proof.
  induction nodes as [|a nodes IH]; intros Hnd Hin; [destruct Hin|].
  simpl in Hnd. apply NoDup_cons in Hnd as [Ha Hnd].
  unfold findNode. simpl.
  destruct (CanvasNode.id a =? CanvasNode.id node) eqn:E.
  - destruct Hin as [->|Hin]; [reflexivity|].
    exfalso. apply Ha. apply String.eqb_eq in E. rewrite E.
    apply list_elem_of_In, in_map, Hin.
  - destruct Hin as [->|Hin]; [rewrite String.eqb_refl in E; discriminate|].
    apply IH; assumption.
Qed.

Lemma behavioralNames_ids (nodes l : list CanvasNode.t) :
  (forall node, In node l -> findNode nodes (CanvasNode.id node) = Some node) ->
  behavioralNames nodes (map CanvasNode.id l) = behavioralNodeNames l.
Proof.
  unfold behavioralNames, behavioralNodeNames.
  induction l as [|a l IH]; intros H; [reflexivity|].
  simpl. rewrite (H a (or_introl eq_refl)), IH by (intros; apply H; right; assumption).
  destruct (isAccount a); reflexivity.
Qed.

Lemma behavioralNames_outside (nodes : list CanvasNode.t) (l : list string) :
  (forall x, In x l -> ~ In x (map CanvasNode.id nodes)) ->
  behavioralNames nodes l = [].
Proof.
  unfold behavioralNames. induction l as [|x l IH]; intros H; [reflexivity|].
  simpl. rewrite (proj2 (findNode_None nodes x) (H x (or_introl eq_refl))).
  apply IH. intros; apply H; right; assumption.
Qed.

Lemma behavioralNames_app (nodes : list CanvasNode.t) (l k : list string) :
  behavioralNames nodes (l ++ k) = behavioralNames nodes l ++ behavioralNames nodes k.
Proof. unfold behavioralNames. apply flat_map_app. Qed.

Section FlowOrder.
Variable toLowerCase : string -> string.
Variable toUpperCase : string -> string.
Variable replaceWhitespace : string -> string -> string.

(** X15.  The execution order of a generated artifact is the analyzer's
    topological sort, run on the dependency object in which account nodes and
    ids that are not nodes have no dependencies, then restricted to the
    behavioral nodes and mapped to their names. *)
Theorem generated_order_as_sort (nodes : list CanvasNode.t)
    (connections : list Connection.t) (g : GeneratedCode.t) :
  generateAnchorCode toLowerCase toUpperCase replaceWhitespace nodes connections
  = Ok g ->
  exists order,
    topologicalSort (map CanvasNode.id nodes) (flowDependencies nodes connections)
    = Ok order /\
    ProgramFlow.executionOrder (GeneratedCode.programFlow g)
    = behavioralNames nodes order.
Proof.
  intros Hg. apply generateAnchorCode_inv in Hg as (Hpf & _).
  destruct (analyzeProgramFlow_as_sort nodes connections)
    as (pf & order & Hpf' & Hsort & Horder).
  rewrite Hpf in Hpf'. injection Hpf' as <-. eauto.
Qed.

(** X16.  When the node ids are distinct, the execution order of a generated
    artifact lists every behavioral node exactly once: it is a permutation
    of the names of the behavioral nodes, cycles or not. *)
Theorem generated_order_permutation (nodes : list CanvasNode.t)
    (connections : list Connection.t) (g : GeneratedCode.t) :
  generateAnchorCode toLowerCase toUpperCase replaceWhitespace nodes connections
  = Ok g ->
  NoDup (map CanvasNode.id nodes) ->
  Permutation (ProgramFlow.executionOrder (GeneratedCode.programFlow g))
              (behavioralNodeNames nodes).
Proof.
  intros Hg Hids. apply generateAnchorCode_inv in Hg as (Hpf & _).
  destruct (analyzeProgramFlow_as_sort nodes connections)
    as (pf & order & Hpf' & Hsort & Horder).
  rewrite Hpf in Hpf'. injection Hpf' as <-. rewrite Horder.
  destruct (post_of_Ok _ _ _ _ _ Hsort (topologicalSort_partial _ _))
    as (Hnd & Hall & _).
  rewrite <- (behavioralNames_ids nodes nodes)
    by (intros; apply findNode_NoDup; assumption).
  assert (Permutation order
            (map CanvasNode.id nodes
             ++ base.filter (fun x => x ∉ map CanvasNode.id nodes) order)) as Hperm.
  { apply NoDup_Permutation.
    - exact Hnd.
    - apply NoDup_app. split; [exact Hids|]. split; [|apply NoDup_filter, Hnd].
      intros x Hx Hx'. apply list_elem_of_filter in Hx' as [Hx' _]. contradiction.
    - intros x. rewrite elem_of_app, list_elem_of_filter. split.
      + intros Hx. destruct (decide (x ∈ map CanvasNode.id nodes)); auto.
      + intros [Hx|[_ Hx]]; [apply list_elem_of_In, Hall, list_elem_of_In, Hx | exact Hx]. }
  unfold behavioralNames at 1. rewrite Hperm. fold (behavioralNames nodes).
  change (flat_map _ ?l) with (behavioralNames nodes l).
  rewrite behavioralNames_app.
  rewrite (behavioralNames_outside nodes (base.filter _ order)), app_nil_r;
    [reflexivity|].
  intros x Hx Hin. apply list_elem_of_In, list_elem_of_filter in Hx as [Hx _].
  apply Hx, list_elem_of_In, Hin.
Qed.

(** X17.  In an acyclic graph, for every connection between two behavioral nodes
    the source is named before the target in the execution order of the
    generated artifact. *)
Theorem generated_order_respects_connections (nodes : list CanvasNode.t)
    (connections : list Connection.t) (g : GeneratedCode.t) :
  generateAnchorCode toLowerCase toUpperCase replaceWhitespace nodes connections
  = Ok g ->
  acyclic connections ->
  forall c sourceNode targetNode,
    In c connections ->
    findNode nodes (Connection.sourceNodeId c) = Some sourceNode ->
    findNode nodes (Connection.targetNodeId c) = Some targetNode ->
    isAccount sourceNode = false ->
    isAccount targetNode = false ->
    appearsBefore (CanvasNode.name sourceNode) (CanvasNode.name targetNode)
                  (ProgramFlow.executionOrder (GeneratedCode.programFlow g)).
Proof.
  intros Hg Hacyc c ns nt Hc Hns Hnt Hsacc Htacc.
  apply generateAnchorCode_inv in Hg as (Hpf & _).
  destruct (analyzeProgramFlow_as_sort nodes connections)
    as (pf & order & Hpf' & Hsort & Horder).
  rewrite Hpf in Hpf'. injection Hpf' as <-. rewrite Horder.
  destruct (post_of_Ok _ _ _ _ _ Hsort (topologicalSort_partial _ _))
    as (_ & Hall & _).
  pose proof (post_of_Ok _ _ _ _ _ Hsort
                (topologicalSort_ordered _ _ (edge connections)
                   (fun v ds d => flowDependencies_edge nodes connections v d ds)
                   Hacyc)) as Hord.
  assert (In (Connection.targetNodeId c) order) as Ht.
  { apply Hall. apply findNode_Some in Hnt as [<- Hin]. apply in_map, Hin. }
  apply in_split in Ht as (l1 & l3 & Heq).
  assert (In (Connection.sourceNodeId c) l1) as Hs.
  { eapply (Hord l1 _ l3 _ _ Heq).
    - rewrite flowDependencies_lookup, decide_True; [reflexivity|].
      apply elem_of_app. left. apply list_elem_of_In.
      destruct (findNode_Some _ _ _ Hnt) as [<- Hin]. apply in_map, Hin.
    - unfold flowDepsOf. rewrite Hnt, Htacc.
      apply in_map, incomingOf_In. auto. }
  apply in_split in Hs as (l0 & l2 & ->).
  exists (behavioralNames nodes l0), (behavioralNames nodes l2),
         (behavioralNames nodes l3).
  rewrite Heq.
  change (?a :: ?l) with ([a] ++ l).
  rewrite !behavioralNames_app.
  unfold behavioralNames at 2 5. simpl. rewrite Hns, Hnt, Hsacc, Htacc.
  simpl. rewrite <- !app_assoc. reflexivity.
Qed.

End FlowOrder.

(* ================================================================= *)
(** * A snapshot without connections *)

Section NoConnections.
Variable toLowerCase : string -> string.
Variable toUpperCase : string -> string.
Variable replaceWhitespace : string -> string -> string.

Lemma behavioralNodeNames_snoc (l : list CanvasNode.t) (a : CanvasNode.t) :
  behavioralNodeNames (l ++ [a])
  = behavioralNodeNames l ++ (if isAccount a then [] else [CanvasNode.name a]).
Proof.
  unfold behavioralNodeNames. rewrite List.filter_app, map_app. simpl.
  destruct (isAccount a); reflexivity.
Qed.

Lemma analyzeProgramFlow_no_connections (nodes : list CanvasNode.t) :
  NoDup (map CanvasNode.id nodes) ->
  analyzeProgramFlow nodes []
  = Ok (ProgramFlow.mk (behavioralNodeNames nodes) (behavioralNodeNames nodes) []).
Proof.
  intros Hids. unfold analyzeProgramFlow.
  assert (post (fun st => Flow.executionOrder st = behavioralNodeNames nodes)
               False False
               (forEach (fun node => Flow.visit (S (length nodes)) nodes []
                                                (CanvasNode.id node))
                        nodes Flow.init)) as Hloop.
  { eapply post_mono;
      [ | | | apply (forEach_post _
                (fun pre st => Flow.visiting st = ∅ /\
                               Flow.visited st = list_to_set (map CanvasNode.id pre) /\
                               Flow.executionOrder st = behavioralNodeNames pre)
                False False) ]; auto.
    - intros st (_ & _ & H). exact H.
    - intros pre a suf s0 Hsplit (Hv0 & Hd0 & Ho0).
      rewrite flow_visit_S, Hv0, Hd0.
      rewrite bool_decide_eq_false_2 by set_solver.
      rewrite bool_decide_eq_false_2.
      2:{ rewrite elem_of_list_to_set. intros Hin.
          rewrite Hsplit, map_app in Hids. apply NoDup_app in Hids as (_ & Hdisj & _).
          apply (Hdisj _ Hin). left. }
      cbv zeta.
      rewrite (findNode_NoDup nodes a Hids)
        by (rewrite Hsplit; apply in_elt).
      assert (forall st1 : Flow.state,
                 post (fun st' =>
                         Flow.visiting st' = ∅ /\
                         Flow.visited st' = list_to_set (map CanvasNode.id (pre ++ [a])) /\
                         Flow.executionOrder st' = behavioralNodeNames (pre ++ [a]))
                      False False
                      (Ok (Flow.mk ({[CanvasNode.id a]} ∪ list_to_set (map CanvasNode.id pre))
                                   (({[CanvasNode.id a]} ∪ ∅) ∖ {[CanvasNode.id a]})
                                   (Flow.executionOrder s0
                                    ++ (if isAccount a then []
                                        else [CanvasNode.name a]))))) as Hfinal.
      { intros _. simpl. split; [set_solver|]. split.
        - rewrite map_app, list_to_set_app_L. simpl. set_solver.
        - rewrite behavioralNodeNames_snoc, Ho0. reflexivity. }
      destruct (isAccount a); simpl.
      + specialize (Hfinal s0). simpl in Hfinal. rewrite app_nil_r in Hfinal.
        exact Hfinal.
      + exact (Hfinal s0). }
  destruct (forEach _ nodes Flow.init) as [st| |]; simpl in *; try contradiction.
  rewrite Hloop. unfold entryPointsOf, behavioralNodeNames. reflexivity.
Qed.

(** X18.  Without connections the lowering pass returns for every snapshot with
    distinct node ids; every behavioral node is an entry point, the
    execution order is the order of the snapshot, and no data flow is
    recorded. *)
Theorem generated_without_connections (nodes : list CanvasNode.t) :
  NoDup (map CanvasNode.id nodes) ->
  exists g,
    generateAnchorCode toLowerCase toUpperCase replaceWhitespace nodes [] = Ok g /\
    ProgramFlow.entryPoints (GeneratedCode.programFlow g) = behavioralNodeNames nodes /\
    ProgramFlow.executionOrder (GeneratedCode.programFlow g)
    = behavioralNodeNames nodes /\
    ProgramFlow.dataFlow (GeneratedCode.programFlow g) = [].
Proof.
  intros Hids.
  destruct (generateAnchorCode_returns toLowerCase toUpperCase replaceWhitespace
              nodes []) as (g & pf & Hg & Hpf & Hflow); [intros c []|].
  exists g. split; [exact Hg|].
  rewrite (analyzeProgramFlow_no_connections nodes Hids) in Hpf.
  injection Hpf as <-. rewrite Hflow. simpl. auto.
Qed.

End NoConnections.

(* ================================================================= *)
(** * The files of a downloaded project *)

Lemma replaceSlashes_app (a b : string) :
  replaceSlashes (a +:+ b) = replaceSlashes a +:+ replaceSlashes b.
Proof.
  induction a as [|x a IH]; [reflexivity|].
  rewrite string_app_cons. simpl. rewrite IH, string_app_cons. reflexivity.
Qed.

Lemma pretty_N_go_replaceSlashes (x : N) :
  forall s, replaceSlashes (pretty_N_go x s) = pretty_N_go x (replaceSlashes s).
Proof.
  induction (N.lt_wf_0 x) as [x _ IH]. intros s.
  assert (x = 0 \/ 0 < x)%N as [->|Hpos] by lia.
  - rewrite !pretty_N_go_0. reflexivity.
  - rewrite (pretty_N_go_step x s), (pretty_N_go_step x (replaceSlashes s))
      by exact Hpos.
    rewrite IH by (apply N.div_lt; lia).
    f_equal. simpl. f_equal.
    unfold pretty_N_char.
    repeat case_match; first [reflexivity | vm_compute in * |-; discriminate].
Qed.

Lemma replaceSlashes_pretty (n : nat) : replaceSlashes (pretty n) = pretty n.
Proof.
  unfold pretty, pretty_nat, pretty, pretty_N.
  destruct (decide (N.of_nat n = 0%N)); [reflexivity|].
  apply pretty_N_go_replaceSlashes.
Qed.

Lemma string_length_app (a b : string) :
  String.length (a +:+ b) = String.length a + String.length b.
Proof.
  induction a as [|x a IH]; [reflexivity|].
  rewrite string_app_cons. simpl. rewrite IH. reflexivity.
Qed.

Lemma string_app_inv_tail (a b c : string) : a +:+ c = b +:+ c -> a = b.
Proof.
  revert b. induction a as [|x a IH]; intros [|y b] H.
  - reflexivity.
  - apply (f_equal String.length) in H.
    rewrite string_app_nil, string_app_cons in H. simpl in H.
    rewrite string_length_app in H. lia.
  - apply (f_equal String.length) in H.
    rewrite string_app_nil, string_app_cons in H. simpl in H.
    rewrite string_length_app in H. lia.
  - rewrite !string_app_cons in H. injection H as -> H.
    f_equal. apply IH, H.
Qed.

(** The download name of the module of index [i]. *)
Lemma downloadNames_eq (code : GeneratedCode.t) :
  downloadNames code
  = ["src_lib.rs"; "tests_test.ts"; "Cargo.toml"; "Anchor.toml"]
    ++ imap (fun index _ =>
               "src_instructions_instruction_" +:+ pretty (index + 1) +:+ ".rs")
            (GeneratedCode.instructions code).
Proof.
  unfold downloadNames, projectFiles. rewrite map_app. f_equal.
  change (map ?f ?l) with (f <$> l). rewrite fmap_imap.
  apply imap_ext. intros i x _. simpl.
  rewrite !replaceSlashes_app, replaceSlashes_pretty. reflexivity.
Qed.

(** X19.  A downloaded project consists of four fixed files and one file per
    instruction module, and no two of them are downloaded under the same
    name. *)
Theorem downloadNames_distinct (code : GeneratedCode.t) :
  length (downloadNames code) = 4 + length (GeneratedCode.instructions code) /\
  NoDup (downloadNames code).
Proof.
  rewrite downloadNames_eq. split.
  - rewrite length_app, length_imap. reflexivity.
  - apply NoDup_app. split; [|split].
    + repeat (apply NoDup_cons_2;
              [rewrite ?elem_of_cons, elem_of_nil;
               intros H; repeat (destruct H as [H|H]; [discriminate H|]); exact H|]).
      apply NoDup_nil_2.
    + intros x Hx Hx'.
      apply list_elem_of_lookup in Hx' as [i Hi].
      rewrite list_lookup_imap in Hi.
      destruct (GeneratedCode.instructions code !! i); [|discriminate].
      simpl in Hi. injection Hi as <-.
      rewrite !string_app_cons in Hx.
      rewrite ?elem_of_cons, elem_of_nil in Hx.
      repeat (destruct Hx as [Hx|Hx]; [discriminate Hx|]). exact Hx.
    + apply NoDup_alt. intros i j x Hi Hj.
      rewrite list_lookup_imap in Hi, Hj.
      destruct (GeneratedCode.instructions code !! i); [|discriminate].
      destruct (GeneratedCode.instructions code !! j); [|discriminate].
      simpl in Hi, Hj. rewrite <- Hj in Hi. injection Hi as Hi.
      rewrite !string_app_nil in Hi.
      apply string_app_inv_tail, (inj pretty) in Hi. lia.
Qed.

(* ================================================================= *)
(** * The further properties on sample snapshots *)

Ltac distinct_strings :=
  repeat (apply NoDup_cons_2;
          [rewrite ?elem_of_cons, elem_of_nil;
           let H := fresh in
           intros H; repeat (destruct H as [H|H]; [discriminate H|]); exact H|]);
  apply NoDup_nil_2.

(** [A.p -> B.q] accepted next to [C.r -> B.q0] and stored. *)
Lemma validateConnection_preserves_invariants_witness :
  fanInAtMostOne [Connection.mk "c2" "A" "B" "p" "q";
                  Connection.mk "c1" "C" "B" "r" "q0"] /\
  noSelfLoop [Connection.mk "c2" "A" "B" "p" "q";
              Connection.mk "c1" "C" "B" "r" "q0"].
Proof.
  apply (validateConnection_preserves_invariants
           (Sample.node "A" "token") (Port.mk "p" "out" "number")
           (Sample.node "B" "token") (Port.mk "q" "in" "number")
           [Connection.mk "c1" "C" "B" "r" "q0"]
           (Connection.mk "c2" "A" "B" "p" "q")
           {| isValid := true; error := None |}).
  - reflexivity.
  - reflexivity.
  - repeat split.
  - unfold fanInAtMostOne. simpl. distinct_strings.
  - intros c [<-|[]]. simpl. discriminate.
Defined.

(** [A.p -> B.q], accepted on the empty graph, proposed again after it and
    another connection were stored. *)
Lemma validateConnection_second_proposal_witness :
  validateConnection (Sample.node "A" "token") (Port.mk "p" "out" "number")
                     (Sample.node "B" "token") (Port.mk "q" "in" "number")
                     [Connection.mk "c2" "B" "C" "r" "s";
                      Connection.mk "c1" "A" "B" "p" "q"]
  = Ok {| isValid := false; error := Some "Connection already exists" |}.
Proof.
  apply (validateConnection_second_proposal
           (Sample.node "A" "token") (Port.mk "p" "out" "number")
           (Sample.node "B" "token") (Port.mk "q" "in" "number")
           []
           [Connection.mk "c2" "B" "C" "r" "s"; Connection.mk "c1" "A" "B" "p" "q"]
           (Connection.mk "c1" "A" "B" "p" "q")
           {| isValid := true; error := None |}).
  - reflexivity.
  - reflexivity.
  - repeat split.
  - right. left. reflexivity.
Defined.

(** A snapshot with a node called [__proto__]: reading that key yields the
    array of its sources, which is the prototype of the object, while the
    only own key is [B]; reading [constructor] yields no array. *)
Lemma analyzeFlow_dependencies_witness :
  exists fa,
    analyzeFlow [Sample.node "__proto__" "token"; Sample.node "B" "token"]
                [Sample.conn "B" "__proto__"] = Ok fa /\
    JsObject.get (FlowAnalysis.dependencies fa) "__proto__" = JsObject.Array ["B"] /\
    JsObject.get (FlowAnalysis.dependencies fa) "B" = JsObject.Array [] /\
    JsObject.get (FlowAnalysis.dependencies fa) "constructor" <> JsObject.Array [] /\
    dom (JsObject.own (FlowAnalysis.dependencies fa)) = {["B"]} /\
    JsObject.proto (FlowAnalysis.dependencies fa) = Some ["B"].
Proof.
  destruct (analyzeFlow [Sample.node "__proto__" "token"; Sample.node "B" "token"]
                        [Sample.conn "B" "__proto__"]) as [fa| |] eqn:Hfa;
    [|vm_compute in Hfa; discriminate..].
  exists fa. split; [reflexivity|].
  destruct (analyzeFlow_dependencies _ _ fa Hfa) as (Hnode & Hother & Hown & Hproto).
  split; [apply (Hnode "__proto__"); simpl; auto|].
  split; [apply (Hnode "B"); simpl; auto|].
  split.
  { apply Hother. simpl. intros H.
    repeat (destruct H as [H|H]; [discriminate H|]). exact H. }
  split.
  { rewrite Hown. simpl map. rewrite !list_to_set_cons, list_to_set_nil.
    apply set_eq. intros k. rewrite elem_of_difference, !elem_of_union,
      !elem_of_singleton, elem_of_empty. split.
    - intros [[->|[->|[]]] Hne]; [contradiction | reflexivity].
    - intros ->. split; [auto | discriminate]. }
  apply Hproto. simpl. auto.
Defined.

(** The only connection of the snapshot ends at [toString], which is not a
    node: the call raises. *)
Lemma analyzeFlow_throws_iff_witness :
  analyzeFlow [Sample.node "A" "token"] [Sample.conn "A" "toString"] = Throw.
Proof.
  apply (analyzeFlow_throws_iff [Sample.node "A" "token"]
                                [Sample.conn "A" "toString"]).
  - simpl. intros [H|[]]. discriminate H.
  - exists (Sample.conn "A" "toString"). split; [left; reflexivity|].
    left. split.
    + simpl. intros [H|[]]. discriminate H.
    + simpl. auto 15.
Defined.

(** [Y -> X] beside a node [Z] that nothing touches. *)
Lemma analyzeFlow_isolatedNodes_witness :
  exists fa,
    analyzeFlow (Sample.node "Z" "token" :: Sample.pairNodes) Sample.pairConnections
    = Ok fa /\
    In "Z" (FlowAnalysis.isolatedNodes fa) /\
    ~ In "X" (FlowAnalysis.isolatedNodes fa).
Proof.
  destruct (analyzeFlow (Sample.node "Z" "token" :: Sample.pairNodes)
                        Sample.pairConnections) as [fa| |] eqn:Hfa;
    [|vm_compute in Hfa; discriminate..].
  exists fa. split; [reflexivity|].
  destruct (analyzeFlow_isolatedNodes _ _ fa Hfa) as [Hiso _].
  split.
  - apply Hiso. split; [simpl; auto|].
    intros (c & [<-|[]] & [H|H]); discriminate H.
  - intros H. apply Hiso in H. destruct H as [_ H]. apply H.
    exists (Sample.conn "Y" "X"). simpl. auto.
Defined.

(** The two-node loop [P -> Q -> P]. *)
Lemma analyzeFlow_cycles_genuine_witness :
  exists fa cyc,
    analyzeFlow [Sample.node "P" "token"; Sample.node "Q" "token"]
                [Sample.conn "P" "Q"; Sample.conn "Q" "P"] = Ok fa /\
    In cyc (FlowAnalysis.cycles fa) /\
    genuineCycle (liveConnections [Sample.node "P" "token"; Sample.node "Q" "token"]
                                  [Sample.conn "P" "Q"; Sample.conn "Q" "P"]) cyc.
Proof.
  destruct (analyzeFlow [Sample.node "P" "token"; Sample.node "Q" "token"]
                        [Sample.conn "P" "Q"; Sample.conn "Q" "P"])
    as [fa| |] eqn:Hfa; [|vm_compute in Hfa; discriminate..].
  destruct (FlowAnalysis.cycles fa) as [|cyc cycles] eqn:Hcycles.
  - exfalso. vm_compute in Hfa. injection Hfa as <-. discriminate Hcycles.
  - exists fa, cyc. split; [reflexivity|].
    assert (In cyc (FlowAnalysis.cycles fa)) as Hin by (rewrite Hcycles; left; reflexivity).
    split; [exact Hin|].
    exact (analyzeFlow_cycles_genuine _ _ fa Hfa cyc Hin).
Defined.

(** No cycle is reported on the chain [Y -> A -> X]. *)
Lemma analyzeFlow_cycles_empty_iff_witness :
  exists fa,
    analyzeFlow Sample.chainNodes Sample.chainConnections = Ok fa /\
    FlowAnalysis.cycles fa = [].
Proof.
  destruct (analyzeFlow Sample.chainNodes Sample.chainConnections) as [fa| |] eqn:Hfa;
    [|vm_compute in Hfa; discriminate..].
  exists fa. split; [reflexivity|].
  apply (analyzeFlow_cycles_empty_iff _ _ fa Hfa).
  replace (liveConnections Sample.chainNodes Sample.chainConnections)
    with Sample.chainConnections by (vm_compute; reflexivity).
  exact chain_acyclic.
Defined.

(** In the chain [Y -> A -> X], [Y] comes before [X], which it reaches
    through [A]. *)
Lemma analyzeFlow_order_respects_paths_witness :
  exists fa,
    analyzeFlow Sample.chainNodes Sample.chainConnections = Ok fa /\
    appearsBefore "Y" "X" (FlowAnalysis.executionOrder fa).
Proof.
  destruct (analyzeFlow_order_respects_paths
              Sample.chainNodes Sample.chainConnections) as (fa & Hfa & Hbefore).
  - exact chain_acyclic.
  - intros c [<-|[<-|[]]]; simpl; auto 10.
  - intros c [<-|[<-|[]]]; simpl; auto 10.
  - exists fa. split; [exact Hfa|].
    apply Hbefore. apply (tc_l _ "Y" "A" "X").
    + exists (Sample.conn "Y" "A"). simpl. auto.
    + apply tc_once. exists (Sample.conn "A" "X"). simpl. auto.
Defined.

(** The library text generated for the vault sample passes the structural
    checks. *)
Lemma generated_lib_passes_validation_witness :
  exists g,
    Sample.generate Sample.vaultNodes Sample.vaultConnections = Ok g /\
    StructureReport.isValid (validateProgramStructure (GeneratedCode.lib g)) = true /\
    StructureReport.errors (validateProgramStructure (GeneratedCode.lib g)) = [].
Proof.
  destruct (Sample.generate Sample.vaultNodes Sample.vaultConnections)
    as [g| |] eqn:Hg; [|vm_compute in Hg; discriminate..].
  exists g. split; [reflexivity|].
  rewrite (generated_lib_passes_validation Sample.toLowerCase Sample.toUpperCase
             Sample.replaceWhitespace Sample.vaultNodes Sample.vaultConnections g Hg).
  split; reflexivity.
Defined.

(** The modules generated for the vault sample. *)
Lemma generated_modules_consistent_witness :
  exists g,
    Sample.generate Sample.vaultNodes Sample.vaultConnections = Ok g /\
    getInstructionNames Sample.toLowerCase Sample.replaceWhitespace Sample.vaultNodes
    = ["withdraw"; "deposit"] /\
    Forall2 (fun name text =>
               stringIncludes text ("pub fn " +:+ name +:+ "(ctx: Context<") = true /\
               stringIncludes (GeneratedCode.lib g) ("pub mod " +:+ name +:+ ";") = true)
            ["withdraw"; "deposit"] (GeneratedCode.instructions g).
Proof.
  destruct (Sample.generate Sample.vaultNodes Sample.vaultConnections)
    as [g| |] eqn:Hg; [|vm_compute in Hg; discriminate..].
  exists g. split; [reflexivity|]. split; [vm_compute; reflexivity|].
  exact (generated_modules_consistent Sample.toLowerCase Sample.toUpperCase
           Sample.replaceWhitespace Sample.vaultNodes Sample.vaultConnections g Hg).
Defined.

(** The account node of the vault sample, touched by one connection. *)
Lemma generated_lib_declares_accounts_witness :
  exists g,
    Sample.generate Sample.vaultNodes Sample.vaultConnections = Ok g /\
    stringIncludes (GeneratedCode.lib g) (accountRecord "Vault" 1) = true.
Proof.
  destruct (Sample.generate Sample.vaultNodes Sample.vaultConnections)
    as [g| |] eqn:Hg; [|vm_compute in Hg; discriminate..].
  exists g. split; [reflexivity|].
  apply (generated_lib_declares_accounts Sample.toLowerCase Sample.toUpperCase
           Sample.replaceWhitespace Sample.vaultNodes Sample.vaultConnections g
           (Sample.node "Vault" "account") Hg).
  - simpl. auto.
  - reflexivity.
Defined.

(** The chain [Y -> A -> X]: the sort on the pruned dependency object yields
    [X; A; Y], and the generated order is [X; Y]. *)
Lemma generated_order_as_sort_witness :
  exists g order,
    Sample.generate Sample.chainNodes Sample.chainConnections = Ok g /\
    topologicalSort (map CanvasNode.id Sample.chainNodes)
                    (flowDependencies Sample.chainNodes Sample.chainConnections)
    = Ok order /\
    ProgramFlow.executionOrder (GeneratedCode.programFlow g)
    = behavioralNames Sample.chainNodes order.
Proof.
  destruct (Sample.generate Sample.chainNodes Sample.chainConnections)
    as [g| |] eqn:Hg; [|vm_compute in Hg; discriminate..].
  destruct (generated_order_as_sort Sample.toLowerCase Sample.toUpperCase
              Sample.replaceWhitespace Sample.chainNodes Sample.chainConnections g Hg)
    as (order & Horder & Heq).
  exists g, order. split; [reflexivity|]. split; [exact Horder | exact Heq].
Defined.

(** The two-node loop [P -> Q -> P]: both nodes are ordered, once each. *)
Lemma generated_order_permutation_witness :
  exists g,
    Sample.generate [Sample.node "P" "token"; Sample.node "Q" "token"]
                    [Sample.conn "P" "Q"; Sample.conn "Q" "P"] = Ok g /\
    Permutation (ProgramFlow.executionOrder (GeneratedCode.programFlow g)) ["P"; "Q"].
Proof.
  destruct (Sample.generate [Sample.node "P" "token"; Sample.node "Q" "token"]
                            [Sample.conn "P" "Q"; Sample.conn "Q" "P"])
    as [g| |] eqn:Hg; [|vm_compute in Hg; discriminate..].
  exists g. split; [reflexivity|].
  apply (generated_order_permutation Sample.toLowerCase Sample.toUpperCase
           Sample.replaceWhitespace
           [Sample.node "P" "token"; Sample.node "Q" "token"]
           [Sample.conn "P" "Q"; Sample.conn "Q" "P"] g Hg).
  simpl. distinct_strings.
Defined.

(** [Y -> X] listed as [X; Y]: [Y] is named before [X]. *)
Lemma generated_order_respects_connections_witness :
  exists g,
    Sample.generate Sample.pairNodes Sample.pairConnections = Ok g /\
    appearsBefore "Y" "X" (ProgramFlow.executionOrder (GeneratedCode.programFlow g)).
Proof.
  destruct (Sample.generate Sample.pairNodes Sample.pairConnections)
    as [g| |] eqn:Hg; [|vm_compute in Hg; discriminate..].
  exists g. split; [reflexivity|].
  assert (acyclic Sample.pairConnections) as Hacyclic.
  { apply (ranked_acyclic _ (fun nodeId => if nodeId =? "Y" then 0 else 1)).
    intros c [<-|[]]. simpl. lia. }
  apply (generated_order_respects_connections Sample.toLowerCase Sample.toUpperCase
           Sample.replaceWhitespace Sample.pairNodes Sample.pairConnections g Hg
           Hacyclic
           (Sample.conn "Y" "X") (Sample.node "Y" "token") (Sample.node "X" "token")).
  - left. reflexivity.
  - reflexivity.
  - reflexivity.
  - reflexivity.
  - reflexivity.
Defined.

(** The vault sample without its connections. *)
Lemma generated_without_connections_witness :
  exists g,
    Sample.generate Sample.vaultNodes [] = Ok g /\
    ProgramFlow.entryPoints (GeneratedCode.programFlow g) = ["Withdraw"; "Deposit"] /\
    ProgramFlow.executionOrder (GeneratedCode.programFlow g) = ["Withdraw"; "Deposit"] /\
    ProgramFlow.dataFlow (GeneratedCode.programFlow g) = [].
Proof.
  apply (generated_without_connections Sample.toLowerCase Sample.toUpperCase
           Sample.replaceWhitespace Sample.vaultNodes).
  simpl. distinct_strings.
Defined.

(** The test case of [Deposit] in the vault sample, touched by both
    connections. *)
Lemma generated_tests_cover_nodes_witness :
  exists g,
    Sample.generate Sample.vaultNodes Sample.vaultConnections = Ok g /\
    stringIncludes (GeneratedCode.tests g) (testCaseHead "Deposit" 2) = true.
Proof.
  destruct (Sample.generate Sample.vaultNodes Sample.vaultConnections)
    as [g| |] eqn:Hg; [|vm_compute in Hg; discriminate..].
  exists g. split; [reflexivity|].
  apply (generated_tests_cover_nodes Sample.toLowerCase Sample.toUpperCase
           Sample.replaceWhitespace Sample.vaultNodes Sample.vaultConnections g
           (Sample.node "Deposit" "token") Hg).
  - simpl. auto.
  - reflexivity.
Defined.
